(** * AICA (src/extension.ts): context assembly, model client, suggestion
      parsing and diff application, as a shallow embedding.

    JavaScript strings are modelled as lists of 8-bit characters
    ([list ascii]): a character stands for one UTF-16 code unit in the
    Latin-1 range (0..255), on which [length], [split], [trim], the regular
    expression classes and the case mappings below coincide with the
    ECMAScript definitions.  Numbers that the source uses as array indices
    and lengths are integers ([Z], [nat]). *)

From Stdlib Require Import ZArith QArith Lqa Lia Ascii String.
From stdpp Require Import gmap strings list.

Set Warnings "-register-all,-clear-no-such-hyp".

Local Open Scope Z_scope.
Local Open Scope list_scope.

(** ** JavaScript string and array primitives used by the extension *)
Module JS.

Abbreviation str := (list ascii).

(** A string literal of the source, as a list of characters. *)
Definition lit (s : string) : str := list_ascii_of_string s.

Definition code (c : ascii) : nat := nat_of_ascii c.

Definition in_range (lo hi : nat) (c : ascii) : bool :=
  (Nat.leb lo (code c) && Nat.leb (code c) hi)%bool.

Definition isUpper (c : ascii) : bool :=
  (in_range 65 90 c || (in_range 192 222 c && negb (Nat.eqb (code c) 215)))%bool.

Definition isLower (c : ascii) : bool :=
  (in_range 97 122 c || (in_range 224 254 c && negb (Nat.eqb (code c) 247)))%bool.

(** [String.prototype.toLowerCase], one code unit at a time. *)
Definition lowerChar (c : ascii) : ascii :=
  if isUpper c then ascii_of_nat (code c + 32) else c.

(** The upper-case mapping that [Canonicalize] applies under the [i] flag. *)
Definition upperChar (c : ascii) : ascii :=
  if isLower c then ascii_of_nat (code c - 32) else c.

Definition toLowerCase (s : str) : str := map lowerChar s.

(** ECMAScript WhiteSpace and LineTerminator code units below 256:
    TAB, LF, VT, FF, CR, SP and NBSP. *)
Definition isSpace (c : ascii) : bool :=
  (in_range 9 13 c || Nat.eqb (code c) 32 || Nat.eqb (code c) 160)%bool.

Definition isLineTerminator (c : ascii) : bool :=
  (Nat.eqb (code c) 10 || Nat.eqb (code c) 13)%bool.

Definition isDigit (c : ascii) : bool := in_range 48 57 c.

(** The class [\w]: [A-Za-z0-9_]. *)
Definition isWord (c : ascii) : bool :=
  (in_range 65 90 c || in_range 97 122 c || isDigit c || Nat.eqb (code c) 95)%bool.

Fixpoint dropWhile {A} (p : A -> bool) (l : list A) : list A :=
  match l with
  | [] => []
  | x :: l' => if p x then dropWhile p l' else l
  end.

Definition trimStart (s : str) : str := dropWhile isSpace s.
Definition trimEnd (s : str) : str := reverse (dropWhile isSpace (reverse s)).

(** [String.prototype.trim]. *)
Definition trim (s : str) : str := trimEnd (trimStart s).

Definition ascii_eqb (a b : ascii) : bool := bool_decide (a = b).
Definition str_eqb (a b : str) : bool := bool_decide (a = b).

(** [s.startsWith(p)]. *)
Fixpoint startsWith (p s : str) : bool :=
  match p, s with
  | [], _ => true
  | _ :: _, [] => false
  | a :: p', b :: s' => ascii_eqb a b && startsWith p' s'
  end.

(** [s.includes(p)]: [p] occurs in [s] as a contiguous substring. *)
Fixpoint includes (s p : str) : bool :=
  startsWith p s ||
  match s with
  | [] => false
  | _ :: s' => includes s' p
  end.

(** [s.substring(start)] and [s.substring(0, n)] for in-range non-negative
    arguments, which is how the source calls them. *)
Definition substringFrom (n : nat) (s : str) : str := drop n s.
Definition substringTo (n : nat) (s : str) : str := take n s.

(** [s.split(sep)] for a one-character separator: never the empty array. *)
Fixpoint split (sep : ascii) (s : str) : list str :=
  match s with
  | [] => [[]]
  | c :: s' =>
      if ascii_eqb c sep then [] :: split sep s'
      else match split sep s' with
           | l :: ls => (c :: l) :: ls
           | [] => [[c]]
           end
  end.

(** [a.join(sep)]. *)
Fixpoint join (sep : str) (l : list str) : str :=
  match l with
  | [] => []
  | [x] => x
  | x :: l' => x ++ sep ++ join sep l'
  end.

Definition nl : ascii := ascii_of_nat 10.

(** [a.slice(start)]: a negative [start] counts from the end. *)
Definition slice {A} (start : Z) (l : list A) : list A :=
  let len := Z.of_nat (length l) in
  let k := if start <? 0 then Z.max (len + start) 0 else Z.min start len in
  drop (Z.to_nat k) l.

(** The index at which [a.splice(start, ...)] operates. *)
Definition spliceStart {A} (start : Z) (l : list A) : nat :=
  let len := Z.of_nat (length l) in
  Z.to_nat (if start <? 0 then Z.max (len + start) 0 else Z.min start len).

(** [a.splice(start, 1)] *)
Definition spliceRemove {A} (start : Z) (l : list A) : list A :=
  let k := spliceStart start l in take k l ++ drop (S k) l.

(** [a.splice(start, 0, x)] *)
Definition spliceInsert {A} (start : Z) (x : A) (l : list A) : list A :=
  let k := spliceStart start l in take k l ++ x :: drop k l.

(** [a.findIndex((l, idx) => p l idx)], [None] for the source's [-1]. *)
Fixpoint findIndexFrom {A} (p : A -> Z -> bool) (i : Z) (l : list A) : option Z :=
  match l with
  | [] => None
  | x :: l' => if p x i then Some i else findIndexFrom p (i + 1) l'
  end.

Definition findIndex {A} (p : A -> Z -> bool) (l : list A) : option Z :=
  findIndexFrom p 0 l.

(** [[...new Set(a)]]: first occurrences, in insertion order. *)
Fixpoint uniq_go (seen : list str) (l : list str) : list str :=
  match l with
  | [] => []
  | x :: l' =>
      if bool_decide (x ∈ seen) then uniq_go seen l'
      else x :: uniq_go (x :: seen) l'
  end.

Definition uniq (l : list str) : list str := uniq_go [] l.

(** Truthiness of a string: non-empty. *)
Definition truthy (s : str) : bool :=
  match s with [] => false | _ => true end.

End JS.

Import JS.


(** ** A backtracking matcher for the regular expressions of the source

    The matcher follows the ECMAScript pattern semantics (non-unicode mode):
    alternatives and quantifiers are tried in priority order, and the first
    way to match wins.  It is written in continuation-passing style, like
    the specification's matchers: [m r s k] matches [r] at state [s] and
    hands every candidate end state to [k] until [k] accepts one. *)
Module Regex.

(** Character classes of the source's patterns. *)
Inductive cclass :=
| Dot      (* .       : anything but a line terminator *)
| Word     (* \w *)
| Digit    (* \d *)
| Space    (* \s *)
| Any.     (* [\s\S] *)

Definition inClass (cl : cclass) (c : ascii) : bool :=
  match cl with
  | Dot => negb (isLineTerminator c)
  | Word => isWord c
  | Digit => isDigit c
  | Space => isSpace c
  | Any => true
  end.

Inductive regex :=
| Eps
| Chr (c : ascii)
| Cls (cl : cclass)
| Seq (r1 r2 : regex)
| Alt (r1 r2 : regex)
| Rep (greedy : bool) (min : nat) (max : option nat) (r : regex)
| Group (i : nat) (r : regex)
| WordB.   (* \b *)

(** Matcher state: the character before the current position (for [\b]),
    the input still to read, the current index and the captures. *)
Record st := St {
  prev : option ascii;
  rest : str;
  pos : nat;
  caps : list (option str)
}.

Definition setCap (i : nat) (v : option str) (s : st) : st :=
  St (prev s) (rest s) (pos s) (<[i := v]> (caps s)).

Fixpoint groups (r : regex) : list nat :=
  match r with
  | Seq r1 r2 | Alt r1 r2 => groups r1 ++ groups r2
  | Rep _ _ _ r' => groups r'
  | Group i r' => i :: groups r'
  | _ => []
  end.

Definition clearCaps (gs : list nat) (s : st) : st :=
  foldr (fun i s' => setCap i None s') s gs.

Definition optWord (c : option ascii) : bool :=
  match c with Some x => isWord x | None => false end.

Definition atBoundary (s : st) : bool :=
  xorb (optWord (prev s)) (optWord (head (rest s))).

(** Character comparison: under the [i] flag both sides are canonicalized. *)
Definition chrMatches (icase : bool) (c x : ascii) : bool :=
  if icase then ascii_eqb (upperChar c) (upperChar x) else ascii_eqb c x.

Section Matcher.
Context {A : Type} (icase : bool).

Definition stepChar (p : ascii -> bool) (s : st) (k : st -> option A) : option A :=
  match rest s with
  | c :: t => if p c then k (St (Some c) t (S (pos s)) (caps s)) else None
  | [] => None
  end.

Definition atMax (max : option nat) (i : nat) : bool :=
  match max with Some mx => Nat.leb mx i | None => false end.

(** RepeatMatcher: [i] iterations done so far.  An iteration that consumes
    nothing once the minimum is reached is rejected, so [fuel] iterations
    always suffice when [fuel] exceeds [min] plus the input left. *)
Fixpoint repLoop (body : st -> (st -> option A) -> option A)
    (greedy : bool) (min : nat) (max : option nat)
    (fuel i : nat) (s : st) (k : st -> option A) {struct fuel} : option A :=
  match fuel with
  | O => None
  | S fuel' =>
      if atMax max i then k s
      else
        let iter :=
          body s (fun s' =>
            if (Nat.leb min i && Nat.eqb (pos s') (pos s))%bool then None
            else repLoop body greedy min max fuel' (S i) s' k) in
        if Nat.ltb i min then iter
        else if greedy then
          match iter with Some x => Some x | None => k s end
        else
          match k s with Some x => Some x | None => iter end
  end.

Fixpoint m (r : regex) (s : st) (k : st -> option A) {struct r} : option A :=
  match r with
  | Eps => k s
  | Chr c => stepChar (chrMatches icase c) s k
  | Cls cl => stepChar (inClass cl) s k
  | Seq r1 r2 => m r1 s (fun s' => m r2 s' k)
  | Alt r1 r2 =>
      match m r1 s k with Some x => Some x | None => m r2 s k end
  | Rep greedy min max r' =>
      repLoop (fun s0 k0 => m r' (clearCaps (groups r') s0) k0)
        greedy min max (min + length (rest s) + 1) 0 s k
  | Group i r' =>
      m r' s (fun s' => k (setCap i (Some (take (pos s' - pos s) (rest s))) s'))
  | WordB => if atBoundary s then k s else None
  end.

End Matcher.

(** One match: the index where it starts, the matched text ([match[0]]),
    the captures ([match[1]], ...) and the state after it. *)
Record result := Result {
  index : nat;
  matched : str;
  captures : list (option str);
  after : st
}.

Definition capture (i : nat) (r : result) : option str :=
  default None (captures r !! i).

Section Exec.
Context (icase : bool) (r : regex).

Definition ngroups : nat := S (list_max (groups r)).

Definition matchAt (p : option ascii) (input : str) (i : nat) : option result :=
  m icase r (St p input i (replicate ngroups None))
    (fun s' => Some (Result i (take (pos s' - i) input) (caps s') s')).

(** The leftmost match at or after the current position. *)
Fixpoint search (p : option ascii) (input : str) (i : nat) : option result :=
  match matchAt p input i with
  | Some res => Some res
  | None =>
      match input with
      | [] => None
      | c :: t => search (Some c) t (S i)
      end
  end.

(** [re.exec(s)] / [s.match(re)] without the [g] flag. *)
Definition exec (input : str) : option result := search None input 0.

(** All matches of a [g] pattern, as [s.match(re)] and an [exec] loop visit
    them: the next search starts where the last match ended, one further on
    after an empty match. *)
Fixpoint allFrom (fuel : nat) (p : option ascii) (input : str) (i : nat) : list result :=
  match fuel with
  | O => []
  | S fuel' =>
      match search p input i with
      | None => []
      | Some res =>
          let s' := after res in
          res ::
          (if Nat.eqb (pos s') (index res) then
             match rest s' with
             | [] => []
             | c :: t => allFrom fuel' (Some c) t (S (pos s'))
             end
           else allFrom fuel' (prev s') (rest s') (pos s'))
      end
  end.

Definition matchAll (input : str) : list result :=
  allFrom (S (length input)) None input 0.

End Exec.

(** Pattern building blocks. *)
Definition Lit (s : string) : regex :=
  foldr (fun c r => Seq (Chr c) r) Eps (lit s).
Definition star (r : regex) : regex := Rep true 0 None r.
Definition plus (r : regex) : regex := Rep true 1 None r.
Definition opt (r : regex) : regex := Rep true 0 (Some 1%nat) r.
Definition lazyStar (r : regex) : regex := Rep false 0 None r.
Definition lazyPlus (r : regex) : regex := Rep false 1 None r.
Definition atLeast (n : nat) (r : regex) : regex := Rep true n None r.
Definition seqs (rs : list regex) : regex := foldr Seq Eps rs.
Definition alts (ss : list string) : regex :=
  match ss with
  | [] => Eps
  | s :: ss' => foldl (fun r s' => Alt r (Lit s')) (Lit s) ss'
  end.

End Regex.

(** ** Diff engine: [applyDiffToContent] *)
Module Diff.
Import Regex.

(** [parseInt] of a run of decimal digits. *)
Definition parseInt (s : str) : Z :=
  foldl (fun n c => 10 * n + (Z.of_nat (code c) - 48)) 0 s.

(** [/@@ -(\d+),?\d* \+(\d+),?\d* @@/] *)
Definition hunkHeader : regex :=
  seqs [Lit "@@ -"; Group 1 (plus (Cls Digit)); opt (Chr ","); star (Cls Digit);
        Lit " +"; Group 2 (plus (Cls Digit)); opt (Chr ","); star (Cls Digit);
        Lit " @@"].

(** The loop state: the [result] array and the cursor [lineOffset]. *)
Definition patchState : Type := list str * Z.

(** One iteration of the loop over [diffLines]. *)
Definition applyDiffLine (st : patchState) (line : str) : patchState :=
  let '(result, lineOffset) := st in
  if startsWith (lit "@@") line then
    match exec false hunkHeader line with
    | Some mt => (result, parseInt (default [] (capture 1 mt)) - 1)
    | None => st
    end
  else if startsWith (lit "-") line then
    let content := substringFrom 1 line in
    match findIndex (fun l idx => (lineOffset <=? idx) && str_eqb l content) result with
    | Some index => (spliceRemove index result, lineOffset)
    | None => st
    end
  else if startsWith (lit "+") line then
    let content := substringFrom 1 line in
    (spliceInsert lineOffset content result, lineOffset + 1)
  else st.

Definition applyDiffToContent (originalContent diffText : str) : str :=
  let lines := split nl originalContent in
  let diffLines := split nl diffText in
  join [nl] (fst (foldl applyDiffLine (lines, 0) diffLines)).

End Diff.

(** ** Host collaborators

    What the extension obtains from the editor: the workspace folders, the
    file search, the documents by path, whether the host lets an edit of a
    document through, the active editor, and Node's [path.basename].  A
    rejected promise or a thrown error is [None]. *)
Record Host := {
  workspaceFolders : bool;
  findFiles : str -> str -> nat -> option (list str);
  documents : gmap str str;
  acceptsEdit : str -> bool;
  activeTextEditor : option (str * str);   (* document file name, text *)
  basename : str -> str
}.

(** [vscode.workspace.openTextDocument]: rejects for a missing document. *)
Definition openTextDocument (h : Host) (path : str) : option str :=
  documents h !! path.

(** [vscode.workspace.applyEdit] of an edit that replaces the whole text of
    one document; it resolves to [false], and changes nothing, when the host
    does not let the edit through. *)
Definition applyEdit (h : Host) (path text : str) : Host :=
  if acceptsEdit h path then
    {| workspaceFolders := workspaceFolders h;
       findFiles := findFiles h;
       documents := <[path := text]> (documents h);
       acceptsEdit := acceptsEdit h;
       activeTextEditor := activeTextEditor h;
       basename := basename h |}
  else h.

(** ** Keyword extraction, relevance scoring and context assembly *)
Module Assembler.
Import Regex.

Definition stopWords : list str :=
  map lit ["the"; "and"; "for"; "are"; "but"; "not"; "you"; "all"; "can";
           "had"; "her"; "was"; "one"; "our"; "out"; "day"; "get"; "has";
           "him"; "his"; "how"; "its"; "may"; "new"; "now"; "old"; "see";
           "two"; "who"; "boy"; "did"; "she"; "use"; "way"; "what"; "when";
           "with"]%string.

(** [/\b\w{3,}\b/g] *)
Definition wordPattern : regex := seqs [WordB; atLeast 3 (Cls Word); WordB].

Definition _extractKeywords (text : str) : list str :=
  let words := map matched (matchAll false wordPattern (toLowerCase text)) in
  filter (fun word => word ∉ stopWords) (uniq words).

(** The five [codePatterns], all with the flags [gi]. *)
Definition codePatterns : list regex :=
  [ (* /\b(function|class|interface|type|const|let|var|import|export)\s+(\w+)/gi *)
    seqs [WordB;
          Group 1 (alts ["function"; "class"; "interface"; "type"; "const";
                         "let"; "var"; "import"; "export"]%string);
          plus (Cls Space); Group 2 (plus (Cls Word))];
    (* /\b(component|service|controller|model|util|helper|config)\b/gi *)
    seqs [WordB;
          Group 1 (alts ["component"; "service"; "controller"; "model"; "util";
                         "helper"; "config"]%string);
          WordB];
    (* /\.(ts|js|py|rs|go|jsx|tsx|cpp|c|java|json|yml|yaml)\b/gi *)
    seqs [Chr ".";
          Group 1 (alts ["ts"; "js"; "py"; "rs"; "go"; "jsx"; "tsx"; "cpp"; "c";
                         "java"; "json"; "yml"; "yaml"]%string);
          WordB];
    (* /\b(api|endpoint|route|handler|middleware)\b/gi *)
    seqs [WordB;
          Group 1 (alts ["api"; "endpoint"; "route"; "handler"; "middleware"]%string);
          WordB];
    (* /\b(test|spec|mock|fixture)\b/gi *)
    seqs [WordB; Group 1 (alts ["test"; "spec"; "mock"; "fixture"]%string); WordB] ].

(** [m.toLowerCase().replace(/[^\w]/g, '')] *)
Definition cleanKeyword (mt : str) : str := List.filter isWord (toLowerCase mt).

Definition _extractCodeKeywords (text : str) : list str :=
  let keywords :=
    concat (map (fun pattern => map (fun r => cleanKeyword (matched r))
                                    (matchAll true pattern text))
                codePatterns) in
  List.filter (fun k => Nat.ltb 2 (length k)) (uniq keywords).

(** [a.sort(cmp)], a stable sort: [after a b] is [cmp(a, b) > 0]. *)
Fixpoint insertSorted {A} (after : A -> A -> bool) (x : A) (l : list A) : list A :=
  match l with
  | [] => [x]
  | y :: l' => if after x y then y :: insertSorted after x l' else x :: l
  end.

Definition sortWith {A} (after : A -> A -> bool) (l : list A) : list A :=
  foldr (insertSorted after) [] l.

Definition anyIncluded (s : str) (needles : list string) : bool :=
  existsb (fun n => includes s (lit n)) needles.

(** The line score.  The source computes it in double precision; here it
    is the exact rational. *)
Definition _scoreLineRelevance (line : str) (keywords : list str)
    (index total : nat) : Q :=
  let lowerLine := toLowerCase line in
  let recency := (inject_Z (Z.of_nat index) / inject_Z (Z.of_nat total) * 10)%Q in
  let hits := length (List.filter (fun keyword => includes lowerLine keyword) keywords) in
  let codeBonus :=
    if anyIncluded lowerLine ["function"; "class"; "import"; "const"; "let";
                              "var"; "```"; "error"; "bug"]%string
    then 3%Q else 0%Q in
  let fileBonus :=
    if anyIncluded lowerLine ["/read"; "/write"; "/exec"; "attached:";
                              "read file:"]%string
    then 4%Q else 0%Q in
  (recency + 5 * inject_Z (Z.of_nat hits) + codeBonus + fileBonus)%Q.

Definition strlen (s : str) : Z := Z.of_nat (length s).

(** The greedy selection loop of [_getRelevantContext]. *)
Definition addLine (maxLength : Z) (result line : str) : str :=
  if strlen result + strlen line + 1 <=? maxLength
  then result ++ (if truthy result then [nl] else []) ++ line
  else result.

Definition _getRelevantContext (history : list str) (currentMsg : str)
    (maxLength : Z) : str :=
  match history with
  | [] => []
  | _ =>
      let fullHistory := join [nl] history in
      if strlen fullHistory <=? maxLength then fullHistory
      else
        let lines := split nl fullHistory in
        let keywords := _extractKeywords currentMsg in
        let scoredLines :=
          imap (fun index line =>
                  (line, _scoreLineRelevance line keywords index (length lines)))
               lines in
        let sorted :=
          sortWith (fun a b => negb (Qle_bool (snd b - snd a) 0)) scoredLines in
        foldl (fun result item => addLine maxLength result (fst item)) [] sorted
  end.

(** The file score of [_getRelevantCodebaseContext]. *)
Definition scoreFile (h : Host) (keywords codeKeywords : list str) (file : str) : Z :=
  let fileName := toLowerCase (basename h file) in
  let filePath := toLowerCase file in
  let hit keyword := (includes fileName keyword || includes filePath keyword)%bool in
  10 * Z.of_nat (length (List.filter hit keywords))
  + 15 * Z.of_nat (length (List.filter hit codeKeywords))
  + (if anyIncluded fileName ["package.json"; "readme"; "config"; "index";
                              "main"; "app"]%string
     then 5 else 0).

Definition truncateTo (maxLen : Z) (content : str) : str :=
  if maxLen <? strlen content
  then substringTo (Z.to_nat maxLen) content ++ lit "..."
  else content.

(** The loop over [topFiles]: [context] grows, [remainingLength] shrinks,
    and the loop stops once less than 200 characters remain. *)
Fixpoint addFiles (h : Host) (topFiles : list (str * Z)) (context : str)
    (remainingLength : Z) : str :=
  match topFiles with
  | [] => context
  | fileInfo :: more =>
      if remainingLength <? 200 then context
      else
        match openTextDocument h (fst fileInfo) with
        | None => addFiles h more context remainingLength
        | Some content =>
            let fileName := basename h (fst fileInfo) in
            let maxFileContent := Z.min (remainingLength - 50) 800 in
            let truncatedContent := truncateTo maxFileContent content in
            let fileSection :=
              lit "
--- " ++ fileName ++ lit " ---
" ++ truncatedContent ++ [nl] in
            if strlen fileSection <=? remainingLength
            then addFiles h more (context ++ fileSection)
                          (remainingLength - strlen fileSection)
            else addFiles h more context remainingLength
        end
  end.

Definition _getRelevantCodebaseContext (h : Host) (userMsg : str)
    (maxLength : Z) : str :=
  if (negb (workspaceFolders h) || (maxLength <? 100))%bool then []
  else
    let keywords := _extractKeywords userMsg in
    let codeKeywords := _extractCodeKeywords userMsg in
    match findFiles h (lit "**/*.{ts,js,py,rs,go,jsx,tsx,cpp,c,java,json,md,txt,yml,yaml}")
                      (lit "**/node_modules/**") 30 with
    | None => []
    | Some files =>
        let scoredFiles :=
          List.filter (fun fs => 0 <? snd fs)
            (map (fun file => (file, scoreFile h keywords codeKeywords file)) files) in
        let sorted := sortWith (fun a b => 0 <? snd b - snd a) scoredFiles in
        let topFiles := take 5 sorted in
        let topFiles :=
          match topFiles with
          | [] => map (fun file => (file, 1)) (take 3 files)
          | _ => topFiles
          end in
        let context := lit "CODEBASE CONTEXT:
" in
        let context := addFiles h topFiles context (maxLength - strlen context) in
        if 50 <? strlen context then context else []
    end.

Definition _getCurrentFileContext (h : Host) : str :=
  match activeTextEditor h with
  | None => []
  | Some (docFileName, content) =>
      let fileName := basename h docFileName in
      let truncatedContent := truncateTo 1500 content in
      lit "CURRENT FILE CONTEXT:
--- " ++ fileName ++ lit " ---
" ++ truncatedContent
  end.

Definition systemPrompt : str := lit
"You are AICA, an AI coding assistant integrated into VSCode. You can:
- Review and analyze code
- Read/write files using /read and /write commands
- Execute terminal commands using /exec
- List workspace files using /list
- Apply code changes with diff previews
- Provide streaming responses for better UX

IMPORTANT: When suggesting code changes, you can trigger a preview interface similar to Cline by formatting your response with:

**SUGGESTED CHANGES FOR [filename]:**
[Brief description of what you're changing]

```[language]
[Complete new file content]
```

This will automatically show a side-by-side diff preview where the user can see original vs modified code and choose to apply or cancel the changes.

You have access to the current workspace and can see relevant files automatically.
Be helpful, concise, and focus on practical solutions based on the codebase context.".

(** The hard window of [_buildChatPrompt]. *)
Definition window : Z := 12000.

(** [Math.floor(n * 0.6)]: for the integers that occur here the rounded
    double product has the same floor as the exact [3n/5]. *)
Definition floor06 (n : Z) : Z := (3 * n) / 5.

(** The three budgeted sections of the prompt: codebase context, current
    file context (empty when left out) and the selected history. *)
Record sections := Sections {
  codebaseSection : str;
  currentFileSection : str;
  historySection : str
}.

Definition buildSections (h : Host) (chatHistory : list str) (userMsg : str) : sections :=
  let contextWindow := systemPrompt ++ lit "

" in
  let remainingLength := window - strlen contextWindow - strlen userMsg - 100 in
  let codebaseContext := _getRelevantCodebaseContext h userMsg (floor06 remainingLength) in
  let remainingLength :=
    if truthy codebaseContext then remainingLength - strlen codebaseContext
    else remainingLength in
  let currentFileContext := _getCurrentFileContext h in
  let useCurrent :=
    (truthy currentFileContext && (strlen currentFileContext + 100 <? remainingLength))%bool in
  let remainingLength :=
    if useCurrent then remainingLength - strlen currentFileContext else remainingLength in
  Sections codebaseContext
           (if useCurrent then currentFileContext else [])
           (_getRelevantContext chatHistory userMsg remainingLength).

Definition withBlank (section : str) : str :=
  if truthy section then section ++ lit "

" else [].

Definition _buildChatPrompt (h : Host) (chatHistory : list str) (userMsg : str) : str :=
  let s := buildSections h chatHistory userMsg in
  systemPrompt ++ lit "

" ++ withBlank (codebaseSection s) ++ withBlank (currentFileSection s)
  ++ historySection s
  ++ lit "
User: " ++ userMsg ++ lit "
AICA:".

End Assembler.

(** ** JSON values and [JSON.parse] *)
Module Json.

(** A number is kept as the exact decimal it was written as:
    [mant * 10 ^ exp10]. *)
Inductive value :=
| VNull
| VBool (b : bool)
| VNum (mant exp10 : Z)
| VStr (s : str)
| VArr (items : list value)
| VObj (fields : list (str * value)).

Inductive token :=
| TLBrace | TRBrace | TLBrack | TRBrack | TColon | TComma
| TVal (v : value).

Definition isJsonSpace (c : ascii) : bool :=
  (Nat.eqb (code c) 32 || Nat.eqb (code c) 9 || Nat.eqb (code c) 10
   || Nat.eqb (code c) 13)%bool.

Fixpoint span {A} (p : A -> bool) (l : list A) : list A * list A :=
  match l with
  | [] => ([], [])
  | x :: l' => if p x then let '(a, b) := span p l' in (x :: a, b) else ([], l)
  end.

Definition digitsToZ (ds : str) : Z :=
  foldl (fun n c => 10 * n + (Z.of_nat (code c) - 48)) 0 ds.

Definition hexVal (c : ascii) : option nat :=
  if in_range 48 57 c then Some (code c - 48)%nat
  else if in_range 97 102 c then Some (code c - 87)%nat
  else if in_range 65 70 c then Some (code c - 55)%nat
  else None.

Definition simpleEscape (e : ascii) : option ascii :=
  match code e with
  | 34%nat => Some (ascii_of_nat 34)     (* quote *)
  | 92%nat => Some (ascii_of_nat 92)     (* backslash *)
  | 47%nat => Some (ascii_of_nat 47)     (* slash *)
  | 98%nat => Some (ascii_of_nat 8)      (* \b *)
  | 102%nat => Some (ascii_of_nat 12)    (* \f *)
  | 110%nat => Some (ascii_of_nat 10)    (* \n *)
  | 114%nat => Some (ascii_of_nat 13)    (* \r *)
  | 116%nat => Some (ascii_of_nat 9)     (* \t *)
  | _ => None
  end.

(** The characters of a string literal after its opening quote.  A
    [\uXXXX] escape above 255 denotes a code unit outside the modelled
    range and is rejected. *)
Fixpoint lexString (s : str) (acc : str) : option (str * str) :=
  match s with
  | [] => None
  | c :: t =>
      if Nat.eqb (code c) 34 then Some (rev acc, t)
      else if Nat.eqb (code c) 92 then
        match t with
        | [] => None
        | e :: t' =>
            if Nat.eqb (code e) 117 then
              match t' with
              | h1 :: h2 :: h3 :: h4 :: t'' =>
                  match hexVal h1, hexVal h2, hexVal h3, hexVal h4 with
                  | Some a, Some b, Some c3, Some d =>
                      if (Nat.eqb a 0 && Nat.eqb b 0)%bool
                      then lexString t'' (ascii_of_nat (16 * c3 + d) :: acc)
                      else None
                  | _, _, _, _ => None
                  end
              | _ => None
              end
            else
              match simpleEscape e with
              | Some ch => lexString t' (ch :: acc)
              | None => None
              end
        end
      else if Nat.ltb (code c) 32 then None
      else lexString t (c :: acc)
  end.

(** A JSON number: an optional minus, an integer part without leading
    zeros, an optional fraction and an optional exponent. *)
Definition lexNumber (s : str) : option (value * str) :=
  let '(neg, s1) :=
    match s with
    | c :: t => if Nat.eqb (code c) 45 then (true, t) else (false, s)
    | [] => (false, s)
    end in
  let '(intd, s2) := span isDigit s1 in
  match intd with
  | [] => None
  | d :: ds =>
      if (Nat.eqb (code d) 48 && negb (Nat.eqb (length ds) 0))%bool then None
      else
        let frac :=
          match s2 with
          | c :: t =>
              if Nat.eqb (code c) 46 then
                let '(fd, s3) := span isDigit t in
                match fd with [] => None | _ => Some (fd, s3) end
              else Some ([], s2)
          | [] => Some ([], s2)
          end in
        match frac with
        | None => None
        | Some (fd, s3) =>
            let expo :=
              match s3 with
              | c :: t =>
                  if (Nat.eqb (code c) 101 || Nat.eqb (code c) 69)%bool then
                    let '(eneg, t1) :=
                      match t with
                      | sg :: t' =>
                          if Nat.eqb (code sg) 45 then (true, t')
                          else if Nat.eqb (code sg) 43 then (false, t')
                          else (false, t)
                      | [] => (false, t)
                      end in
                    let '(ed, s4) := span isDigit t1 in
                    match ed with
                    | [] => None
                    | _ => Some ((if eneg then - digitsToZ ed else digitsToZ ed), s4)
                    end
                  else Some (0, s3)
              | [] => Some (0, s3)
              end in
            match expo with
            | None => None
            | Some (e, s4) =>
                let mant := digitsToZ (intd ++ fd) in
                Some (VNum (if neg then - mant else mant)
                           (e - Z.of_nat (length fd)), s4)
            end
        end
  end.

Fixpoint lex (fuel : nat) (s : str) : option (list token) :=
  match fuel with
  | O => None
  | S fuel' =>
      match s with
      | [] => Some []
      | c :: t =>
          let punct (tk : token) := cons tk <$> lex fuel' t in
          if isJsonSpace c then lex fuel' t
          else if Nat.eqb (code c) 123 then punct TLBrace
          else if Nat.eqb (code c) 125 then punct TRBrace
          else if Nat.eqb (code c) 91 then punct TLBrack
          else if Nat.eqb (code c) 93 then punct TRBrack
          else if Nat.eqb (code c) 58 then punct TColon
          else if Nat.eqb (code c) 44 then punct TComma
          else if Nat.eqb (code c) 34 then
            match lexString t [] with
            | Some (v, r) => cons (TVal (VStr v)) <$> lex fuel' r
            | None => None
            end
          else if (Nat.eqb (code c) 45 || isDigit c)%bool then
            match lexNumber s with
            | Some (v, r) => cons (TVal v) <$> lex fuel' r
            | None => None
            end
          else if startsWith (lit "true") s then
            cons (TVal (VBool true)) <$> lex fuel' (drop 4 s)
          else if startsWith (lit "false") s then
            cons (TVal (VBool false)) <$> lex fuel' (drop 5 s)
          else if startsWith (lit "null") s then
            cons (TVal VNull) <$> lex fuel' (drop 4 s)
          else None
      end
  end.

Fixpoint parseValue (fuel : nat) (ts : list token) : option (value * list token) :=
  match fuel with
  | O => None
  | S fuel' =>
      match ts with
      | TVal v :: r => Some (v, r)
      | TLBrack :: TRBrack :: r => Some (VArr [], r)
      | TLBrack :: r => parseItems fuel' r []
      | TLBrace :: TRBrace :: r => Some (VObj [], r)
      | TLBrace :: r => parseFields fuel' r []
      | _ => None
      end
  end
with parseItems (fuel : nat) (ts : list token) (acc : list value)
    : option (value * list token) :=
  match fuel with
  | O => None
  | S fuel' =>
      match parseValue fuel' ts with
      | Some (v, TComma :: r) => parseItems fuel' r (v :: acc)
      | Some (v, TRBrack :: r) => Some (VArr (rev (v :: acc)), r)
      | _ => None
      end
  end
with parseFields (fuel : nat) (ts : list token) (acc : list (str * value))
    : option (value * list token) :=
  match fuel with
  | O => None
  | S fuel' =>
      match ts with
      | TVal (VStr key) :: TColon :: r =>
          match parseValue fuel' r with
          | Some (v, TComma :: r') => parseFields fuel' r' ((key, v) :: acc)
          | Some (v, TRBrace :: r') => Some (VObj (rev ((key, v) :: acc)), r')
          | _ => None
          end
      | _ => None
      end
  end.

(** [JSON.parse(text)]; [None] when it throws a SyntaxError. *)
Definition parse (text : str) : option value :=
  match lex (S (length text)) text with
  | Some ts =>
      match parseValue (2 * length ts + 2) ts with
      | Some (v, []) => Some v
      | _ => None
      end
  | None => None
  end.

(** [v[key]] for a value other than [null]: only objects have the
    properties the source reads; a repeated key keeps its last value.
    [None] is [undefined]. *)
Definition prop (key : string) (v : value) : option value :=
  match v with
  | VObj fields =>
      snd <$> List.find (fun kv => str_eqb (fst kv) (lit key)) (rev fields)
  | _ => None
  end.

(** A decimal rounds to the double zero exactly when it is at most
    [2^-1075] in magnitude. *)
Definition numIsZero (mant exp10 : Z) : bool :=
  ((mant =? 0) ||
   ((exp10 <? 0) && (Z.abs mant * 2 ^ 1075 <=? 10 ^ (- exp10))))%bool.

(** ToBoolean *)
Definition truthy (v : value) : bool :=
  match v with
  | VNull => false
  | VBool b => b
  | VNum mant exp10 => negb (numIsZero mant exp10)
  | VStr s => JS.truthy s
  | VArr _ | VObj _ => true
  end.

Definition truthyOpt (v : option value) : bool :=
  match v with Some x => truthy x | None => false end.

End Json.

(** The parts of the JavaScript runtime that the model client calls:
    [JSON.parse], and the string conversion that [+=] applies to a value
    that is not a string. *)
Record Runtime := {
  JSON_parse : str -> option Json.value;
  toStringOf : Json.value -> str
}.

(** The runtime with the parser above. *)
Definition stdRuntime (toStr : Json.value -> str) : Runtime :=
  {| JSON_parse := Json.parse; toStringOf := toStr |}.

(** ** Configuration and user-visible effects *)
Record Config := {
  model : str;
  apiUrl : str;
  chatHistory : option bool      (* [None]: the setting is not set *)
}.

(** What a call shows to the user or sends over the network, in order.
    [ShowErrorWith p] is an error message made of [p] and the text of a
    caught exception. *)
Inductive effect :=
| ShowWarning (msg : str)
| ShowError (msg : str)
| ShowErrorWith (prefix : str)
| ShowInfo (msg : str)
| HttpPost (url : str) (prompt : str).

(** ** Model client: [getOllamaReview] and [getOllamaChat] *)
Module Client.
Import Json.

(** The outcome of [axios.post] for the single-shot request: it throws
    (with a message when the error is an [Error]) or returns [response.data]
    ([None]: [undefined]). *)
Inductive postOutcome :=
| PostFails (message : option str)
| PostReturns (data : option value).

Definition invalidUrlWarning (cfg : Config) : effect :=
  ShowWarning (lit "AICA: Invalid apiUrl '" ++ apiUrl cfg ++ lit "'. Use http://<IP>:<port>").

(** The result is the returned JavaScript value ([None]: [undefined]). *)
Definition getOllamaReview (cfg : Config) (post : str -> str -> postOutcome)
    (code instruction : str) : option value * list effect :=
  if negb (startsWith (lit "http") (apiUrl cfg)) then
    (Some (VStr (lit "Invalid Ollama URL.")), [invalidUrlWarning cfg])
  else
    let prompt := instruction ++ lit "

Code:
" ++ code in
    let url := apiUrl cfg ++ lit "/api/generate" in
    let fallback :=
      Some (VStr (lit "Error connecting to Ollama. Ensure the server is running at "
                  ++ apiUrl cfg)) in
    match post url prompt with
    | PostFails message =>
        (fallback,
         [HttpPost url prompt;
          ShowError (lit "AICA: Ollama error - " ++ default (lit "Unknown error") message)])
    | PostReturns None | PostReturns (Some VNull) =>
        (fallback, [HttpPost url prompt; ShowErrorWith (lit "AICA: Ollama error - ")])
    | PostReturns (Some data) => (prop "response" data, [HttpPost url prompt])
    end.

(** Events of the response stream, in the order the transport emits them. *)
Inductive streamEvent :=
| Data (chunk : str)
| End
| Error (error : str).

(** Messages posted to the webview. *)
Inductive webviewMessage :=
| StreamingUpdate (content : value) (fullContent : str)
| StreamingComplete.

Inductive outcome :=
| Resolved (v : str)
| Rejected (error : str).

(** The state the stream handlers share: the accumulated text, the state of
    the returned promise and the messages posted so far. *)
Record chat := Chat {
  fullResponse : str;
  settled : option outcome;
  posted : list webviewMessage
}.

(** [resolve] and [reject] settle the promise once; later calls do nothing. *)
Definition settle (o : outcome) (c : chat) : chat :=
  match settled c with
  | Some _ => c
  | None => Chat (fullResponse c) (Some o) (posted c)
  end.

Definition postMessage (webview : bool) (msg : webviewMessage) (c : chat) : chat :=
  if webview then Chat (fullResponse c) (settled c) (posted c ++ [msg]) else c.

Definition contentText (rt : Runtime) (content : value) : str :=
  match content with
  | VStr s => s
  | _ => toStringOf rt content
  end.

(** The body of the loop over the lines of a chunk.  A line that does not
    parse, or that parses to [null] (whose property access throws), is
    skipped by the [catch]. *)
Definition onLine (rt : Runtime) (webview : bool) (c : chat) (line : str) : chat :=
  match JSON_parse rt line with
  | None | Some VNull => c
  | Some data =>
      let c1 :=
        match prop "message" data with
        | Some message =>
            if truthy message then
              match prop "content" message with
              | Some content =>
                  if truthy content then
                    let full := fullResponse c ++ contentText rt content in
                    postMessage webview (StreamingUpdate content full)
                      (Chat full (settled c) (posted c))
                  else c
              | None => c
              end
            else c
        | None => c
        end in
      if truthyOpt (prop "done" data) then settle (Resolved (fullResponse c1)) c1
      else c1
  end.

Definition chunkLines (chunk : str) : list str :=
  List.filter (fun line => JS.truthy (trim line)) (split nl chunk).

Definition onEvent (rt : Runtime) (webview : bool) (c : chat) (e : streamEvent) : chat :=
  match e with
  | Data chunk => foldl (onLine rt webview) c (chunkLines chunk)
  | End =>
      let c1 := postMessage webview StreamingComplete c in
      settle (Resolved (fullResponse c1)) c1
  | Error error => settle (Rejected error) c
  end.

Definition runStream (rt : Runtime) (webview : bool) (events : list streamEvent) : chat :=
  foldl (onEvent rt webview) (Chat [] None []) events.

(** The outcome of [axios.post] for the streaming request. *)
Inductive transport :=
| ConnectFails (message : option str)
| Stream (events : list streamEvent).

(** What a call of [getOllamaChat] leaves behind: the state of its
    promise ([None]: still pending), the webview messages and the effects. *)
Record chatRun := ChatRun {
  result : option outcome;
  messages : list webviewMessage;
  effects : list effect
}.

Definition getOllamaChat (rt : Runtime) (cfg : Config) (net : transport)
    (prompt : str) (webview : bool) : chatRun :=
  if negb (startsWith (lit "http") (apiUrl cfg)) then
    ChatRun (Some (Resolved (lit "Invalid Ollama URL."))) [] [invalidUrlWarning cfg]
  else
    let url := apiUrl cfg ++ lit "/api/chat" in
    match net with
    | ConnectFails message =>
        ChatRun (Some (Resolved (lit "Error connecting to Ollama."))) []
          [HttpPost url prompt;
           ShowError (lit "AICA: Ollama error - " ++ default (lit "Unknown error") message)]
    | Stream events =>
        let c := runStream rt webview events in
        ChatRun (settled c) (posted c) [HttpPost url prompt]
    end.

End Client.

(** ** Suggestion parser *)
Module Suggest.
Import Regex.

Record Suggestion := {
  targetFile : str;
  rationale : str;
  language : str;
  proposedContent : str
}.

(** The [suggestionPattern] of the source, flags [gi]: the marker
    [**SUGGESTED CHANGES FOR (.+?):**], then [\s*(.*?)\s*], then a fence
    with [(\w+)?\s*([\s\S]*?)] inside. *)
Definition suggestionPattern : regex :=
  seqs [Lit "**SUGGESTED CHANGES FOR "; Group 1 (lazyPlus (Cls Dot)); Lit ":**";
        star (Cls Space); Group 2 (lazyStar (Cls Dot)); star (Cls Space);
        Lit "```"; opt (Group 3 (plus (Cls Word))); star (Cls Space);
        Group 4 (lazyStar (Cls Any)); Lit "```"].

Definition group (i : nat) (mt : result) : str := default [] (capture i mt).

Definition toSuggestion (mt : result) : Suggestion :=
  {| targetFile := trim (group 1 mt);
     rationale := trim (group 2 mt);
     language := group 3 mt;
     proposedContent := trim (group 4 mt) |}.

(** The suggestions that the [exec] loop visits, in order. *)
Definition parseSuggestions (response : str) : list Suggestion :=
  map toSuggestion (matchAll true suggestionPattern response).

End Suggest.

(** ** Edit orchestrator: [previewCodeChange], [applyCodeEdit] and the
    handling of parsed suggestions *)
Module Orchestrator.
Import Suggest.

(** What happens to a preview panel: a message from its page, or the user
    closes it. *)
Inductive panelEvent :=
| Message (command : str)
| Disposed.

(** The presentation surface: how the user reacts to a side-by-side preview
    (original, modified, path, description) and to a diff preview (original,
    modified, path), and whether the host runs the [onDidDispose] listeners
    inside [panel.dispose()]. *)
Record Surface := {
  respond : str -> str -> str -> str -> list panelEvent;
  respondToDiff : str -> str -> str -> list panelEvent;
  disposeNotifies : bool
}.

(** The value the promise of a preview resolves to: the first [resolve]
    wins; [None] when the promise never settles. *)
Fixpoint resolution (disposeNotifies : bool) (events : list panelEvent) : option bool :=
  match events with
  | [] => None
  | Message command :: more =>
      if str_eqb command (lit "apply") then Some (negb disposeNotifies)
      else if str_eqb command (lit "cancel") then Some false
      else resolution disposeNotifies more
  | Disposed :: _ => Some false
  end.

Definition showSideBySideDiffPreview (ui : Surface)
    (original modified filePath description : str) : option bool :=
  resolution (disposeNotifies ui) (respond ui original modified filePath description).

Definition showDiffPreview (ui : Surface) (original modified filePath : str) : option bool :=
  resolution (disposeNotifies ui) (respondToDiff ui original modified filePath).

(** The host and the messages shown once the call has gone as far as it
    gets; with a preview that never settles it stops there. *)
Definition previewCodeChange (h : Host) (ui : Surface)
    (originalCode newCode filePath description : str) : Host * list effect :=
  match showSideBySideDiffPreview ui originalCode newCode filePath description with
  | Some true =>
      match openTextDocument h filePath with
      | Some _ =>
          (applyEdit h filePath newCode,
           [ShowInfo (lit "Applied changes to " ++ basename h filePath)])
      | None => (h, [ShowErrorWith (lit "Preview failed: ")])
      end
  | Some false => (h, [ShowInfo (lit "Changes cancelled")])
  | None => (h, [])
  end.

Definition applyCodeEdit (h : Host) (ui : Surface) (diffText filePath : str)
    : Host * list effect :=
  match openTextDocument h filePath with
  | None => (h, [ShowErrorWith (lit "Edit failed: ")])
  | Some originalContent =>
      let newContent := Diff.applyDiffToContent originalContent diffText in
      match showDiffPreview ui originalContent newContent filePath with
      | Some true =>
          (applyEdit h filePath newContent,
           [ShowInfo (lit "Applied edit to " ++ filePath)])
      | Some false => (h, [ShowInfo (lit "Edit cancelled")])
      | None => (h, [])
      end
  end.

(** The loop of [_parseAndHandleCodeSuggestions]: the host, the messages
    shown, and whether the loop is stuck in a preview that never settles.  A
    suggestion whose file is not found, or cannot be opened, is skipped. *)
Record handling := Handling {
  host : Host;
  shown : list effect;
  stuck : bool
}.

Definition handleSuggestion (ui : Surface) (st : handling) (s : Suggestion) : handling :=
  if stuck st then st
  else
    let h := host st in
    if negb (workspaceFolders h) then st
    else
      match findFiles h (lit "**/" ++ targetFile s) (lit "**/node_modules/**") 1 with
      | Some (file :: _) =>
          match openTextDocument h file with
          | Some originalCode =>
              let '(h', msgs) :=
                previewCodeChange h ui originalCode (proposedContent s) file (rationale s) in
              Handling h' (shown st ++ msgs)
                (bool_decide (showSideBySideDiffPreview ui originalCode (proposedContent s)
                                file (rationale s) = None))
          | None => st
          end
      | _ => st
      end.

Definition _parseAndHandleCodeSuggestions (h : Host) (ui : Surface) (response : str)
    : handling :=
  foldl (handleSuggestion ui) (Handling h [] false) (parseSuggestions response).

End Orchestrator.

(** ** The chat history *)
Module History.

Definition turn (userMsg response : str) : str :=
  lit "User: " ++ userMsg ++ lit "
AICA: " ++ response.

Definition retained (cfg : Config) : bool :=
  match chatHistory cfg with Some true => true | _ => false end.

(** Lines 39-42: push the turn, then keep the last 10 unless the history is
    retained. *)
Definition recordTurn (cfg : Config) (history : list str)
    (userMsg response : str) : list str :=
  let history := history ++ [turn userMsg response] in
  if negb (retained cfg) then slice (-10) history else history.

(** The history after [_handleCommand]: only a successful [/read] adds
    an entry. *)
Definition _handleCommand (h : Host) (command : str) (history : list str) : list str :=
  let parts := split " " command in
  let cmd := toLowerCase (default [] (head parts)) in
  if str_eqb cmd (lit "/read") then
    if Nat.ltb (length parts) 2 then history
    else
      let readPath := join (lit " ") (drop 1 parts) in
      match openTextDocument h readPath with
      | Some content =>
          history ++ [lit "Read file: " ++ readPath ++ [nl] ++ content]
      | None => history
      end
  else history.

(** The [sendMessage] case of the message handler, as far as the history
    goes; [response] is what [getOllamaChat] resolved to. *)
Definition sendMessage (h : Host) (cfg : Config) (history : list str)
    (userMsg response : str) : list str :=
  if startsWith (lit "/") userMsg then _handleCommand h userMsg history
  else recordTurn cfg history userMsg response.

End History.

(** ** The diff engine's compute operation

    [showDiffPreview] obtains the unified diff from [diff.createPatch], a
    function of the [diff] package that is not part of the sources. *)
Module Compute.

(** The changes of a hunk, as in the spec's DiffHunk. *)
Inductive change :=
| Keep (text : str)       (* a context line *)
| Remove (text : str)
| Add (text : str).

Fixpoint lcsLength (a : list str) : list str -> nat :=
  fix inner (b : list str) : nat :=
    match a, b with
    | x :: a', y :: b' =>
        if str_eqb x y then S (lcsLength a' b')
        else Nat.max (lcsLength a' b) (inner b')
    | _, _ => O
    end.

(** Modelled from the spec: the line-level changes from the original to the
    modified lines, along a longest common subsequence; where both a
    removal and an addition are possible the removal comes first. *)
Fixpoint diffLines (a : list str) : list str -> list change :=
  fix inner (b : list str) : list change :=
    match a, b with
    | [], _ => map Add b
    | _, [] => map Remove a
    | x :: a', y :: b' =>
        if str_eqb x y then Keep x :: diffLines a' b'
        else if Nat.leb (lcsLength a b') (lcsLength a' b)
             then Remove x :: diffLines a' b
             else Add y :: inner b'
    end.

Fixpoint digitsOf (fuel n : nat) (acc : str) : str :=
  match fuel with
  | O => acc
  | S fuel' =>
      let acc' := ascii_of_nat (48 + n mod 10) :: acc in
      if Nat.eqb (n / 10) 0 then acc' else digitsOf fuel' (n / 10) acc'
  end.

Definition natToStr (n : nat) : str := digitsOf (S n) n [].

Definition changeLine (c : change) : str :=
  match c with
  | Keep text => lit " " ++ text
  | Remove text => lit "-" ++ text
  | Add text => lit "+" ++ text
  end.

Definition isAdd (c : change) : bool := match c with Add _ => true | _ => false end.
Definition isRemove (c : change) : bool := match c with Remove _ => true | _ => false end.
Definition isKeep (c : change) : bool := match c with Keep _ => true | _ => false end.

(** Modelled from the spec: the text of one hunk that spans the whole file:
    the header with the 1-based start lines and the line counts, then the
    context, remove and add lines.  (The package prints at most four
    context lines around a change; for a file this short the hunk is the
    same.) *)
Definition hunkText (original modified : str) : str :=
  let changes := diffLines (split nl original) (split nl modified) in
  if forallb isKeep changes then []
  else
    let oldCount := length (List.filter (fun c => negb (isAdd c)) changes) in
    let newCount := length (List.filter (fun c => negb (isRemove c)) changes) in
    let header :=
      lit "@@ -1," ++ natToStr oldCount ++ lit " +1," ++ natToStr newCount ++ lit " @@" in
    concat (map (fun l => l ++ [nl]) (header :: map changeLine changes)).

(** Modelled from the spec: [diff.createPatch fileName original modified],
    the standard unified diff: the file header of the package (an Index
    line, a rule, the two file lines), then the hunk. *)
Definition createPatch (fileName original modified : str) : str :=
  lit "Index: " ++ fileName ++ [nl]
  ++ lit "===================================================================" ++ [nl]
  ++ lit "--- " ++ fileName ++ [nl]
  ++ lit "+++ " ++ fileName ++ [nl]
  ++ hunkText original modified.

End Compute.

(** ** HTML escaping and the fragments of the chat and preview pages *)
Module Html.

Definition dquote : ascii := ascii_of_nat 34.

(** Template text of the source, written with ['] where the source has a
    double quote. *)
Definition tpl (s : string) : str :=
  map (fun c => if ascii_eqb c "'" then dquote else c) (lit s).

(** [s.replace(/c/g, r)] for a pattern that is the single character [c] and
    a replacement text without [$]: every [c] becomes [r]. *)
Definition replaceChar (c : ascii) (r s : str) : str :=
  concat (map (fun x => if ascii_eqb x c then r else [x]) s).

(** [escapeHtml], lines 1063-1070: five replacements, one after the other. *)
Definition escapeHtml (text : str) : str :=
  replaceChar "'" (lit "&#39;")
    (replaceChar dquote (lit "&quot;")
       (replaceChar ">" (lit "&gt;")
          (replaceChar "<" (lit "&lt;")
             (replaceChar "&" (lit "&amp;") text)))).

(** [text.replace(/</g, '&lt;').replace(/>/g, '&gt;')]: the escaping of
    chat messages (line 718), of the diff text (line 1326) and of a review
    (line 1453). *)
Definition escapeAngles (text : str) : str :=
  replaceChar ">" (lit "&gt;") (replaceChar "<" (lit "&lt;") text).

(** [_createMessageHTML], lines 716-725 *)
Definition _createMessageHTML (role content : str) : str :=
  let displayRole := if str_eqb role (lit "user") then lit "You" else lit "AICA" in
  let escapedContent := escapeAngles content in
  tpl "
      <div class='message " ++ role ++ tpl "'>
        <div class='message-header'>" ++ displayRole ++ tpl "</div>
        <div class='message-content'>" ++ escapedContent ++ lit "</div>
      </div>
    ".

(** The loop state of [_formatChatHistory]: [formatted], [currentRole] and
    [currentContent]. *)
Record formatState := FormatState {
  formatted : str;
  currentRole : str;
  currentContent : str
}.

(** [if (currentContent) formatted += this._createMessageHTML(...)] *)
Definition flush (st : formatState) : str :=
  if truthy (currentContent st)
  then formatted st ++ _createMessageHTML (currentRole st) (currentContent st)
  else formatted st.

(** One iteration of the loop over the lines of the history. *)
Definition formatLine (st : formatState) (line : str) : formatState :=
  if startsWith (lit "User: ") line then
    FormatState (flush st) (lit "user") (substringFrom 6 line)
  else if startsWith (lit "AICA: ") line then
    FormatState (flush st) (lit "assistant") (substringFrom 6 line)
  else if truthy (currentContent st) then
    FormatState (formatted st) (currentRole st) (currentContent st ++ [nl] ++ line)
  else st.

(** [_formatChatHistory], lines 683-714 *)
Definition _formatChatHistory (history : str) : str :=
  if negb (truthy (trim history)) then []
  else flush (foldl formatLine (FormatState [] [] []) (split nl history)).

(** The class that [formatDiffForDisplay] gives to a line. *)
Definition diffLineClass (line : str) : str :=
  if (startsWith (lit "+++") line || startsWith (lit "---") line
      || startsWith (lit "@@") line)%bool then lit "diff-header"
  else if startsWith (lit "+") line then lit "diff-add"
  else if startsWith (lit "-") line then lit "diff-remove"
  else lit "diff-context".

(** [formatDiffForDisplay], lines 1413-1425 *)
Definition formatDiffForDisplay (diffText : str) : str :=
  concat (map (fun line =>
                 tpl "<div class='diff-line " ++ diffLineClass line ++ tpl "'>"
                 ++ line ++ lit "</div>")
              (split nl diffText)).

(** [lines[i] || ''] *)
Definition lineAt (lines : list str) (i : nat) : str := default [] (lines !! i).

(** [isDifferent] of row [i] (counted from 0). *)
Definition isDifferent (originalLines modifiedLines : list str) (i : nat) : bool :=
  negb (str_eqb (lineAt originalLines i) (lineAt modifiedLines i)).

(** One row of the side-by-side table. *)
Definition sideBySideRow (originalLines modifiedLines : list str) (i : nat) : str :=
  let originalLine := lineAt originalLines i in
  let modifiedLine := lineAt modifiedLines i in
  let lineNum := Compute.natToStr (i + 1) in
  let rowClass :=
    if isDifferent originalLines modifiedLines i
    then lit "diff-row changed" else lit "diff-row" in
  tpl "
      <tr class='" ++ rowClass ++ tpl "'>
        <td class='line-number'>" ++ lineNum ++ tpl "</td>
        <td class='code-cell original'>" ++ escapeHtml originalLine ++ tpl "</td>
        <td class='line-number'>" ++ lineNum ++ tpl "</td>
        <td class='code-cell modified'>" ++ escapeHtml modifiedLine ++ lit "</td>
      </tr>
    ".

(** The number of rows: [maxLines]. *)
Definition maxLines (original modified : str) : nat :=
  Nat.max (length (split nl original)) (length (split nl modified)).

(** [sideBySideContent]: the loop of [getSideBySideDiffWebviewContent],
    lines 1138-1160, which fills the body of the table. *)
Definition sideBySideContent (original modified : str) : str :=
  let originalLines := split nl original in
  let modifiedLines := split nl modified in
  concat (map (sideBySideRow originalLines modifiedLines)
              (seq 0 (maxLines original modified))).

End Html.

(** ** Chat commands: [_handleCommand] in full *)
Module Commands.

(** A message appended to the chat ([appendMessage], role [assistant]);
    [ReplyError p] has the content [p] followed by the text of the caught
    error. *)
Inductive reply :=
| Reply (content : str)
| ReplyError (prefix : str).

(** What a command does to the workspace: a workspace edit that creates
    [path] unless it exists and inserts [content] at its start, or a new
    terminal named [AICA] that is sent [text] and shown. *)
Inductive action :=
| WriteEdit (path content : str)
| TerminalSend (text : str).

(** What a call leaves behind: the history, the replies, the actions, and
    whether the call ran to its end ([false]: an awaited promise rejected
    outside any [try]). *)
Record run := Run {
  history : list str;
  replies : list reply;
  actions : list action;
  completed : bool
}.

(** [_handleCommand], lines 67-134 *)
Definition _handleCommand (h : Host) (command : str) (chatHistory : list str) : run :=
  let parts := split " " command in
  let cmd := toLowerCase (default [] (head parts)) in
  if str_eqb cmd (lit "/read") then
    if Nat.ltb (length parts) 2 then
      Run chatHistory [Reply (lit "Usage: /read <filepath>")] [] true
    else
      let readPath := join (lit " ") (drop 1 parts) in
      match openTextDocument h readPath with
      | Some content =>
          Run (chatHistory ++ [lit "Read file: " ++ readPath ++ [nl] ++ content])
              [Reply (lit "Read " ++ readPath ++ lit ":
```
" ++ content ++ lit "
```")] [] true
      | None =>
          Run chatHistory [ReplyError (lit "Error reading " ++ readPath ++ lit ": ")] [] true
      end
  else if str_eqb cmd (lit "/write") then
    if Nat.ltb (length parts) 3 then
      Run chatHistory [Reply (lit "Usage: /write <filepath> <content>")] [] true
    else
      let writePath := default [] (parts !! 1%nat) in
      let writeContent := join (lit " ") (drop 2 parts) in
      Run chatHistory [Reply (lit "Successfully wrote to " ++ writePath)]
          [WriteEdit writePath writeContent] true
  else if str_eqb cmd (lit "/exec") then
    if Nat.ltb (length parts) 2 then
      Run chatHistory [Reply (lit "Usage: /exec <command>")] [] true
    else
      let execCommand := join (lit " ") (drop 1 parts) in
      Run chatHistory [Reply (lit "Executed: " ++ execCommand)]
          [TerminalSend execCommand] true
  else if str_eqb cmd (lit "/list") then
    if negb (workspaceFolders h) then
      Run chatHistory [Reply (lit "No workspace open")] [] true
    else
      match findFiles h (lit "**/*") (lit "**/node_modules/**") 50 with
      | Some files =>
          let fileList := join [nl] (take 20 files) in
          Run chatHistory [Reply (lit "Files in workspace:
" ++ fileList)] [] true
      | None => Run chatHistory [] [] false
      end
  else
    Run chatHistory [Reply (lit "Unknown command: " ++ cmd ++ lit "
Available: /read, /write, /exec, /list")] [] true.

End Commands.

(** ** The message handler of the chat view: a chat turn from end to end *)
Module Handler.

(** What the handler posts to the chat page besides the streaming
    messages of the model client. *)
Inductive viewMessage :=
| StartStreaming
| Streaming (msg : Client.webviewMessage)
| Appended (r : Commands.reply).

(** The extension after a [sendMessage] message: the history, the host,
    what was posted to the chat page, the requests and the messages shown to
    the user, the actions of a command, and whether the handler ran to its
    end ([false]: it is still waiting, or an awaited promise rejected). *)
Record state := State {
  history : list str;
  host : Host;
  posted : list viewMessage;
  effects : list effect;
  actions : list Commands.action;
  completed : bool
}.

(** The [sendMessage] case, lines 21-43. *)
Definition onSendMessage (h : Host) (ui : Orchestrator.Surface) (rt : Runtime)
    (cfg : Config) (net : Client.transport) (chatHistory : list str) (userMsg : str)
    : state :=
  if startsWith (lit "/") userMsg then
    let r := Commands._handleCommand h userMsg chatHistory in
    State (Commands.history r) h (map Appended (Commands.replies r)) []
          (Commands.actions r) (Commands.completed r)
  else
    let fullPrompt := Assembler._buildChatPrompt h chatHistory userMsg in
    let chat := Client.getOllamaChat rt cfg net fullPrompt true in
    let posted := StartStreaming :: map Streaming (Client.messages chat) in
    match Client.result chat with
    | Some (Client.Resolved response) =>
        let handled := Orchestrator._parseAndHandleCodeSuggestions h ui response in
        let effects := Client.effects chat ++ Orchestrator.shown handled in
        if Orchestrator.stuck handled then
          State chatHistory (Orchestrator.host handled) posted effects [] false
        else
          State (History.recordTurn cfg chatHistory userMsg response)
                (Orchestrator.host handled) posted effects [] true
    | _ => State chatHistory h posted (Client.effects chat) [] false
    end.

End Handler.

(** ** The command [aica.scanCodebase] *)
Module Workspace.

(** What the command leaves behind: the history, the messages shown, and
    whether it ran to its end ([false]: an awaited promise rejected). *)
Record run := Run {
  history : list str;
  shown : list effect;
  completed : bool
}.

(** The loop over the files, lines 851-855: [None] when a document cannot
    be opened. *)
Fixpoint indexFiles (h : Host) (files : list str) (index : str) : option str :=
  match files with
  | [] => Some index
  | file :: more =>
      match openTextDocument h file with
      | Some text =>
          let summary := substringTo 500 text in
          indexFiles h more (index ++ lit "
--- " ++ file ++ lit " ---
" ++ summary ++ lit "...
")
      | None => None
      end
  end.

(** The command, lines 842-858. *)
Definition scanCodebase (h : Host) (chatHistory : list str) : run :=
  if negb (workspaceFolders h) then
    Run chatHistory [ShowError (lit "Open a workspace first!")] true
  else
    match findFiles h (lit "**/*.{ts,js,py,rs,go,jsx,tsx,cpp,c,java}")
                      (lit "**/node_modules/**") 20 with
    | None => Run chatHistory [] false
    | Some files =>
        match indexFiles h (take 10 files) (lit "Codebase Index:
") with
        | Some index =>
            Run (chatHistory ++ [index])
                [ShowInfo (lit "Codebase indexed and added to AICA context.")] true
        | None => Run chatHistory [] false
        end
    end.

End Workspace.

(** * Vocabulary of the properties

    The predicates, auxiliary functions and sample inputs in which the
    properties below are stated. *)

(** ** History *)
Section HistoryTerms.
Import History.
Context (h : Host) (cfg : Config).

(** Feeding a sequence of (user message, response) pairs to the handler. *)
Definition sendAll (history : list str) (msgs : list (str * str)) : list str :=
  foldl (fun hist m => sendMessage h cfg hist (fst m) (snd m)) history msgs.

Definition turns (msgs : list (str * str)) : list str :=
  map (fun m => turn (fst m) (snd m)) msgs.

Definition isChat (m : str * str) : Prop := startsWith (lit "/") (fst m) = false.

End HistoryTerms.

(** ** Sample collaborators, used to run the definitions on concrete inputs *)

(** [path.basename] for POSIX paths without a trailing separator. *)
Definition posixBasename (p : str) : str :=
  default [] (last (split "/" p)).

(** A host without workspace and without active editor. *)
Definition bareHost : Host :=
  {| workspaceFolders := false;
     findFiles := fun _ _ _ => None;
     documents := ∅;
     acceptsEdit := fun _ => true;
     activeTextEditor := None;
     basename := posixBasename |}.

Definition sampleConfig (url : string) : Config :=
  {| model := lit "codellama"; apiUrl := lit url; chatHistory := Some false |}.

(** Fifteen chat messages with their responses. *)
Definition fifteenTurns : list (str * str) :=
  map (fun n => (lit "question " ++ Compute.natToStr n, lit "answer " ++ Compute.natToStr n))
      (seq 1 15).

(** ** Diff texts *)
Section DiffTerms.
Import Diff.

(** A diff line that [applyDiffToContent] passes over. *)
Definition inert (line : str) : Prop :=
  startsWith (lit "@@") line = false
  /\ startsWith (lit "+") line = false
  /\ startsWith (lit "-") line = false.

End DiffTerms.

(** ** Chunks and messages of the model client *)
Section ClientTerms.
Import Json Client.

(** Source text with ['] standing for the double quote. *)
Definition quoted (s : string) : str :=
  map (fun c => if ascii_eqb c "'" then ascii_of_nat 34 else c) (lit s).

(** The two chunks of the streaming scenario. *)
Definition chunkHel : str := quoted "{'message':{'content':'Hel'}}" ++ [nl].

Definition chunkLo : str := quoted "{'message':{'content':'lo'},'done':true}" ++ [nl].

Definition isUpdate (msg : webviewMessage) : bool :=
  match msg with StreamingUpdate _ _ => true | StreamingComplete => false end.

End ClientTerms.

(** A well-formed [http(s)://] URL starts, at the least, with one of the
    two schemes. *)
Definition hasHttpScheme (url : str) : bool :=
  (startsWith (lit "http://") url || startsWith (lit "https://") url)%bool.

Definition isPost (e : effect) : bool :=
  match e with HttpPost _ _ => true | _ => false end.

(** ** The user's choice *)
Section OrchestratorTerms.
Import Orchestrator.

(** What the user chose, read off the panel events alone. *)
Inductive choice := Approved | Rejected | Dismissed | Undecided.

Fixpoint userChoice (events : list panelEvent) : choice :=
  match events with
  | [] => Undecided
  | Message command :: more =>
      if str_eqb command (lit "apply") then Approved
      else if str_eqb command (lit "cancel") then Rejected
      else userChoice more
  | Disposed :: _ => Dismissed
  end.

End OrchestratorTerms.

(** A surface whose user closes the panel without choosing. *)
Definition dismissingSurface : Orchestrator.Surface :=
  {| Orchestrator.respond := fun _ _ _ _ => [Orchestrator.Message (lit "ready"); Orchestrator.Disposed];
     Orchestrator.respondToDiff := fun _ _ _ => [Orchestrator.Disposed];
     Orchestrator.disposeNotifies := true |}.

(** A workspace with the single document [/w/foo.ts]. *)
Definition fooHost : Host :=
  {| workspaceFolders := true;
     findFiles := fun _ _ _ => Some [lit "/w/foo.ts"];
     documents := {[ lit "/w/foo.ts" := lit "const x = 0;" ]};
     acceptsEdit := fun _ => true;
     activeTextEditor := None;
     basename := posixBasename |}.

(** ** Fragments of a stream *)
Section StreamTerms.
Import Json Client.
Context (rt : Runtime).

(** A well-formed fragment is a line that parses to a value whose
    properties can be read (anything but [null]). *)
Definition fragment (line : str) : option value :=
  match JSON_parse rt line with
  | None | Some VNull => None
  | Some data => Some data
  end.

(** The [message.content] field of a fragment, when it is there and truthy. *)
Definition fragmentContent (line : str) : option value :=
  match fragment line with
  | Some data =>
      match prop "message" data with
      | Some message =>
          if truthy message then
            match prop "content" message with
            | Some content => if truthy content then Some content else None
            | None => None
            end
          else None
      | None => None
      end
  | None => None
  end.

(** The text a line adds to the response. *)
Definition fragmentText (line : str) : str :=
  match fragmentContent line with
  | Some content => contentText rt content
  | None => []
  end.

(** The line is a fragment that carries a truthy [done]. *)
Definition carriesDone (line : str) : bool :=
  match fragment line with
  | Some data => truthyOpt (prop "done" data)
  | None => false
  end.

(** All lines that the [data] handler processes, in arrival order. *)
Definition streamLines (chunks : list str) : list str :=
  concat (map chunkLines chunks).

End StreamTerms.

(** A stream whose [done] fragment is followed by one more fragment. *)
Definition chunkExtra : str := quoted "{'message':{'content':'!'}}" ++ [nl].

(** The patch that the [diff] package prints for ["a\nb\nc"] against
    ["a\nx\nc"], character for character. *)
Definition packagePatch : str := lit "Index: f
===================================================================
--- f
+++ f
@@ -1,3 +1,3 @@
 a
-b
+x
 c
\ No newline at end of file
".

(** ** States and matches of the matcher *)
Section MatcherTerms.
Import Regex.

(** [s'] lies ahead of [s] in the same input: some text [w] was read. *)
Definition extends (s s' : st) : Prop :=
  exists w, rest s = w ++ rest s'
            /\ pos s' = (pos s + length w)%nat
            /\ prev s' = match last w with Some c => Some c | None => prev s end.

(** A matcher is sound when it only ever hands later states of the same
    input to its continuation. *)
Definition sound {A : Type} (body : st -> (st -> option A) -> option A) : Prop :=
  forall s k x, body s k = Some x -> exists s', extends s s' /\ k s' = Some x.

(** The part of a text where a search stands: [consumed] lies behind it. *)
Definition standsAt (text consumed : str) (p : option ascii) (input : str) (i : nat) : Prop :=
  text = consumed ++ input /\ i = length consumed /\ p = last consumed.

(** [res] is a match of [r] in [text] that starts right after [consumed]. *)
Definition matchIn (icase : bool) (r : regex) (text : str) (res : result) : Prop :=
  exists consumed input,
    text = consumed ++ input
    /\ matchAt icase r (last consumed) input (length consumed) = Some res.

(** The state after reading [n] more characters. *)
Fixpoint adv (n : nat) (s : st) : st :=
  match n with
  | O => s
  | S n' =>
      match rest s with
      | c :: t => adv n' (St (Some c) t (S (pos s)) (caps s))
      | [] => s
      end
  end.

(** The length of the longest prefix whose characters satisfy [p]. *)
Fixpoint run (p : ascii -> bool) (l : str) : nat :=
  match l with
  | c :: t => if p c then S (run p t) else O
  | [] => O
  end.

(** A matcher that treats alike two continuations that agree on the later
    states of the input. *)
Definition respectful {A} (body : st -> (st -> option A) -> option A) : Prop :=
  forall s k1 k2, (forall s', extends s s' -> k1 s' = k2 s') -> body s k1 = body s k2.

End MatcherTerms.

(** ** Words of a text *)
Section KeywordTerms.
Import Regex Assembler.

(** [w] stands in [text] between two word boundaries. *)
Definition delimited (text w : str) : Prop :=
  exists before after,
    text = before ++ w ++ after
    /\ optWord (last before) = false
    /\ optWord (head after) = false.

(** A lower-case word character: a letter [a-z], a digit or [_]. *)
Definition isLowerWord (c : ascii) : bool := (isWord c && negb (isUpper c))%bool.

End KeywordTerms.

(** ** The prompt budget *)
Section BudgetTerms.
Import Assembler.

(** What is left of the window for the three sections. *)
Definition budget (userMsg : str) : Z :=
  window - strlen (systemPrompt ++ lit "

") - strlen userMsg - 100.

End BudgetTerms.

(** The marker appended to a truncated file text. *)
Definition truncationMarker : str := lit "...".

(** ** Paths through a pattern *)
Section PathTerms.
Import Regex.
Context (icase : bool).

(** The pattern of a literal text, character by character. *)
Definition litOf (w : str) : regex := foldr (fun c r => Seq (Chr c) r) Eps w.

(** [l] starts with [w], up to case when [icase] is set. *)
Fixpoint prefixMatches (w l : str) : bool :=
  match w with
  | [] => true
  | c :: w' =>
      match l with
      | x :: l' => chrMatches icase c x && prefixMatches w' l'
      | [] => false
      end
  end.

(** [passes r s s']: whenever the continuation accepts [s'], matching [r]
    at [s] returns what it returns there: [s'] is the first way through. *)
Definition passes (r : regex) (s s' : st) : Prop :=
  forall (k : st -> option result) x, k s' = Some x -> m icase r s k = Some x.

(** [fails r s]: [r] cannot be matched at [s], whatever follows. *)
Definition fails (r : regex) (s : st) : Prop :=
  forall k : st -> option result, m icase r s k = None.

End PathTerms.

Section TextTerms.
Import Regex.

(** Characters without case: the [i] flag makes no difference for them. *)
Definition caseless (c : ascii) : Prop :=
  forall x, chrMatches true c x = ascii_eqb c x.

(** The character before offset [d] of [input], [p] being the one before
    its start. *)
Definition prevAt (p : option ascii) (input : str) (d : nat) : option ascii :=
  match last (take d input) with Some c => Some c | None => p end.

End TextTerms.

(** ** Occurrences of the suggestion format *)
Section OccurrenceTerms.
Import Regex Suggest.

Definition marker : str := lit "**SUGGESTED CHANGES FOR ".

Definition fence : str := lit "```".

Definition colonStars : str := lit ":**".

Definition spaces (l : str) : Prop := Forall (fun c => isSpace c = true) l.

(** The components of the pattern, from the closing fence backwards. *)
Definition tailA : regex := Seq (litOf fence) Eps.

Definition tailB : regex := Seq (Group 4 (Rep false 0 None (Cls Any))) tailA.

Definition tailC : regex := Seq (Rep true 0 None (Cls Space)) tailB.

Definition tailD : regex :=
  Seq (Rep true 0 (Some 1%nat) (Group 3 (Rep true 1 None (Cls Word)))) tailC.

Definition tailE : regex := Seq (litOf fence) tailD.

Definition tailF : regex := Seq (Rep true 0 None (Cls Space)) tailE.

Definition tailG : regex := Seq (Group 2 (Rep false 0 None (Cls Dot))) tailF.

Definition tailH : regex := Seq (Rep true 0 None (Cls Space)) tailG.

Definition tailI : regex := Seq (litOf colonStars) tailH.

Definition tailJ : regex := Seq (Group 1 (Rep false 1 None (Cls Dot))) tailI.

(** The captures when the match is complete, [lang] being the language
    tag that was read. *)
Definition cap3 (lang : str) (c : list (option str)) : list (option str) :=
  match lang with
  | [] => c
  | _ => <[3%nat := Some lang]> (<[3%nat := None]> c)
  end.


(** One occurrence of the suggestion format in a response: the text
    [gap] before it, the marker as written ([mark], in any case), the file
    name, the free text up to the fence, and the text between the fences. *)
Record occurrence := {
  gap : str;
  mark : str;
  fileName : str;
  freeText : str;
  fenced : str
}.

Definition render (o : occurrence) : str :=
  gap o ++ mark o ++ fileName o ++ colonStars ++ freeText o ++ fence ++ fenced o ++ fence.

(** No match of the marker starts at the first [n] positions of [l]. *)
Definition noMarkerStart (l : str) (n : nat) : bool :=
  forallb (fun j => negb (prefixMatches true marker (drop j l))) (seq 0 n).

(** The occurrence is well formed: the marker is the marker up to case and
    does not begin inside the gap; the file name is not empty, has no line
    break, and [:**] begins nowhere after its start; the free text, once
    trimmed, is a single line; and neither the free text nor the fenced
    text contains three backticks in a row or ends in a backtick. *)
Definition wellFormed (o : occurrence) : bool :=
  str_eqb (map upperChar (mark o)) (map upperChar marker)
  && noMarkerStart (gap o ++ mark o) (length (gap o))
  && negb (str_eqb (fileName o) [])
  && forallb (inClass Dot) (fileName o)
  && negb (includes (drop 1 (fileName o ++ lit ":*")) colonStars)
  && forallb (inClass Dot) (trim (freeText o))
  && negb (includes (freeText o ++ lit "``") fence)
  && negb (includes (fenced o ++ lit "``") fence).

(** The language tag is the run of word characters after the opening
    fence; the content is the rest. *)
Definition suggestionOf (o : occurrence) : Suggestion :=
  {| targetFile := trim (fileName o);
     rationale := trim (freeText o);
     language := take (run isWord (fenced o)) (fenced o);
     proposedContent := trim (drop (run isWord (fenced o)) (fenced o)) |}.

(** The occurrences one after the other, then the rest of the response. *)
Definition response (os : list occurrence) (tail : str) : str :=
  foldr (fun o r => render o ++ r) tail os.

Definition wellFormedAll (os : list occurrence) : Prop :=
  Forall (fun o => wellFormed o = true) os.

(** No match of the marker starts anywhere in [tail]. *)
Definition markerFree (tail : str) : bool := noMarkerStart tail (S (length tail)).

(** Whatever the response, the file name, the rationale and the content
    of every suggestion are trimmed. *)
Definition trimmed (s : Suggestion) : Prop :=
  trim (targetFile s) = targetFile s
  /\ trim (rationale s) = rationale s
  /\ trim (proposedContent s) = proposedContent s.

End OccurrenceTerms.

(** The response of the spec's scenario. *)
Definition fooResponse : str := lit "**SUGGESTED CHANGES FOR foo.ts:**
Fix typo
```ts
const x = 1;
```".

(** The same suggestion with a rationale of two lines. *)
Definition twoLineRationale : occurrence :=
  {| gap := [];
     mark := marker;
     fileName := lit "foo.ts";
     freeText := lit "
Fix typo
in the constant
";
     fenced := lit "ts
const x = 1;
" |}.

(** Two occurrences in one response: the scenario of the spec after a
    greeting, and one with a marker in lower case, a blank line for free
    text, no language tag, and stars and backticks around and inside. *)
Definition sampleOccurrences : list occurrence :=
  [ {| gap := lit "Sure, *here* you go.
";
       mark := marker;
       fileName := lit "foo.ts";
       freeText := lit "
Fix typo
";
       fenced := lit "ts
const x = 1;
" |};
    {| gap := lit "
and ** then
";
       mark := lit "**suggested changes for ";
       fileName := lit " src/a b.py ";
       freeText := lit "  

";
       fenced := lit "
print(`1`)
" |} ].

(** ** Escaped text and rendered history *)
Section HtmlTerms.
Import Html.

(** What [escapeHtml] writes for one character. *)
Definition entity (c : ascii) : str :=
  if ascii_eqb c "&" then lit "&amp;"
  else if ascii_eqb c "<" then lit "&lt;"
  else if ascii_eqb c ">" then lit "&gt;"
  else if ascii_eqb c dquote then lit "&quot;"
  else if ascii_eqb c "'" then lit "&#39;"
  else [c].

(** The characters with which markup or an attribute value can begin or
    end. *)
Definition isMarkup (c : ascii) : bool :=
  (ascii_eqb c "<" || ascii_eqb c ">" || ascii_eqb c dquote || ascii_eqb c "'")%bool.

(** A line that begins with neither role marker of the history. *)
Definition unmarked (line : str) : Prop :=
  startsWith (lit "User: ") line = false /\ startsWith (lit "AICA: ") line = false.

(** A text that the chat view can show whole: its first line is not
    empty, and none of its further lines begins with a role marker. *)
Definition displayable (t : str) : Prop :=
  match split nl t with
  | first :: more => first <> [] /\ Forall unmarked more
  | [] => False
  end.

(** The two messages of one turn, as the chat view shows them. *)
Definition renderTurn (m : str * str) : str :=
  _createMessageHTML (lit "user") (fst m) ++ _createMessageHTML (lit "assistant") (snd m).

(** The block that the diff preview shows for a line of the diff. *)
Definition diffBlock (line : str) : str :=
  tpl "<div class='diff-line " ++ diffLineClass line ++ tpl "'>"
  ++ escapeAngles line ++ lit "</div>".

(** The lines without the empty lines at their end. *)
Fixpoint stripEmptyTail (lines : list str) : list str :=
  match lines with
  | [] => []
  | l :: more =>
      match l, stripEmptyTail more with
      | [], [] => []
      | _, more' => l :: more'
      end
  end.

(** The rows (counted from 0) that the side-by-side preview marks as
    changed. *)
Definition changedRows (original modified : str) : list nat :=
  List.filter (isDifferent (split nl original) (split nl modified))
              (seq 0 (maxLines original modified)).

End HtmlTerms.

(** ** Hunks *)
Section HunkTerms.
Import Diff.

(** A run of decimal digits. *)
Definition digits (ds : str) : Prop := Forall (fun c => isDigit c = true) ds.

(** A line without line break. *)
Definition oneLine (l : str) : Prop := Forall (fun c => c <> nl) l.

(** The header of a hunk: [@@ -oldStart,oldCount +newStart,newCount @@]. *)
Definition hunkHeaderLine (oldStart oldCount newStart newCount : str) : str :=
  lit "@@ -" ++ oldStart ++ lit "," ++ oldCount ++ lit " +" ++ newStart ++ lit ","
  ++ newCount ++ lit " @@".

(** The text of a hunk without context lines: the header, the removed
    lines, the added lines. *)
Definition plainHunk (header : str) (removed added : list str) : str :=
  join [nl] (header :: map (fun l => lit "-" ++ l) removed
                    ++ map (fun l => lit "+" ++ l) added).

End HunkTerms.

(** ** Streaming updates *)
Section UpdateTerms.
Import Json Client.

(** Reading the updates of a stream in order: each one must carry, as its
    [fullContent], the text so far followed by its own content; the result
    is the text after the last one. *)
Fixpoint accumulate (rt : Runtime) (acc : str) (msgs : list webviewMessage) : option str :=
  match msgs with
  | [] => Some acc
  | StreamingUpdate content fullContent :: more =>
      if str_eqb fullContent (acc ++ contentText rt content)
      then accumulate rt fullContent more else None
  | StreamingComplete :: more => accumulate rt acc more
  end.

Definition isComplete (msg : webviewMessage) : bool :=
  match msg with StreamingComplete => true | StreamingUpdate _ _ => false end.

End UpdateTerms.

(** ** Sample surfaces *)

(** A surface whose user clicks [Apply Changes], on a host that notifies
    the dispose listeners later. *)
Definition approvingSurface : Orchestrator.Surface :=
  {| Orchestrator.respond := fun _ _ _ _ => [Orchestrator.Message (lit "apply")];
     Orchestrator.respondToDiff := fun _ _ _ => [Orchestrator.Message (lit "apply")];
     Orchestrator.disposeNotifies := false |}.

(** The same user on a host that runs the dispose listeners inside
    [panel.dispose()]. *)
Definition notifyingSurface : Orchestrator.Surface :=
  {| Orchestrator.respond := fun _ _ _ _ => [Orchestrator.Message (lit "apply")];
     Orchestrator.respondToDiff := fun _ _ _ => [Orchestrator.Message (lit "apply")];
     Orchestrator.disposeNotifies := true |}.

(** ** Command words *)

(** A word without a space. *)
Definition oneWord (w : str) : Prop := Forall (fun c => c <> " "%char) w.

(** ** A chat turn with a suggestion *)



(** ** Lines of a selection *)

(** The lines of a text that are not empty. *)
Definition nonEmptyLines (s : str) : list str :=
  List.filter (fun l => negb (str_eqb l [])) (split nl s).


(** * Properties *)

(** ** Strings and arrays *)
Section JsFacts.

Lemma split_nonempty sep s : split sep s <> [].
Proof.
  destruct s as [|c s]; simpl; [done|].
  destruct (ascii_eqb c sep); [done|].
  by destruct (split sep s).
Qed.

(** Joining the pieces of a split with the separator gives the text back. *)
Lemma join_split sep s : join [sep] (split sep s) = s.
Proof.
  induction s as [|c s IH]; simpl; [done|].
  unfold ascii_eqb. case_bool_decide as Hc.
  - subst c. pose proof (split_nonempty sep s) as Hne.
    destruct (split sep s) as [|l ls] eqn:E; [done|].
    simpl in *. by rewrite IH.
  - pose proof (split_nonempty sep s) as Hne.
    destruct (split sep s) as [|l ls] eqn:E; [done|].
    destruct ls as [|l' ls]; simpl in *; by f_equal.
Qed.

Lemma slice_neg_drop {A} (n : nat) (l : list A) :
  (0 < n)%nat -> slice (- Z.of_nat n) l = drop (length l - n) l.
Proof.
  intros Hn. unfold slice.
  replace (- Z.of_nat n <? 0) with true by (symmetry; apply Z.ltb_lt; lia).
  f_equal. lia.
Qed.

Lemma slice_keep_last {A} (n : nat) (l : list A) (x : A) :
  (0 < n)%nat ->
  slice (- Z.of_nat n) (slice (- Z.of_nat n) l ++ [x]) = slice (- Z.of_nat n) (l ++ [x]).
Proof.
  intros Hn. rewrite !slice_neg_drop by done.
  rewrite !length_app, length_drop. simpl.
  destruct (decide (length l <= n)%nat) as [Hle|Hgt].
  - replace (length l - n)%nat with 0%nat by lia. simpl.
    by replace (length l - 0 + 1 - n)%nat with (length l + 1 - n)%nat by lia.
  - rewrite drop_app_le by (rewrite length_drop; lia).
    rewrite drop_drop.
    rewrite (drop_app_le l) by lia.
    do 2 f_equal. lia.
Qed.

End JsFacts.

(** ** History truncation *)
Section HistoryFacts.
Import History.
Context (h : Host) (cfg : Config).

Lemma sendAll_snoc history msgs m :
  sendAll h cfg history (msgs ++ [m])
  = sendMessage h cfg (sendAll h cfg history msgs) (fst m) (snd m).
Proof. unfold sendAll. by rewrite foldl_app. Qed.

(** Without retention the history is always the last ten entries of
    everything pushed so far. *)
Lemma sendAll_truncates history msgs :
  retained cfg = false -> Forall isChat msgs -> msgs <> [] ->
  sendAll h cfg history msgs = slice (-10) (history ++ turns msgs).
Proof.
  intros Hflag. induction msgs as [|m msgs IH] using rev_ind; [done|].
  intros Hall _. apply Forall_app in Hall as [Hall Hm].
  apply Forall_inv in Hm. unfold isChat in Hm.
  rewrite sendAll_snoc. unfold sendMessage, recordTurn. rewrite Hm, Hflag. simpl.
  unfold turns. rewrite map_app. simpl. rewrite app_assoc.
  destruct msgs as [|m0 msgs0] using rev_ind.
  - simpl. by rewrite app_nil_r.
  - clear IHmsgs0. rewrite IH; [|done|by destruct msgs0].
    apply (slice_keep_last 10). lia.
Qed.

End HistoryFacts.

(** C7. With the chat-history retention flag disabled, after fifteen turns
    have gone through the chat message handler the history holds exactly
    the last ten of them, in their original order (whatever it held
    before). *)
Theorem history_keeps_last_ten (h : Host) (cfg : Config)
    (history : list str) (msgs : list (str * str)) :
  History.retained cfg = false ->
  Forall isChat msgs ->
  length msgs = 15%nat ->
  sendAll h cfg history msgs = turns (drop 5 msgs)
  /\ length (sendAll h cfg history msgs) = 10%nat.
Proof.
  intros Hflag Hall Hlen.
  assert (sendAll h cfg history msgs = turns (drop 5 msgs)) as ->.
  { rewrite sendAll_truncates by (done || by destruct msgs).
    rewrite (slice_neg_drop 10) by lia.
    rewrite length_app. unfold turns at 1. rewrite length_map, Hlen.
    rewrite drop_app_ge by lia.
    replace (length history + 15 - 10 - length history)%nat with 5%nat by lia.
    unfold turns. symmetry. apply (fmap_drop _ 5 msgs). }
  split; [done|]. unfold turns. rewrite length_map, length_drop. lia.
Qed.

Lemma history_keeps_last_ten_witness :
  sendAll bareHost (sampleConfig "http://localhost:11434") [lit "Attached: notes"] fifteenTurns
    = turns (drop 5 fifteenTurns)
  /\ length (sendAll bareHost (sampleConfig "http://localhost:11434")
               [lit "Attached: notes"] fifteenTurns) = 10%nat.
Proof.
  refine (history_keeps_last_ten bareHost _ _ fifteenTurns _ _ _).
  - reflexivity.
  - unfold fifteenTurns; cbn [map seq].
    repeat (constructor; [reflexivity|]). constructor.
  - reflexivity.
Defined.

(** ** Applying a diff *)
Section DiffFacts.
Import Diff.

Lemma applyDiffLine_inert st line : inert line -> applyDiffLine st line = st.
Proof.
  intros (H1 & H2 & H3). destruct st as [result lineOffset].
  unfold applyDiffLine. by rewrite H1, H3, H2.
Qed.

Lemma foldl_inert st diffLines :
  Forall inert diffLines -> foldl applyDiffLine st diffLines = st.
Proof.
  intros Hall. revert st. induction Hall as [|line ls Hl _ IH]; intros st; simpl; [done|].
  by rewrite applyDiffLine_inert, IH.
Qed.

End DiffFacts.

(** C10. A diff text none of whose lines starts with [@@], [+] or [-]
    leaves the base text unchanged. *)
Theorem applyDiffToContent_noop (originalContent diffText : str) :
  Forall inert (split nl diffText) ->
  Diff.applyDiffToContent originalContent diffText = originalContent.
Proof.
  intros Hall. unfold Diff.applyDiffToContent.
  rewrite foldl_inert by done. simpl. apply join_split.
Qed.

Lemma applyDiffToContent_noop_witness :
  Diff.applyDiffToContent (lit "first
second") [] = lit "first
second"
  /\ Diff.applyDiffToContent (lit "first
second") (lit " first
\ No newline at end of file") = lit "first
second".
Proof.
  split.
  - refine (applyDiffToContent_noop _ [] _). repeat constructor.
  - refine (applyDiffToContent_noop _ _ _). vm_compute split. repeat constructor.
Defined.

(** ** Model client *)
Section ClientFacts.
Import Json Client.

(** A settled promise stays as it is. *)
Lemma settle_settled o c : is_Some (settled c) -> settle o c = c.
Proof. intros [o' Ho]. unfold settle. by rewrite Ho. Qed.

Lemma settled_postMessage webview msg c :
  settled (postMessage webview msg c) = settled c.
Proof. by destruct webview. Qed.

Lemma fullResponse_postMessage webview msg c :
  fullResponse (postMessage webview msg c) = fullResponse c.
Proof. by destruct webview. Qed.

Lemma settled_settle o c :
  settled (settle o c) = Some (default o (settled c)).
Proof. unfold settle. by destruct (settled c) eqn:E; simpl; rewrite ?E. Qed.

Lemma onLine_settled rt webview c line o :
  settled c = Some o -> settled (onLine rt webview c line) = Some o.
Proof.
  intros Hc. unfold onLine.
  destruct (JSON_parse rt line) as [data|]; [|done].
  set (c1 := match prop "message" data with Some _ => _ | None => c end).
  assert (settled c1 = Some o) as Hc1.
  { subst c1. destruct (prop "message" data) as [message|]; [|done].
    destruct (truthy message); [|done].
    destruct (prop "content" message) as [content|]; [|done].
    destruct (truthy content); [|done].
    by rewrite settled_postMessage. }
  destruct data; try done;
    (destruct (truthyOpt _); [by rewrite settled_settle, Hc1|done]).
Qed.

Lemma onEvent_settled rt webview c e o :
  settled c = Some o -> settled (onEvent rt webview c e) = Some o.
Proof.
  intros Hc. destruct e as [chunk| |error]; simpl.
  - induction (chunkLines chunk) as [|line ls IH] using rev_ind; [done|].
    rewrite foldl_app. simpl. by apply onLine_settled.
  - by rewrite settled_settle, settled_postMessage, Hc.
  - by rewrite settled_settle, Hc.
Qed.

Lemma events_settled rt webview c events o :
  settled c = Some o -> settled (foldl (onEvent rt webview) c events) = Some o.
Proof.
  revert c. induction events as [|e events IH]; intros c Hc; simpl; [done|].
  apply IH. by apply onEvent_settled.
Qed.

End ClientFacts.

(** C3. When the transport delivers the chunks
    [{"message":{"content":"Hel"}}\n] and
    [{"message":{"content":"lo"},"done":true}\n] and then ends, the call
    resolves with exactly ["Hello"], the webview receives exactly two
    partial-content notifications, and the promise is already resolved with
    ["Hello"] when the second chunk has been handled, so that nothing
    later (the end of the stream, further data, an error) settles it
    again. *)
Theorem streaming_hello (toStr : Json.value -> str) (cfg : Config) (prompt : str)
    (later : list Client.streamEvent) :
  startsWith (lit "http") (apiUrl cfg) = true ->
  let run := Client.getOllamaChat (stdRuntime toStr) cfg
               (Client.Stream [Client.Data chunkHel; Client.Data chunkLo; Client.End])
               prompt true in
  Client.result run = Some (Client.Resolved (lit "Hello"))
  /\ Client.messages run =
       [Client.StreamingUpdate (Json.VStr (lit "Hel")) (lit "Hel");
        Client.StreamingUpdate (Json.VStr (lit "lo")) (lit "Hello");
        Client.StreamingComplete]
  /\ length (List.filter isUpdate (Client.messages run)) = 2%nat
  /\ Client.result (Client.getOllamaChat (stdRuntime toStr) cfg
                      (Client.Stream (Client.Data chunkHel :: Client.Data chunkLo :: later))
                      prompt true)
     = Some (Client.Resolved (lit "Hello")).
Proof.
  intros Hurl run. subst run. unfold Client.getOllamaChat. rewrite Hurl. simpl negb. cbv iota.
  split; [|split; [|split]]; [vm_compute; reflexivity ..|].
  cbn [Client.result]. unfold Client.runStream.
  change (Client.Data chunkHel :: Client.Data chunkLo :: later)
    with ([Client.Data chunkHel; Client.Data chunkLo] ++ later).
  rewrite foldl_app. apply events_settled. vm_compute. reflexivity.
Qed.

Lemma streaming_hello_witness :
  Client.result (Client.getOllamaChat (stdRuntime (fun _ => [])) (sampleConfig "http://localhost:11434")
     (Client.Stream [Client.Data chunkHel; Client.Data chunkLo; Client.End])
     (lit "Say hello") true) = Some (Client.Resolved (lit "Hello")).
Proof.
  refine (proj1 (streaming_hello (fun _ => []) (sampleConfig "http://localhost:11434")
                   (lit "Say hello") [] _)).
  reflexivity.
Defined.

(** ** The endpoint check *)

(** C4, as stated, fails: the address ["httpx"] is no [http(s)://] URL, yet
    the guard lets it through and the request is attempted. *)
Lemma getOllamaReview_posts_to_malformed_url :
  hasHttpScheme (lit "httpx") = false
  /\ snd (Client.getOllamaReview (sampleConfig "httpx")
            (fun _ _ => Client.PostFails None) (lit "x = 1") (lit "Review"))
     = [HttpPost (lit "httpx/api/generate") (lit "Review

Code:
x = 1");
        ShowError (lit "AICA: Ollama error - Unknown error")].
Proof. split; vm_compute; reflexivity. Qed.

(** C4, amended. For every configured address that does not start with
    [http], [getOllamaReview] (and likewise [getOllamaChat]) returns the
    message ["Invalid Ollama URL."] as its value, after a warning to the user
    and without any request. *)
Theorem invalid_endpoint_returns_message (cfg : Config)
    (post : str -> str -> Client.postOutcome) (net : Client.transport)
    (rt : Runtime) (code instruction prompt : str) (webview : bool) :
  startsWith (lit "http") (apiUrl cfg) = false ->
  Client.getOllamaReview cfg post code instruction
    = (Some (Json.VStr (lit "Invalid Ollama URL.")), [Client.invalidUrlWarning cfg])
  /\ List.filter isPost (snd (Client.getOllamaReview cfg post code instruction)) = []
  /\ Client.getOllamaChat rt cfg net prompt webview
    = Client.ChatRun (Some (Client.Resolved (lit "Invalid Ollama URL."))) []
        [Client.invalidUrlWarning cfg].
Proof.
  intros Hurl. unfold Client.getOllamaReview, Client.getOllamaChat.
  rewrite Hurl. simpl. done.
Qed.

Lemma invalid_endpoint_returns_message_witness :
  Client.getOllamaReview (sampleConfig "localhost:11434")
    (fun _ _ => Client.PostReturns None) (lit "x = 1") (lit "Review")
  = (Some (Json.VStr (lit "Invalid Ollama URL.")),
     [Client.invalidUrlWarning (sampleConfig "localhost:11434")]).
Proof.
  refine (proj1 (invalid_endpoint_returns_message (sampleConfig "localhost:11434")
            (fun _ _ => Client.PostReturns None) (Client.Stream [])
            (stdRuntime (fun _ => [])) (lit "x = 1") (lit "Review") [] false _)).
  reflexivity.
Defined.

(** ** The edit orchestrator *)
Section OrchestratorFacts.
Import Orchestrator.

Lemma resolution_true_approved notifies events :
  resolution notifies events = Some true -> userChoice events = Approved.
Proof.
  induction events as [|[command|] more IH]; cbn [resolution userChoice]; [done| |done].
  destruct (str_eqb command (lit "apply")); [done|].
  by destruct (str_eqb command (lit "cancel")).
Qed.

End OrchestratorFacts.

(** Without a positive decision the host stays as it is. *)
Lemma preview_keeps_host (h : Host) (ui : Orchestrator.Surface)
    (originalCode newCode filePath description : str) :
  Orchestrator.showSideBySideDiffPreview ui originalCode newCode filePath description
    <> Some true ->
  fst (Orchestrator.previewCodeChange h ui originalCode newCode filePath description) = h.
Proof.
  intros Hd. unfold Orchestrator.previewCodeChange.
  by destruct (Orchestrator.showSideBySideDiffPreview _ _ _ _ _) as [[|]|].
Qed.

(** The converse direction: a write means that the user approved. *)
Lemma write_needs_approval (h : Host) (ui : Orchestrator.Surface)
    (originalCode newCode filePath description : str) :
  fst (Orchestrator.previewCodeChange h ui originalCode newCode filePath description) <> h ->
  userChoice (Orchestrator.respond ui originalCode newCode filePath description) = Approved.
Proof.
  intros Hdiff. apply (resolution_true_approved (Orchestrator.disposeNotifies ui)).
  destruct (Orchestrator.resolution _ _) as [[|]|] eqn:Hd; [done| |];
    exfalso; apply Hdiff; apply preview_keeps_host;
    unfold Orchestrator.showSideBySideDiffPreview; by rewrite Hd.
Qed.

(** C6. When the confirmation surface gives no positive decision (it
    resolves to a rejection, the panel is closed without a choice, or it
    never decides), [previewCodeChange] changes nothing: every document,
    the target file among them, reads as before.  The same holds whenever
    the user's own choice is anything but an approval. *)
Theorem no_write_without_approval (h : Host) (ui : Orchestrator.Surface)
    (originalCode newCode filePath description : str) :
  Orchestrator.showSideBySideDiffPreview ui originalCode newCode filePath description
    <> Some true
  \/ userChoice (Orchestrator.respond ui originalCode newCode filePath description)
       <> Approved ->
  fst (Orchestrator.previewCodeChange h ui originalCode newCode filePath description) = h
  /\ openTextDocument
       (fst (Orchestrator.previewCodeChange h ui originalCode newCode filePath description))
       filePath
     = openTextDocument h filePath.
Proof.
  intros Hno.
  assert (Orchestrator.showSideBySideDiffPreview ui originalCode newCode filePath
            description <> Some true) as Hd.
  { destruct Hno as [Hd|Hc]; [done|]. intros Hd. apply Hc.
    by apply (resolution_true_approved (Orchestrator.disposeNotifies ui)). }
  by rewrite preview_keeps_host.
Qed.

Lemma no_write_without_approval_witness :
  fst (Orchestrator.previewCodeChange fooHost dismissingSurface
         (lit "const x = 0;") (lit "const x = 1;") (lit "/w/foo.ts") (lit "Fix typo"))
    = fooHost
  /\ openTextDocument
       (fst (Orchestrator.previewCodeChange fooHost dismissingSurface
               (lit "const x = 0;") (lit "const x = 1;") (lit "/w/foo.ts") (lit "Fix typo")))
       (lit "/w/foo.ts")
     = openTextDocument fooHost (lit "/w/foo.ts").
Proof.
  refine (no_write_without_approval fooHost dismissingSurface _ _ _ _ _).
  right. vm_compute. discriminate.
Defined.

(** ** The streaming reader, fragment by fragment *)
Section StreamFacts.
Import Json Client.
Context (rt : Runtime).

Lemma onLine_fullResponse webview c line :
  fullResponse (onLine rt webview c line) = fullResponse c ++ fragmentText rt line.
Proof.
  unfold onLine, fragmentText, fragmentContent, fragment.
  destruct (JSON_parse rt line) as [data|]; [|by rewrite app_nil_r].
  assert (forall c1 : chat,
    fullResponse (if truthyOpt (prop "done" data)
                  then settle (Resolved (fullResponse c1)) c1 else c1)
    = fullResponse c1) as Hs.
  { intros c1. destruct (truthyOpt _); [|done]. unfold settle. by destruct (settled c1). }
  destruct data; try (by rewrite app_nil_r); rewrite Hs;
    (destruct (prop "message" _) as [message|]; [|by rewrite app_nil_r]);
    (destruct (truthy message); [|by rewrite app_nil_r]);
    (destruct (prop "content" message) as [content|]; [|by rewrite app_nil_r]);
    (destruct (truthy content); [|by rewrite app_nil_r]);
    by rewrite fullResponse_postMessage.
Qed.

Lemma onLine_pending webview c line :
  settled c = None ->
  settled (onLine rt webview c line)
  = if carriesDone rt line then Some (Resolved (fullResponse c ++ fragmentText rt line))
    else None.
Proof.
  intros Hc. pose proof (onLine_fullResponse webview c line) as Hfull.
  unfold onLine, carriesDone, fragment in *.
  destruct (JSON_parse rt line) as [data|]; [|done].
  set (c1 := match prop "message" data with Some _ => _ | None => c end) in *.
  assert (settled c1 = None) as Hc1.
  { subst c1. destruct (prop "message" data) as [message|]; [|done].
    destruct (truthy message); [|done].
    destruct (prop "content" message) as [content|]; [|done].
    destruct (truthy content); [|done].
    by rewrite settled_postMessage. }
  destruct data; try done;
    (destruct (truthyOpt _) eqn:Hdone;
     [rewrite settled_settle, Hc1; simpl; f_equal; f_equal;
      rewrite <- Hfull; unfold settle; by rewrite Hc1
     | done]).
Qed.

Lemma data_events webview c chunks :
  foldl (onEvent rt webview) c (map Data chunks)
  = foldl (onLine rt webview) c (streamLines chunks).
Proof.
  revert c. induction chunks as [|chunk chunks IH]; intros c; [done|].
  unfold streamLines. simpl. rewrite foldl_app. apply IH.
Qed.

Lemma lines_fullResponse webview c lines :
  fullResponse (foldl (onLine rt webview) c lines)
  = fullResponse c ++ concat (map (fragmentText rt) lines).
Proof.
  revert c. induction lines as [|line lines IH]; intros c; simpl.
  - by rewrite app_nil_r.
  - by rewrite IH, onLine_fullResponse, app_assoc.
Qed.

Lemma lines_pending webview c lines :
  settled c = None -> Forall (fun line => carriesDone rt line = false) lines ->
  settled (foldl (onLine rt webview) c lines) = None.
Proof.
  intros Hc Hall. revert c Hc.
  induction Hall as [|line lines Hl _ IH]; intros c Hc; simpl; [done|].
  apply IH. by rewrite onLine_pending, Hl.
Qed.

Lemma lines_settled webview c lines o :
  settled c = Some o -> settled (foldl (onLine rt webview) c lines) = Some o.
Proof.
  revert c. induction lines as [|line lines IH]; intros c Hc; simpl; [done|].
  apply IH. by apply onLine_settled.
Qed.

(** The resolved value is fixed by the first fragment that carries [done]. *)
Lemma resolved_at_first_done webview pre d post :
  Forall (fun line => carriesDone rt line = false) pre -> carriesDone rt d = true ->
  settled (foldl (onLine rt webview) (Chat [] None []) (pre ++ d :: post))
  = Some (Resolved (concat (map (fragmentText rt) (pre ++ [d])))).
Proof.
  intros Hpre Hd. rewrite foldl_app. simpl.
  apply lines_settled. rewrite onLine_pending by (by apply lines_pending).
  rewrite Hd, lines_fullResponse. simpl.
  by rewrite map_app, concat_app; simpl; rewrite app_nil_r.
Qed.

(** Every fragment with content is announced, before and after [done]. *)
Lemma lines_posted c lines :
  length (List.filter isUpdate (posted (foldl (onLine rt true) c lines)))
  = (length (List.filter isUpdate (posted c))
     + length (List.filter (fun line => bool_decide (is_Some (fragmentContent rt line))) lines))%nat.
Proof.
  revert c. induction lines as [|line lines IH]; intros c; simpl; [lia|].
  rewrite IH. clear IH.
  assert (length (List.filter isUpdate (posted (onLine rt true c line)))
          = (length (List.filter isUpdate (posted c))
             + if bool_decide (is_Some (fragmentContent rt line)) then 1 else 0)%nat) as ->.
  { unfold onLine, fragmentContent, fragment.
    destruct (JSON_parse rt line) as [data|]; [|simpl; lia].
    assert (forall c1 : chat,
      posted (if truthyOpt (prop "done" data)
              then settle (Resolved (fullResponse c1)) c1 else c1) = posted c1) as Hs.
    { intros c1. destruct (truthyOpt _); [|done]. unfold settle. by destruct (settled c1). }
    destruct data; try (simpl; lia); rewrite Hs;
      (destruct (prop "message" _) as [message|]; [|simpl; lia]);
      (destruct (truthy message); [|simpl; lia]);
      (destruct (prop "content" message) as [content|]; [|simpl; lia]);
      (destruct (truthy content); [|simpl; lia]);
      simpl; rewrite List.filter_app, length_app; simpl; lia. }
  destruct (bool_decide _); simpl; lia.
Qed.

End StreamFacts.

(** C9. Whatever chunks arrive and however their lines are framed: once a
    fragment carrying [done] has been processed, the promise is resolved
    with the concatenation, in arrival order, of the content of all lines up
    to and including the first such fragment; the lines after it, and
    everything the transport does later, leave that value as it is, while
    each fragment with content, also a later one, is still announced to the
    webview. *)
Theorem resolved_value_fixed_at_done (rt : Runtime) (cfg : Config) (prompt : str)
    (webview : bool) (chunks : list str) (later : list Client.streamEvent)
    (pre post : list str) (d : str) :
  startsWith (lit "http") (apiUrl cfg) = true ->
  streamLines chunks = pre ++ d :: post ->
  Forall (fun line => carriesDone rt line = false) pre ->
  carriesDone rt d = true ->
  Client.result (Client.getOllamaChat rt cfg
                   (Client.Stream (map Client.Data chunks ++ later)) prompt webview)
    = Some (Client.Resolved (concat (map (fragmentText rt) (pre ++ [d]))))
  /\ length (List.filter isUpdate
               (Client.messages (Client.getOllamaChat rt cfg
                                   (Client.Stream (map Client.Data chunks)) prompt true)))
     = length (List.filter (fun line => bool_decide (is_Some (fragmentContent rt line)))
                           (pre ++ d :: post)).
Proof.
  intros Hurl Hlines Hpre Hd. unfold Client.getOllamaChat. rewrite Hurl. simpl.
  unfold Client.runStream. split.
  - rewrite foldl_app. apply events_settled.
    rewrite data_events, Hlines. by apply resolved_at_first_done.
  - rewrite data_events, lines_posted, Hlines. simpl. lia.
Qed.

Lemma resolved_value_fixed_at_done_witness :
  Client.result (Client.getOllamaChat (stdRuntime (fun _ => []))
                   (sampleConfig "http://localhost:11434")
                   (Client.Stream (map Client.Data [chunkHel; chunkLo ++ chunkExtra]
                                   ++ [Client.End]))
                   (lit "Say hello") true)
    = Some (Client.Resolved (lit "Hello"))
  /\ length (List.filter isUpdate
               (Client.messages (Client.getOllamaChat (stdRuntime (fun _ => []))
                   (sampleConfig "http://localhost:11434")
                   (Client.Stream (map Client.Data [chunkHel; chunkLo ++ chunkExtra]))
                   (lit "Say hello") true)))
     = 3%nat.
Proof.
  refine (resolved_value_fixed_at_done (stdRuntime (fun _ => []))
            (sampleConfig "http://localhost:11434") (lit "Say hello") true
            [chunkHel; chunkLo ++ chunkExtra] [Client.End]
            [quoted "{'message':{'content':'Hel'}}"]
            [quoted "{'message':{'content':'!'}}"]
            (quoted "{'message':{'content':'lo'},'done':true}") _ _ _ _).
  - reflexivity.
  - vm_compute. reflexivity.
  - constructor; [vm_compute; reflexivity | constructor].
  - vm_compute. reflexivity.
Defined.

(** ** Round trip through the diff engine *)

(** C1. Texts without repeated lines for which the round trip fails: the
    original ["a\nb\nc"] and the modified ["a\nx\nc"].  Applied to the
    original, the computed unified diff gives ["x\n++ f\na\nc"]: the [+++]
    line of the file header is taken for an addition, and the added line
    lands at the start of the hunk because context lines do not move the
    cursor.  The hunk alone, without the file header, gives ["x\na\nc"]. *)
Theorem diff_round_trip_fails :
  let original := lit "a
b
c" in
  let modified := lit "a
x
c" in
  NoDup (split nl original) /\ NoDup (split nl modified)
  /\ Diff.applyDiffToContent original (Compute.createPatch (lit "f") original modified)
     = lit "x
++ f
a
c"
  /\ Diff.applyDiffToContent original packagePatch = lit "x
++ f
a
c"
  /\ Diff.applyDiffToContent original (Compute.hunkText original modified) = lit "x
a
c"
  /\ Diff.applyDiffToContent original (Compute.createPatch (lit "f") original modified)
     <> modified.
Proof.
  cbv zeta.
  split; [|split; [|split; [|split; [|split]]]].
  - apply (bool_decide_unpack _). vm_compute. reflexivity.
  - apply (bool_decide_unpack _). vm_compute. reflexivity.
  - vm_compute. reflexivity.
  - vm_compute. reflexivity.
  - vm_compute. reflexivity.
  - vm_compute. discriminate.
Qed.

(** What does hold: a hunk made of removals and additions only, placed by
    its header, is applied as written.  Here the second line is replaced. *)
Example diff_without_context_applies :
  Diff.applyDiffToContent (lit "a
b
c") (lit "@@ -2,1 +2,1 @@
-b
+x
") = lit "a
x
c".
Proof. vm_compute. reflexivity. Qed.

(** ** The matcher: where its continuation can be called *)
Section MatcherFacts.
Import Regex.

Lemma extends_refl s : extends s s.
Proof. exists []. simpl. by rewrite Nat.add_0_r. Qed.

Lemma extends_trans s1 s2 s3 : extends s1 s2 -> extends s2 s3 -> extends s1 s3.
Proof.
  intros (w1 & Hr1 & Hp1 & Hv1) (w2 & Hr2 & Hp2 & Hv2).
  exists (w1 ++ w2). rewrite Hr1, Hr2, Hp2, Hp1, Hv2, Hv1, length_app, app_assoc.
  split; [done|]. split; [lia|].
  rewrite last_app. by destruct (last w2).
Qed.

Lemma extends_step s c t :
  rest s = c :: t -> extends s (St (Some c) t (S (pos s)) (caps s)).
Proof. intros Hr. exists [c]. simpl. rewrite Hr. split; [done|]. split; [lia|done]. Qed.

Lemma extends_setCap_r s s' i v : extends s s' -> extends s (setCap i v s').
Proof. by intros (w & ? & ? & ?); exists w. Qed.

Lemma rest_clearCaps gs s : rest (clearCaps gs s) = rest s.
Proof. induction gs as [|g gs IH]; simpl; done. Qed.

Lemma pos_clearCaps gs s : pos (clearCaps gs s) = pos s.
Proof. induction gs as [|g gs IH]; simpl; done. Qed.

Lemma prev_clearCaps gs s : prev (clearCaps gs s) = prev s.
Proof. induction gs as [|g gs IH]; simpl; done. Qed.

Lemma extends_clearCaps_l gs s s' : extends (clearCaps gs s) s' -> extends s s'.
Proof.
  intros (w & Hr & Hp & Hv). exists w.
  by rewrite rest_clearCaps, pos_clearCaps, prev_clearCaps in *.
Qed.

Section Sound.
Context {A : Type} (icase : bool).

Lemma stepChar_sound p : sound (A := A) (stepChar p).
Proof.
  intros s k x. unfold stepChar.
  destruct (rest s) as [|c t] eqn:Hr; [done|].
  destruct (p c); [|done]. intros Hk. eexists. split; [|exact Hk].
  by apply extends_step.
Qed.

Lemma repLoop_sound body greedy min max fuel i :
  sound (A := A) body -> sound (fun s k => repLoop body greedy min max fuel i s k).
Proof.
  intros Hbody. revert i. induction fuel as [|fuel IH]; intros i s k x; simpl; [done|].
  destruct (atMax max i).
  { intros Hk. exists s. split; [apply extends_refl|done]. }
  assert (forall y,
    body s (fun s' =>
      if (Nat.leb min i && Nat.eqb (pos s') (pos s))%bool then None
      else repLoop body greedy min max fuel (S i) s' k) = Some y ->
    exists s', extends s s' /\ k s' = Some y) as Hiter.
  { intros y Hy. apply Hbody in Hy as (s1 & He1 & Hy).
    destruct (_ && _)%bool; [done|].
    apply IH in Hy as (s2 & He2 & Hy). exists s2. split; [|done].
    by eapply extends_trans. }
  assert (forall y, k s = Some y -> exists s', extends s s' /\ k s' = Some y) as Hself.
  { intros y Hy. exists s. split; [apply extends_refl|done]. }
  destruct (Nat.ltb i min); [apply Hiter|].
  destruct greedy.
  - destruct (body s _) as [y|] eqn:Hy; [|apply Hself].
    intros [= <-]. by apply Hiter.
  - destruct (k s) as [y|] eqn:Hy; [|apply Hiter].
    intros [= <-]. by apply Hself.
Qed.

Lemma m_sound r : sound (A := A) (m icase r).
Proof.
  induction r as [|c|cl|r1 IH1 r2 IH2|r1 IH1 r2 IH2|greedy min max r IH|i r IH|];
    intros s k x; cbn [m].
  - intros Hk. exists s. split; [apply extends_refl|done].
  - apply stepChar_sound.
  - apply stepChar_sound.
  - intros H. apply IH1 in H as (s1 & He1 & H). apply IH2 in H as (s2 & He2 & H).
    exists s2. split; [by eapply extends_trans|done].
  - destruct (m icase r1 s k) as [y|] eqn:Hy.
    + intros [= <-]. by apply IH1.
    + apply IH2.
  - apply repLoop_sound. intros s0 k0 y Hy.
    apply IH in Hy as (s1 & He & Hy). exists s1. split; [|done].
    by eapply extends_clearCaps_l.
  - intros H. apply IH in H as (s1 & He & H).
    eexists. split; [|exact H]. by apply extends_setCap_r.
  - destruct (atBoundary s); [|done].
    intros Hk. exists s. split; [apply extends_refl|done].
Qed.

End Sound.

Lemma matchAt_after icase r p input i res :
  matchAt icase r p input i = Some res ->
  extends (St p input i (replicate (ngroups r) None)) (after res).
Proof.
  unfold matchAt. intros H. apply m_sound in H as (s' & He & [= <-]). done.
Qed.

Lemma search_sound icase r text consumed p input i res :
  standsAt text consumed p input i ->
  search icase r p input i = Some res -> matchIn icase r text res.
Proof.
  revert consumed p i. induction input as [|c input IH]; intros consumed p i (Ht & Hi & Hp);
    simpl; destruct (matchAt icase r p _ i) as [res'|] eqn:Hm.
  - intros [= <-]. exists consumed, []. by subst.
  - done.
  - intros [= <-]. exists consumed, (c :: input). by subst.
  - apply (IH (consumed ++ [c])). unfold standsAt.
    rewrite <- app_assoc, length_app, last_snoc. simpl. split; [done|]. split; [lia|done].
Qed.

Lemma allFrom_sound icase r text fuel consumed p input i :
  standsAt text consumed p input i ->
  Forall (matchIn icase r text) (allFrom icase r fuel p input i).
Proof.
  revert consumed p input i.
  induction fuel as [|fuel IH]; intros consumed p input i Hst; simpl; [constructor|].
  destruct (search icase r p input i) as [res|] eqn:Hs; [|constructor].
  pose proof (search_sound _ _ _ _ _ _ _ _ Hst Hs) as Hin.
  constructor; [done|].
  destruct Hin as (consumed' & input' & Ht & Hm).
  apply matchAt_after in Hm as (w & Hr & Hp & Hv). simpl in Hr, Hp, Hv.
  assert (standsAt text (consumed' ++ w) (prev (after res)) (rest (after res))
            (pos (after res))) as Hst'.
  { unfold standsAt. rewrite <- app_assoc, <- Hr, length_app, last_app, Hv.
    split; [done|]. split; [lia|]. by destruct (last w). }
  destruct (Nat.eqb (pos (after res)) (index res)).
  - destruct (rest (after res)) as [|c t] eqn:Hrest; [constructor|].
    apply (IH ((consumed' ++ w) ++ [c])). destruct Hst' as (Ht' & Hi' & _).
    unfold standsAt. rewrite <- app_assoc, length_app, last_snoc. simpl.
    split; [done|]. split; [lia|done].
  - by apply (IH (consumed' ++ w)).
Qed.

(** Every element of [s.match(re)] is a match of [re] somewhere in [s]. *)
Lemma matchAll_sound icase r text :
  Forall (matchIn icase r text) (matchAll icase r text).
Proof. apply (allFrom_sound icase r text _ []). by unfold standsAt. Qed.

End MatcherFacts.

(** ** Repetition of a character class *)
Section ClassRepetition.
Import Regex.

Lemma run_le p l : (run p l <= length l)%nat.
Proof. induction l as [|c t IH]; simpl; [lia|]. destruct (p c); simpl; lia. Qed.

Lemma run_Forall p l j : (j <= run p l)%nat -> Forall (fun c => p c = true) (take j l).
Proof.
  revert j. induction l as [|c t IH]; intros j Hj; simpl in *.
  - by rewrite take_nil.
  - destruct j as [|j]; [constructor|]. destruct (p c) eqn:Hc; [|lia].
    simpl. constructor; [done|]. apply IH. lia.
Qed.

Lemma run_app_all p a b :
  Forall (fun c => p c = true) a -> run p (a ++ b) = (length a + run p b)%nat.
Proof. induction 1 as [|c a Hc _ IH]; simpl; [done|]. by rewrite Hc, IH. Qed.

Lemma run_stop p c t : p c = false -> run p (c :: t) = O.
Proof. intros Hc. simpl. by rewrite Hc. Qed.

Lemma run_exact (p : ascii -> bool) X Y :
  Forall (fun c => p c = true) X ->
  (forall c, head Y = Some c -> p c = false) ->
  run p (X ++ Y) = length X.
Proof.
  intros HX HY. rewrite run_app_all by done.
  destruct Y as [|c Y]; simpl; [lia|]. rewrite (HY c eq_refl). lia.
Qed.

Lemma adv_fields n s :
  (n <= length (rest s))%nat ->
  rest (adv n s) = drop n (rest s)
  /\ pos (adv n s) = (pos s + n)%nat
  /\ caps (adv n s) = caps s
  /\ prev (adv n s) = match last (take n (rest s)) with Some c => Some c | None => prev s end.
Proof.
  revert s. induction n as [|n IH]; intros s Hn; simpl.
  - by rewrite Nat.add_0_r.
  - destruct (rest s) as [|c t] eqn:Hr; simpl in Hn; [lia|].
    destruct (IH (St (Some c) t (S (pos s)) (caps s))) as (H1 & H2 & H3 & H4); [simpl; lia|].
    simpl in *. rewrite H1, H2, H3, H4. split; [done|]. split; [lia|]. split; [done|].
    rewrite last_cons. by destruct (last (take n t)).
Qed.

Lemma adv_add a b s : adv (a + b) s = adv b (adv a s).
Proof.
  revert s. induction a as [|a IH]; intros s; simpl; [done|].
  destruct (rest s) as [|c t] eqn:Hr; [|apply IH].
  destruct b as [|b]; simpl; [done|]. by rewrite Hr.
Qed.

Lemma adv_S n s c t :
  rest s = c :: t -> adv (S n) s = adv n (St (Some c) t (S (pos s)) (caps s)).
Proof. intros Hr. simpl. by rewrite Hr. Qed.

Section Loop.
Context {A : Type} (p : ascii -> bool) (min : nat).

Local Abbreviation loop greedy := (repLoop (A := A) (stepChar p) greedy min None).

Lemma stepChar_ok s c t (k : st -> option A) :
  rest s = c :: t -> p c = true ->
  stepChar p s k = k (St (Some c) t (S (pos s)) (caps s)).
Proof. intros Hr Hc. unfold stepChar. by rewrite Hr, Hc. Qed.

Lemma stepChar_stop s (k : st -> option A) :
  run p (rest s) = O -> stepChar p s k = None.
Proof.
  unfold stepChar. destruct (rest s) as [|c t]; [done|]. simpl.
  by destruct (p c).
Qed.

(** One turn of the loop when the next character is in the class. *)
Lemma loop_unfold_in greedy fuel i s k c t :
  rest s = c :: t -> p c = true ->
  loop greedy (S fuel) i s k =
    let iter := loop greedy fuel (S i) (St (Some c) t (S (pos s)) (caps s)) k in
    if Nat.ltb i min then iter
    else if greedy then match iter with Some x => Some x | None => k s end
    else match k s with Some x => Some x | None => iter end.
Proof.
  intros Hr Hc. cbn [repLoop atMax]. rewrite (stepChar_ok _ _ _ _ Hr Hc). cbn [pos].
  replace (Nat.eqb (S (pos s)) (pos s)) with false
    by (symmetry; apply Nat.eqb_neq; lia).
  by rewrite andb_false_r.
Qed.

(** One turn of the loop when it is not. *)
Lemma loop_unfold_out greedy fuel i s k :
  run p (rest s) = O ->
  loop greedy (S fuel) i s k = if Nat.ltb i min then None else k s.
Proof.
  intros Hr. cbn [repLoop atMax]. rewrite (stepChar_stop _ _ Hr).
  destruct (Nat.ltb i min); [done|]. destruct greedy; [done|]. by destruct (k s).
Qed.

(** Whatever the loop returns, its continuation returned it after some
    [j] characters of the class, with the minimum reached. *)
Lemma loop_sound greedy fuel i s k x :
  loop greedy fuel i s k = Some x ->
  exists j, (min <= i + j)%nat /\ (j <= run p (rest s))%nat /\ k (adv j s) = Some x.
Proof.
  revert i s x. induction fuel as [|fuel IH]; intros i s x; [done|].
  destruct (run p (rest s)) as [|n] eqn:Hrun.
  { rewrite loop_unfold_out by done.
    destruct (Nat.ltb i min) eqn:Hi; [done|]. apply Nat.ltb_ge in Hi.
    intros Hk. exists O. simpl. split; [lia|]. split; [lia|done]. }
  destruct (rest s) as [|c t] eqn:Hr; [done|].
  simpl in Hrun. destruct (p c) eqn:Hc; [|done].
  rewrite (loop_unfold_in _ _ _ _ _ _ _ Hr Hc). cbv zeta.
  assert (forall y, loop greedy fuel (S i) (St (Some c) t (S (pos s)) (caps s)) k = Some y ->
    exists j, (min <= i + j)%nat /\ (j <= S n)%nat /\ k (adv j s) = Some y) as Hiter.
  { intros y Hy. apply IH in Hy as (j & Hmin & Hj & Hk). exists (S j).
    rewrite (adv_S _ _ _ _ Hr). simpl in *. split; [lia|]. split; [lia|done]. }
  destruct (Nat.ltb i min) eqn:Hi; [apply Hiter|]. apply Nat.ltb_ge in Hi.
  destruct greedy.
  - destruct (repLoop _ _ _ _ _ _ _ _) as [y|] eqn:Hy.
    + intros [= <-]. by apply Hiter.
    + intros Hk. exists O. simpl. split; [lia|]. split; [lia|done].
  - destruct (k s) as [y|] eqn:Hy; [|apply Hiter].
    intros [= <-]. exists O. simpl. split; [lia|]. split; [lia|done].
Qed.

(** No candidate accepted: the loop fails. *)
Lemma loop_none greedy fuel i s k :
  (forall j, (min <= i + j)%nat -> (j <= run p (rest s))%nat -> k (adv j s) = None) ->
  loop greedy fuel i s k = None.
Proof.
  intros Hnone. destruct (loop greedy fuel i s k) as [x|] eqn:Hx; [|done].
  apply loop_sound in Hx as (j & Hmin & Hj & Hk). by rewrite Hnone in Hk.
Qed.

(** A greedy loop whose continuation accepts the whole run returns that. *)
Lemma loop_greedy_all fuel i s k x :
  (length (rest s) < fuel)%nat ->
  (min <= i + run p (rest s))%nat ->
  k (adv (run p (rest s)) s) = Some x ->
  loop true fuel i s k = Some x.
Proof.
  revert i s. induction fuel as [|fuel IH]; intros i s Hfuel Hmin Hk; [lia|].
  destruct (run p (rest s)) as [|n] eqn:Hrun.
  { rewrite loop_unfold_out by done.
    replace (Nat.ltb i min) with false by (symmetry; apply Nat.ltb_ge; lia). done. }
  destruct (rest s) as [|c t] eqn:Hr; [done|].
  simpl in Hrun. destruct (p c) eqn:Hc; [|done].
  rewrite (loop_unfold_in _ _ _ _ _ _ _ Hr Hc). cbv zeta.
  rewrite (adv_S _ _ _ _ Hr) in Hk. injection Hrun as Hrun. subst n.
  rewrite (IH (S i) (St (Some c) t (S (pos s)) (caps s))); [|simpl in *; lia..|done].
  by destruct (Nat.ltb i min).
Qed.

(** A lazy loop returns what its continuation accepts first. *)
Lemma loop_lazy_first fuel i s k j0 x :
  (length (rest s) < fuel)%nat ->
  (j0 <= run p (rest s))%nat ->
  (min <= i + j0)%nat ->
  (forall j, (j < j0)%nat -> (min <= i + j)%nat -> k (adv j s) = None) ->
  k (adv j0 s) = Some x ->
  loop false fuel i s k = Some x.
Proof.
  revert i s j0. induction fuel as [|fuel IH]; intros i s j0 Hfuel Hj0 Hmin Hbefore Hk; [lia|].
  destruct j0 as [|j0].
  { simpl in Hk.
    assert (Nat.ltb i min = false) as Hi by (apply Nat.ltb_ge; lia).
    destruct (rest s) as [|c t] eqn:Hr.
    { rewrite loop_unfold_out by (by rewrite Hr). by rewrite Hi. }
    destruct (p c) eqn:Hc.
    - rewrite (loop_unfold_in _ _ _ _ _ _ _ Hr Hc). cbv zeta. by rewrite Hi, Hk.
    - rewrite loop_unfold_out by (rewrite Hr; by apply run_stop). by rewrite Hi. }
  destruct (rest s) as [|c t] eqn:Hr; [simpl in Hj0; lia|].
  simpl in Hj0. destruct (p c) eqn:Hc; [|lia].
  rewrite (loop_unfold_in _ _ _ _ _ _ _ Hr Hc). cbv zeta.
  rewrite (adv_S _ _ _ _ Hr) in Hk.
  assert (loop false fuel (S i) (St (Some c) t (S (pos s)) (caps s)) k = Some x) as ->.
  { apply (IH _ _ j0); simpl in *; [lia|lia|lia| |done].
    intros j Hj Hm. rewrite <- (adv_S _ _ _ _ Hr). apply Hbefore; lia. }
  destruct (Nat.ltb i min) eqn:Hi; [done|]. apply Nat.ltb_ge in Hi.
  pose proof (Hbefore O ltac:(lia) ltac:(lia)) as H0. simpl in H0. by rewrite H0.
Qed.

End Loop.

End ClassRepetition.

(** ** The fuel of the matcher is always enough *)
Section FuelFacts.
Import Regex.

Lemma extends_length s s' : extends s s' -> (length (rest s') <= length (rest s))%nat.
Proof. intros (w & -> & _). rewrite length_app. lia. Qed.

Lemma extends_moved s s' :
  extends s s' -> pos s' <> pos s -> (length (rest s') < length (rest s))%nat.
Proof. intros (w & -> & Hp & _) Hne. rewrite length_app. destruct w; simpl in *; lia. Qed.

Section Bodies.
Context {A : Type} (icase : bool).

Lemma stepChar_respectful p : respectful (A := A) (stepChar p).
Proof.
  intros s k1 k2 Hk. unfold stepChar.
  destruct (rest s) as [|c t] eqn:Hr; [done|]. destruct (p c); [|done].
  apply Hk. by apply extends_step.
Qed.

Lemma repLoop_S body greedy min max fuel i s (k : st -> option A) :
  repLoop body greedy min max (S fuel) i s k
  = if atMax max i then k s
    else
      let iter :=
        body s (fun s' =>
          if (Nat.leb min i && Nat.eqb (pos s') (pos s))%bool then None
          else repLoop body greedy min max fuel (S i) s' k) in
      if Nat.ltb i min then iter
      else if greedy then match iter with Some x => Some x | None => k s end
      else match k s with Some x => Some x | None => iter end.
Proof. reflexivity. Qed.

Lemma repLoop_respectful body greedy min max fuel i :
  respectful (A := A) body ->
  respectful (fun s k => repLoop body greedy min max fuel i s k).
Proof.
  intros Hbody. revert i. induction fuel as [|fuel IH]; intros i s k1 k2 Hk; [done|].
  rewrite !repLoop_S. cbv zeta. rewrite (Hk s (extends_refl s)).
  assert (body s (fun s' =>
            if (Nat.leb min i && Nat.eqb (pos s') (pos s))%bool then None
            else repLoop body greedy min max fuel (S i) s' k1)
          = body s (fun s' =>
            if (Nat.leb min i && Nat.eqb (pos s') (pos s))%bool then None
            else repLoop body greedy min max fuel (S i) s' k2)) as ->; [|done].
  apply Hbody. intros s' He. destruct (_ && _)%bool; [done|].
  apply IH. intros s'' He'. apply Hk. by eapply extends_trans.
Qed.

Lemma m_respectful r : respectful (A := A) (m icase r).
Proof.
  induction r as [|c|cl|r1 IH1 r2 IH2|r1 IH1 r2 IH2|greedy min max r IH|i r IH|];
    intros s k1 k2 Hk; cbn [m].
  - apply Hk, extends_refl.
  - by apply stepChar_respectful.
  - by apply stepChar_respectful.
  - apply IH1. intros s1 He1. apply IH2. intros s2 He2. apply Hk. by eapply extends_trans.
  - by rewrite (IH1 s k1 k2 Hk), (IH2 s k1 k2 Hk).
  - apply repLoop_respectful; [|done]. intros s0 k0 k0' Hk0. apply IH.
    intros s' He. apply Hk0. by eapply extends_clearCaps_l.
  - apply IH. intros s' He. apply Hk. by apply extends_setCap_r.
  - destruct (atBoundary s); [|done]. apply Hk, extends_refl.
Qed.

(** One more unit of fuel changes nothing once the fuel exceeds the
    iterations still owed plus the input left. *)
Lemma repLoop_fuel body greedy min max fuel i s (k : st -> option A) :
  respectful body ->
  (min - i + length (rest s) < fuel)%nat ->
  repLoop body greedy min max (S fuel) i s k = repLoop body greedy min max fuel i s k.
Proof.
  intros Hresp. revert i s.
  induction fuel as [|fuel IH]; intros i s Hfuel; [lia|].
  rewrite (repLoop_S _ _ _ _ (S fuel)), (repLoop_S _ _ _ _ fuel). cbv zeta.
  assert (body s (fun s' =>
            if (Nat.leb min i && Nat.eqb (pos s') (pos s))%bool then None
            else repLoop body greedy min max (S fuel) (S i) s' k)
          = body s (fun s' =>
            if (Nat.leb min i && Nat.eqb (pos s') (pos s))%bool then None
            else repLoop body greedy min max fuel (S i) s' k)) as ->; [|done].
  apply Hresp. intros s' He.
  destruct (Nat.leb min i && Nat.eqb (pos s') (pos s))%bool eqn:Hcheck; [done|].
  apply IH. apply andb_false_iff in Hcheck as [Hmin|Hpos].
  - apply Nat.leb_gt in Hmin. pose proof (extends_length _ _ He). lia.
  - apply Nat.eqb_neq in Hpos. pose proof (extends_moved _ _ He Hpos). lia.
Qed.

(** The fuel that [m] gives to a repetition can be raised at will. *)
Lemma rep_fuel_enough greedy min max r s (k : st -> option A) extra :
  repLoop (fun s0 k0 => m icase r (clearCaps (groups r) s0) k0) greedy min max
    (min + length (rest s) + 1 + extra) 0 s k
  = m icase (Rep greedy min max r) s k.
Proof.
  cbn [m]. induction extra as [|extra IH]; [by rewrite Nat.add_0_r|].
  rewrite Nat.add_succ_r, repLoop_fuel; [done| |lia].
  intros s0 k1 k2 Hk. apply m_respectful. intros s' He. apply Hk.
  by eapply extends_clearCaps_l.
Qed.

End Bodies.

Lemma search_found icase r p input i res :
  search icase r p input i = Some res ->
  exists j p', (j <= length input)%nat
               /\ matchAt icase r p' (drop j input) (i + j) = Some res.
Proof.
  revert p i. induction input as [|c input IH]; intros p i; simpl;
    destruct (matchAt icase r p _ i) as [res'|] eqn:Hm.
  - intros [= <-]. exists 0%nat, p. by rewrite Nat.add_0_r.
  - done.
  - intros [= <-]. exists 0%nat, p. split; [lia|]. by rewrite Nat.add_0_r.
  - intros Hs. apply IH in Hs as (j & p' & Hj & Hs). exists (S j), p'.
    split; [lia|]. by rewrite Nat.add_succ_r.
Qed.

(** The list of all matches is complete: more fuel finds no more. *)
Lemma allFrom_fuel icase r fuel p input i :
  (length input < fuel)%nat ->
  allFrom icase r (S fuel) p input i = allFrom icase r fuel p input i.
Proof.
  revert p input i. induction fuel as [|fuel IH]; intros p input i Hfuel; [lia|].
  change (allFrom icase r (S (S fuel)) p input i)
    with (match search icase r p input i with
          | None => []
          | Some res =>
              res :: (if Nat.eqb (pos (after res)) (index res) then
                        match rest (after res) with
                        | [] => []
                        | c :: t => allFrom icase r (S fuel) (Some c) t (S (pos (after res)))
                        end
                      else allFrom icase r (S fuel) (prev (after res)) (rest (after res))
                             (pos (after res)))
          end).
  change (allFrom icase r (S fuel) p input i)
    with (match search icase r p input i with
          | None => []
          | Some res =>
              res :: (if Nat.eqb (pos (after res)) (index res) then
                        match rest (after res) with
                        | [] => []
                        | c :: t => allFrom icase r fuel (Some c) t (S (pos (after res)))
                        end
                      else allFrom icase r fuel (prev (after res)) (rest (after res))
                             (pos (after res)))
          end).
  destruct (search icase r p input i) as [res|] eqn:Hs; [|done]. f_equal.
  apply search_found in Hs as (j & p' & Hj & Hm).
  assert (index res = (i + j)%nat) as Hidx.
  { unfold matchAt in Hm. apply m_sound in Hm as (s' & _ & [= <-]). done. }
  apply matchAt_after in Hm as He.
  pose proof (extends_length _ _ He) as Hlen. cbn [rest] in Hlen.
  rewrite length_drop in Hlen.
  destruct (Nat.eqb (pos (after res)) (index res)) eqn:Hpos.
  - destruct (rest (after res)) as [|c t] eqn:Hr; [done|].
    apply IH. simpl in Hlen. lia.
  - apply IH. apply Nat.eqb_neq in Hpos. rewrite Hidx in Hpos.
    pose proof (extends_moved _ _ He) as Hmv. cbn [rest pos] in Hmv.
    rewrite length_drop in Hmv. specialize (Hmv Hpos). lia.
Qed.

(** [matchAll] returns the matches that any larger fuel returns. *)
Lemma matchAll_fuel icase r input extra :
  allFrom icase r (S (length input) + extra) None input 0 = matchAll icase r input.
Proof.
  unfold matchAll. induction extra as [|extra IH]; [by rewrite Nat.add_0_r|].
  rewrite Nat.add_succ_r, allFrom_fuel; [done|lia].
Qed.

End FuelFacts.

(** ** Keyword extraction *)
Section KeywordFacts.
Import Regex Assembler.

Lemma lowerChar_not_upper c : isUpper (lowerChar c) = false.
Proof. destruct c as [[] [] [] [] [] [] [] []]; reflexivity. Qed.

Lemma uniq_go_elem seen l x : x ∈ uniq_go seen l <-> x ∈ l /\ x ∉ seen.
Proof.
  revert seen. induction l as [|y l IH]; intros seen; simpl.
  - split; [by intros ?%elem_of_nil|by intros [?%elem_of_nil _]].
  - case_bool_decide as Hy.
    + rewrite IH, elem_of_cons. split; [naive_solver|].
      intros [[->|Hx] Hn]; [done|by split].
    + rewrite !elem_of_cons, IH, elem_of_cons. split.
      * intros [->|[Hx Hn]]; [by split; [left|]|]. split; [by right|]. naive_solver.
      * intros [[->|Hx] Hn]; [by left|].
        destruct (decide (x = y)) as [->|Hne]; [by left|]. right. naive_solver.
Qed.

Lemma uniq_go_NoDup seen l : NoDup (uniq_go seen l).
Proof.
  revert seen. induction l as [|y l IH]; intros seen; simpl; [constructor|].
  case_bool_decide as Hy; [apply IH|].
  constructor; [|apply IH]. rewrite uniq_go_elem, elem_of_cons. naive_solver.
Qed.

Lemma uniq_NoDup l : NoDup (uniq l).
Proof. apply uniq_go_NoDup. Qed.

Lemma uniq_elem l x : x ∈ uniq l <-> x ∈ l.
Proof.
  unfold uniq. rewrite uniq_go_elem. split; [by intros [? _]|].
  intros Hx. split; [done|]. by intros ?%elem_of_nil.
Qed.

(** A match of [/\b\w{3,}\b/] is a run of at least three word characters
    between two word boundaries. *)
Lemma wordPattern_match text res :
  matchIn false wordPattern text res ->
  (3 <= length (matched res))%nat
  /\ Forall (fun c => isWord c = true) (matched res)
  /\ delimited text (matched res).
Proof.
  intros (consumed & input & Ht & Hm).
  unfold matchAt in Hm.
  set (s0 := St (last consumed) input (length consumed) (replicate (ngroups wordPattern) None)) in *.
  unfold wordPattern in Hm at 1. cbn [seqs foldr atLeast m] in Hm.
  destruct (atBoundary s0) eqn:Hb1; [|done].
  change (repLoop _ true 3 None ?f 0 ?s ?k) with (repLoop (stepChar isWord) true 3 None f 0 s k) in Hm.
  apply loop_sound in Hm as (j & Hmin & Hj & Hm).
  destruct (atBoundary (adv j s0)) eqn:Hb2; [|done].
  injection Hm as <-. cbn [matched].
  pose proof (run_le isWord input) as Hle. change (rest s0) with input in Hj.
  destruct (adv_fields j s0 ltac:(simpl; lia)) as (Hrest & Hpos & _ & Hprev).
  cbn [rest pos prev s0] in Hrest, Hpos, Hprev.
  rewrite Hpos. replace (length consumed + j - length consumed)%nat with j by lia.
  pose proof (run_Forall isWord input j Hj) as Hall.
  assert (length (take j input) = j) as Hlen by (rewrite length_take; lia).
  split; [lia|]. split; [done|].
  exists consumed, (drop j input). rewrite take_drop. split; [done|].
  (* the first and the last character of the match are word characters *)
  destruct (take j input) as [|c w] eqn:Htake; [simpl in Hlen; lia|].
  assert (head input = Some c) as Hhead.
  { destruct input as [|c' input']; [by rewrite take_nil in Htake|].
    destruct j; [done|]. simpl in Htake. by injection Htake as -> _. }
  unfold atBoundary in Hb1, Hb2. cbn [prev rest s0] in Hb1.
  rewrite Hhead in Hb1. simpl in Hb1.
  rewrite (Forall_inv Hall) in Hb1.
  rewrite Hrest, Hprev in Hb2.
  assert (exists c', last (c :: w) = Some c' /\ isWord c' = true) as (c' & Hlast & Hc').
  { destruct (last (c :: w)) as [c'|] eqn:Hl; [|by apply last_None in Hl].
    exists c'. split; [done|]. apply last_Some_elem_of in Hl.
    rewrite Forall_forall in Hall. by apply Hall. }
  rewrite Hlast in Hb2. simpl in Hb2. rewrite Hc' in Hb2.
  split.
  - by destruct (optWord (last consumed)).
  - by destruct (optWord (head (drop j input))).
Qed.

End KeywordFacts.

(** ** The prompt budget *)
Section BudgetFacts.
Import Assembler.

Lemma strlen_app a b : strlen (a ++ b) = strlen a + strlen b.
Proof. unfold strlen. rewrite length_app. lia. Qed.

Lemma strlen_nonneg a : 0 <= strlen a.
Proof. unfold strlen. lia. Qed.

Lemma strlen_nil_inv a : strlen a <= 0 -> a = [].
Proof. unfold strlen. destruct a; simpl; [done|lia]. Qed.

Lemma truthy_strlen a : truthy a = false -> strlen a = 0.
Proof. by destruct a. Qed.

(** The file loop never writes more than what remains. *)
Lemma addFiles_bound (h : Host) topFiles context remainingLength :
  0 <= remainingLength ->
  strlen (addFiles h topFiles context remainingLength) <= strlen context + remainingLength.
Proof.
  revert context remainingLength.
  induction topFiles as [|fileInfo more IH]; intros context remaining Hrem; simpl; [lia|].
  destruct (remaining <? 200); [lia|].
  destruct (openTextDocument h fileInfo.1) as [content|]; [|by apply IH].
  match goal with |- context [strlen ?fs <=? remaining] => set (fileSection := fs) end.
  destruct (strlen fileSection <=? remaining) eqn:Hfit; [|by apply IH].
  apply Z.leb_le in Hfit.
  etransitivity; [apply IH; lia|]. rewrite strlen_app. lia.
Qed.

Lemma codebase_bound (h : Host) userMsg maxLength :
  strlen (_getRelevantCodebaseContext h userMsg maxLength) <= Z.max 0 maxLength.
Proof.
  unfold _getRelevantCodebaseContext.
  destruct (negb (workspaceFolders h) || (maxLength <? 100))%bool eqn:Hguard.
  { change (strlen []) with 0. lia. }
  apply orb_false_iff in Hguard as [_ Hmax]. apply Z.ltb_ge in Hmax.
  destruct (findFiles h _ _ _) as [files|]; [|change (strlen []) with 0; lia].
  set (topFiles := match take 5 _ with [] => _ | _ => _ end).
  change (strlen (lit "CODEBASE CONTEXT:
")) with 18.
  pose proof (addFiles_bound h topFiles (lit "CODEBASE CONTEXT:
") (maxLength - 18) ltac:(lia)) as Hb.
  change (strlen (lit "CODEBASE CONTEXT:
")) with 18 in Hb.
  destruct (50 <? _); [lia|change (strlen []) with 0; lia].
Qed.

Lemma addLine_bound maxLength result line :
  strlen result <= Z.max 0 maxLength ->
  strlen (addLine maxLength result line) <= Z.max 0 maxLength.
Proof.
  intros Hres. unfold addLine.
  destruct (_ <=? maxLength) eqn:Hfit; [|done]. apply Z.leb_le in Hfit.
  rewrite !strlen_app. destruct result; simpl truthy; cbv iota.
  - change (strlen []) with 0 in *. lia.
  - change (strlen [nl]) with 1. lia.
Qed.

Lemma relevantContext_bound history currentMsg maxLength :
  strlen (_getRelevantContext history currentMsg maxLength) <= Z.max 0 maxLength.
Proof.
  unfold _getRelevantContext.
  destruct history as [|t history]; [change (strlen []) with 0; lia|].
  destruct (_ <=? maxLength) eqn:Hfit; [apply Z.leb_le in Hfit; lia|].
  generalize (sortWith
    (fun a b : str * Q => negb (Qle_bool (snd b - snd a) 0))
    (imap (fun index line =>
             (line, _scoreLineRelevance line (_extractKeywords currentMsg) index
                      (length (split nl (join [nl] (t :: history)))))) 
          (split nl (join [nl] (t :: history))))).
  intros sorted.
  assert (strlen [] <= Z.max 0 maxLength) as Hinit by (change (strlen []) with 0; lia).
  revert Hinit. generalize (@nil ascii).
  induction sorted as [|item sorted IH]; intros result Hres; simpl; [done|].
  apply IH. by apply addLine_bound.
Qed.

Lemma floor06_le n : 0 <= n -> floor06 n <= n.
Proof. intros Hn. unfold floor06. apply Z.div_le_upper_bound; lia. Qed.

Lemma floor06_neg n : n < 0 -> floor06 n < 0.
Proof. intros Hn. unfold floor06. apply Z.div_lt_upper_bound; lia. Qed.

Lemma sections_bound (h : Host) chatHistory userMsg :
  let s := buildSections h chatHistory userMsg in
  strlen (codebaseSection s) + strlen (currentFileSection s) + strlen (historySection s)
  <= Z.max 0 (budget userMsg).
Proof.
  unfold buildSections. cbv zeta. cbn [codebaseSection currentFileSection historySection].
  fold (budget userMsg). set (R0 := budget userMsg).
  set (cb := _getRelevantCodebaseContext h userMsg (floor06 R0)).
  pose proof (codebase_bound h userMsg (floor06 R0)) as Hcb. fold cb in Hcb.
  pose proof (strlen_nonneg cb) as Hcb0.
  set (R1 := if truthy cb then R0 - strlen cb else R0).
  assert (R1 = R0 - strlen cb) as HR1.
  { subst R1. destruct (truthy cb) eqn:Ht; [done|]. apply truthy_strlen in Ht. lia. }
  set (cf := _getCurrentFileContext h).
  pose proof (strlen_nonneg cf) as Hcf0.
  set (use := (truthy cf && (strlen cf + 100 <? R1))%bool).
  set (R2 := if use then R1 - strlen cf else R1).
  pose proof (relevantContext_bound chatHistory userMsg R2) as Hh.
  pose proof (strlen_nonneg (_getRelevantContext chatHistory userMsg R2)) as Hh0.
  destruct (Z.lt_ge_cases R0 0) as [Hneg|Hpos].
  - pose proof (floor06_neg R0 Hneg). 
    assert (use = false) as Huse.
    { subst use. destruct (truthy cf); [|done]. simpl. apply Z.ltb_ge. lia. }
    subst R2. rewrite Huse in *. change (strlen []) with 0. lia.
  - pose proof (floor06_le R0 Hpos).
    subst R2. destruct use eqn:Huse.
    + subst use. apply andb_true_iff in Huse as [_ Hlt]. apply Z.ltb_lt in Hlt. lia.
    + change (strlen []) with 0. lia.
Qed.

Lemma withBlank_strlen section : strlen (withBlank section) <= strlen section + 2.
Proof.
  unfold withBlank. destruct section; simpl truthy; cbv iota.
  - change (strlen []) with 0. lia.
  - rewrite strlen_app. change (strlen (lit "

")) with 2. lia.
Qed.

Lemma prompt_strlen (h : Host) chatHistory userMsg :
  let s := buildSections h chatHistory userMsg in
  strlen (_buildChatPrompt h chatHistory userMsg)
  = strlen systemPrompt + 2 + strlen (withBlank (codebaseSection s))
    + strlen (withBlank (currentFileSection s)) + strlen (historySection s)
    + 13 + strlen userMsg.
Proof.
  cbv zeta. unfold _buildChatPrompt. rewrite !strlen_app.
  change (strlen (lit "

")) with 2. change (strlen (lit "
User: ")) with 7. change (strlen (lit "
AICA:")) with 6. lia.
Qed.

End BudgetFacts.

(** C2, as stated, fails: a user message of 11989 characters alone makes
    the prompt longer than the window, the preamble and the marker together
    (no workspace, no editor, no history); the message is never cut. *)
Lemma long_message_exceeds_window :
  let userMsg := replicate (Z.to_nat 11989) "a"%char in
  Assembler.strlen userMsg = 11989
  /\ Assembler.strlen (Assembler._buildChatPrompt bareHost [] userMsg) = 12887
  /\ ~ (Assembler.strlen (Assembler._buildChatPrompt bareHost [] userMsg)
        <= Assembler.window + Assembler.strlen Assembler.systemPrompt
           + Assembler.strlen truncationMarker).
Proof.
  cbv zeta.
  assert (Assembler.strlen (Assembler._buildChatPrompt bareHost []
                            (replicate (Z.to_nat 11989) "a"%char))
          = 12887) as -> by (vm_compute; reflexivity).
  split; [vm_compute; reflexivity|]. split; [done|]. vm_compute. intros H. by apply H.
Qed.

(** C2, amended. For every host, history and user message, the three
    budgeted sections (codebase context, current file, history) together
    never exceed what the window leaves after the preamble, the user message
    and the 100 reserved characters, and are all empty when nothing is
    left; and for every user message of at most 11988 characters the whole
    prompt has at most 12000 characters plus the length of the preamble plus
    the length of the truncation marker (at most 12000 characters as soon
    as the message leaves a budget). *)
Theorem prompt_within_window (h : Host) (chatHistory : list str) (userMsg : str) :
  let s := Assembler.buildSections h chatHistory userMsg in
  Assembler.strlen (Assembler.codebaseSection s) + Assembler.strlen (Assembler.currentFileSection s)
    + Assembler.strlen (Assembler.historySection s)
    <= Z.max 0 (budget userMsg)
  /\ Z.max 0 (budget userMsg) <= Assembler.window
  /\ (Assembler.strlen userMsg <= 11988 ->
      Assembler.strlen (Assembler._buildChatPrompt h chatHistory userMsg)
      <= Assembler.window + Assembler.strlen Assembler.systemPrompt
         + Assembler.strlen truncationMarker)
  /\ (0 <= budget userMsg ->
      Assembler.strlen (Assembler._buildChatPrompt h chatHistory userMsg) <= Assembler.window).
Proof.
  intros s.
  pose proof (sections_bound h chatHistory userMsg) as Hsec. cbv zeta in Hsec. fold s in Hsec.
  pose proof (prompt_strlen h chatHistory userMsg) as Hlen. cbv zeta in Hlen. fold s in Hlen.
  pose proof (withBlank_strlen (Assembler.codebaseSection s)) as Hw1.
  pose proof (withBlank_strlen (Assembler.currentFileSection s)) as Hw2.
  pose proof (strlen_nonneg (Assembler.codebaseSection s)) as H1.
  pose proof (strlen_nonneg (Assembler.currentFileSection s)) as H2.
  pose proof (strlen_nonneg (Assembler.historySection s)) as H3.
  pose proof (strlen_nonneg userMsg) as H4.
  assert (budget userMsg = 11015 - Assembler.strlen userMsg) as Hbud.
  { unfold budget. rewrite strlen_app.
    change (Assembler.strlen Assembler.systemPrompt) with 883.
    change (Assembler.strlen (lit "

")) with 2. unfold Assembler.window. lia. }
  change (Assembler.strlen Assembler.systemPrompt) with 883 in *.
  change (Assembler.strlen truncationMarker) with 3.
  unfold Assembler.window in *.
  split; [done|]. split; [lia|].
  destruct (Z.lt_ge_cases (budget userMsg) 0) as [Hneg|Hpos].
  - assert (Assembler.codebaseSection s = []) as E1 by (apply strlen_nil_inv; lia).
    assert (Assembler.currentFileSection s = []) as E2 by (apply strlen_nil_inv; lia).
    rewrite E1, E2 in Hlen. change (Assembler.strlen (Assembler.withBlank [])) with 0 in Hlen.
    split; lia.
  - split; lia.
Qed.

Lemma prompt_within_window_witness :
  Assembler.strlen (Assembler._buildChatPrompt bareHost
                    [lit "User: hi
AICA: hello"] (lit "fix the bug in parser.ts"))
  <= Assembler.window + Assembler.strlen Assembler.systemPrompt
     + Assembler.strlen truncationMarker.
Proof.
  refine (proj1 (proj2 (proj2 (prompt_within_window bareHost
            [lit "User: hi
AICA: hello"] (lit "fix the bug in parser.ts")))) _).
  vm_compute. discriminate.
Defined.

(** ** The path a match takes through a pattern *)
Section PathFacts.
Import Regex.
Context (icase : bool).

Lemma m_litOf {A} w s (k : st -> option A) :
  m icase (litOf w) s k
  = if prefixMatches icase w (rest s) then k (adv (length w) s) else None.
Proof.
  revert s. induction w as [|c w IH]; intros s; [done|].
  cbn [litOf foldr m prefixMatches length]. fold (litOf w). unfold stepChar.
  destruct (rest s) as [|x t] eqn:Hr; [done|].
  destruct (chrMatches icase c x); [|done].
  cbn [andb]. rewrite IH. cbn [rest]. by rewrite (adv_S _ _ _ _ Hr).
Qed.

Lemma passes_eps s : passes icase Eps s s.
Proof. by intros k x Hk. Qed.

Lemma passes_seq r1 r2 s s1 s2 :
  passes icase r1 s s1 -> passes icase r2 s1 s2 -> passes icase (Seq r1 r2) s s2.
Proof. intros H1 H2 k x Hk. cbn [m]. apply H1. by apply H2. Qed.

Lemma fails_seq r1 r2 s : fails icase r1 s -> fails icase (Seq r1 r2) s.
Proof. intros H1 k. cbn [m]. apply H1. Qed.

Lemma passes_then_fails r1 r2 s s1 :
  (forall k : st -> option result, m icase r1 s k = k s1) -> fails icase r2 s1 ->
  fails icase (Seq r1 r2) s.
Proof. intros H1 H2 k. cbn [m]. rewrite H1. apply H2. Qed.

Lemma passes_lit w s :
  prefixMatches icase w (rest s) = true -> passes icase (litOf w) s (adv (length w) s).
Proof. intros Hw k x Hk. by rewrite m_litOf, Hw. Qed.

Lemma fails_lit w s : prefixMatches icase w (rest s) = false -> fails icase (litOf w) s.
Proof. intros Hw k. by rewrite m_litOf, Hw. Qed.

Lemma passes_group i r s s' :
  passes icase r s s' ->
  passes icase (Group i r) s (setCap i (Some (take (pos s' - pos s) (rest s))) s').
Proof. intros Hr k x Hk. cbn [m]. by apply Hr. Qed.

(** A greedy repetition of a class goes through with the whole run. *)
Lemma passes_greedy cl min s :
  (min <= run (inClass cl) (rest s))%nat ->
  passes icase (Rep true min None (Cls cl)) s (adv (run (inClass cl) (rest s)) s).
Proof.
  intros Hmin k x Hk. cbn [m].
  change (repLoop _ true min None ?f 0 ?s0 ?k0)
    with (repLoop (stepChar (inClass cl)) true min None f 0 s0 k0).
  apply loop_greedy_all; [lia|lia|done].
Qed.

(** A greedy repetition fails when what follows fails after every
    admissible number of characters. *)
Lemma fails_rep_then greedy cl min tail s :
  (forall j, (min <= j)%nat -> (j <= run (inClass cl) (rest s))%nat ->
             fails icase tail (adv j s)) ->
  fails icase (Seq (Rep greedy min None (Cls cl)) tail) s.
Proof.
  intros Hall k. cbn [m].
  change (repLoop _ greedy min None ?f 0 ?s0 ?k0)
    with (repLoop (stepChar (inClass cl)) greedy min None f 0 s0 k0).
  apply loop_none. intros j Hmin Hj. apply Hall; [lia|done].
Qed.

(** A lazy captured repetition followed by [tail] goes through with the
    first length after which [tail] does. *)
Lemma passes_lazy_then i cl min tail s s' j0 :
  (j0 <= run (inClass cl) (rest s))%nat -> (min <= j0)%nat ->
  (forall j, (j < j0)%nat -> (min <= j)%nat ->
             fails icase tail (setCap i (Some (take j (rest s))) (adv j s))) ->
  passes icase tail (setCap i (Some (take j0 (rest s))) (adv j0 s)) s' ->
  passes icase (Seq (Group i (Rep false min None (Cls cl))) tail) s s'.
Proof.
  intros Hj0 Hmin Hbefore Hat k x Hk. cbn [m].
  change (repLoop _ false min None ?f 0 ?s0 ?k0)
    with (repLoop (stepChar (inClass cl)) false min None f 0 s0 k0).
  pose proof (run_le (inClass cl) (rest s)) as Hle.
  assert (forall j, (j <= run (inClass cl) (rest s))%nat ->
                    (pos (adv j s) - pos s)%nat = j) as Hpos.
  { intros j Hj. destruct (adv_fields j s ltac:(lia)) as (_ & -> & _). lia. }
  apply (loop_lazy_first _ _ _ _ _ _ j0); [lia|done|lia| |].
  - intros j Hj Hm. rewrite Hpos by lia. apply Hbefore; [done|lia].
  - rewrite Hpos by lia. by apply Hat.
Qed.

(** An optional captured word: taken when there is one. *)
Lemma passes_opt_group_some i cl s :
  (1 <= run (inClass cl) (rest s))%nat ->
  passes icase (Rep true 0 (Some 1%nat) (Group i (Rep true 1 None (Cls cl)))) s
    (setCap i (Some (take (run (inClass cl) (rest s)) (rest s)))
       (adv (run (inClass cl) (rest s)) (setCap i None s))).
Proof.
  intros Hrun k x Hk. cbn [m groups app].
  pose proof (run_le (inClass cl) (rest s)) as Hle.
  replace (0 + length (rest s) + 1)%nat with (S (length (rest s))) by lia.
  cbn [repLoop atMax Nat.leb Nat.ltb clearCaps foldr].
  change (repLoop _ true 1 None ?f 0 ?s0 ?k0)
    with (repLoop (stepChar (inClass cl)) true 1 None f 0 s0 k0).
  set (s1 := setCap i None s).
  assert (rest s1 = rest s) as Hr1 by done.
  assert (pos s1 = pos s) as Hp1 by done.
  destruct (adv_fields (run (inClass cl) (rest s)) s1 ltac:(rewrite Hr1; lia))
    as (Hrest & Hpos & _).
  erewrite loop_greedy_all; [done|rewrite Hr1; lia|rewrite Hr1; lia|].
  rewrite Hr1, Hp1. cbn [pos setCap]. fold s1. rewrite Hpos, Hp1.
  replace (Nat.eqb (pos s + run (inClass cl) (rest s)) (pos s)) with false
    by (symmetry; apply Nat.eqb_neq; lia).
  cbn [andb].
  destruct (length (rest s)) as [|n] eqn:Hlen; [lia|].
  cbn [repLoop atMax Nat.leb].
  replace (pos s + run (inClass cl) (rest s) - pos s)%nat
    with (run (inClass cl) (rest s)) by lia.
  exact Hk.
Qed.

(** ... and skipped when there is none. *)
Lemma passes_opt_group_none i cl s :
  run (inClass cl) (rest s) = 0%nat ->
  passes icase (Rep true 0 (Some 1%nat) (Group i (Rep true 1 None (Cls cl)))) s s.
Proof.
  intros Hrun k x Hk. cbn [m groups app].
  replace (0 + length (rest s) + 1)%nat with (S (length (rest s))) by lia.
  cbn [repLoop atMax Nat.leb Nat.ltb clearCaps foldr].
  change (repLoop _ true 1 None ?f 0 ?s0 ?k0)
    with (repLoop (stepChar (inClass cl)) true 1 None f 0 s0 k0).
  replace (1 + length (rest (setCap i None s)) + 1)%nat
    with (S (S (length (rest s)))) by (cbn [rest setCap]; lia).
  rewrite loop_unfold_out by done. cbn [Nat.ltb Nat.leb]. exact Hk.
Qed.

End PathFacts.

(** ** Text lemmas for the suggestion pattern *)
Section TextFacts.
Import Regex.

Lemma ascii_eqb_refl a : ascii_eqb a a = true.
Proof. unfold ascii_eqb. by apply bool_decide_eq_true. Qed.

Lemma startsWith_refl_app w l : startsWith w (w ++ l) = true.
Proof. induction w as [|c w IH]; simpl; [done|]. by rewrite ascii_eqb_refl, IH. Qed.

(** Where [w] occurs nowhere in [s], no suffix of [s] starts with it. *)
Lemma includes_false_drop s w q :
  includes s w = false -> startsWith w (drop q s) = false.
Proof.
  revert q. induction s as [|c s IH]; intros q Hinc.
  - rewrite drop_nil. by destruct w.
  - simpl in Hinc. apply orb_false_iff in Hinc as [Hhere Hlater].
    destruct q as [|q]; [done|]. simpl. by apply IH.
Qed.

(** A three-character literal that does not occur in [T] followed by its
    first two characters does not start anywhere inside [T], whatever comes
    after the literal. *)
Lemma no_early3 (a b c : ascii) (T R : str) (q : nat) :
  includes (T ++ [a; b]) [a; b; c] = false ->
  (q < length T)%nat ->
  startsWith [a; b; c] (drop q (T ++ [a; b; c] ++ R)) = false.
Proof.
  revert q. induction T as [|t T IH]; intros q Hinc Hq; [simpl in Hq; lia|].
  cbn [app includes] in Hinc. apply orb_false_iff in Hinc as [Hhere Hlater].
  destruct q as [|q].
  - cbn [drop app]. rewrite <- Hhere.
    destruct T as [|t1 [|t2 T]]; cbn [app startsWith];
      rewrite ?ascii_eqb_refl, ?andb_true_r; reflexivity.
  - cbn [drop app]. apply IH; [done|simpl in Hq; lia].
Qed.

Lemma caseless_backtick : caseless "`"%char.
Proof. intros x. destruct x as [[] [] [] [] [] [] [] []]; reflexivity. Qed.

Lemma caseless_colon : caseless ":"%char.
Proof. intros x. destruct x as [[] [] [] [] [] [] [] []]; reflexivity. Qed.

Lemma caseless_star : caseless "*"%char.
Proof. intros x. destruct x as [[] [] [] [] [] [] [] []]; reflexivity. Qed.

Lemma prefixMatches_caseless w l :
  Forall caseless w -> prefixMatches true w l = startsWith w l.
Proof.
  intros Hw. revert l.
  induction Hw as [|c w Hc _ IH]; intros l; cbn [prefixMatches startsWith]; [done|].
  destruct l as [|x l]; [done|]. by rewrite Hc, IH.
Qed.

(** Case-insensitive prefixes are prefixes after upper-casing. *)
Lemma prefixMatches_upper w l :
  prefixMatches true w l = startsWith (map upperChar w) (map upperChar l).
Proof.
  revert l. induction w as [|c w IH]; intros l; cbn [prefixMatches map startsWith]; [done|].
  destruct l as [|x l]; [done|]. cbn [map startsWith]. by rewrite IH.
Qed.

Lemma startsWith_length w l : startsWith w l = true -> (length w <= length l)%nat.
Proof.
  revert l. induction w as [|c w IH]; intros l; simpl; [lia|].
  destruct l as [|x l]; [done|]. intros [_ H]%andb_true_iff. apply IH in H. simpl. lia.
Qed.

(** Splitting a text around its trimmed middle. *)
Lemma dropWhile_run (p : ascii -> bool) l : dropWhile p l = drop (run p l) l.
Proof. induction l as [|c l IH]; simpl; [done|]. by destruct (p c). Qed.

Lemma run_take_Forall (p : ascii -> bool) l : Forall (fun c => p c = true) (take (run p l) l).
Proof. by apply run_Forall. Qed.

Lemma run_drop_head (p : ascii -> bool) l c :
  head (drop (run p l) l) = Some c -> p c = false.
Proof.
  induction l as [|x l IH]; simpl; [done|].
  destruct (p x) eqn:Hx; simpl; [done|]. by intros [= <-].
Qed.

Lemma trim_split (T : str) :
  exists lead trail,
    T = lead ++ trim T ++ trail
    /\ Forall (fun c => isSpace c = true) lead
    /\ Forall (fun c => isSpace c = true) trail
    /\ (trim T = [] -> trail = [])
    /\ (forall c, head (trim T) = Some c -> isSpace c = false)
    /\ (forall c, last (trim T) = Some c -> isSpace c = false).
Proof.
  unfold trim, trimEnd, trimStart. rewrite (dropWhile_run isSpace T).
  set (mid := drop (run isSpace T) T).
  rewrite (dropWhile_run isSpace (reverse mid)).
  set (n := run isSpace (reverse mid)).
  exists (take (run isSpace T) T), (reverse (take n (reverse mid))).
  assert (mid = reverse (drop n (reverse mid)) ++ reverse (take n (reverse mid))) as Hmid.
  { rewrite <- reverse_app, take_drop. by rewrite reverse_involutive. }
  split; [|split; [|split; [|split; [|split]]]].
  - rewrite <- Hmid. subst mid. by rewrite take_drop.
  - apply run_take_Forall.
  - apply Forall_reverse. subst n. apply run_take_Forall.
  - intros Hnil. rewrite Hnil in Hmid. simpl in Hmid.
    destruct mid as [|c mid'] eqn:Emid; [by subst n|].
    exfalso.
    assert (isSpace c = false) as Hc.
    { apply (run_drop_head isSpace T). fold mid. by rewrite Emid. }
    assert (c ∈ reverse (take n (reverse (c :: mid')))) as Hin
      by (rewrite <- Hmid; apply list_elem_of_here).
    rewrite elem_of_reverse in Hin.
    pose proof (run_take_Forall isSpace (reverse (c :: mid'))) as Hall. fold n in Hall.
    rewrite Forall_forall in Hall. specialize (Hall c Hin). congruence.
  - intros c Hc. destruct mid as [|c0 mid'] eqn:Emid; [by subst n|].
    assert (isSpace c0 = false) as Hc0.
    { apply (run_drop_head isSpace T). fold mid. by rewrite Emid. }
    destruct (reverse (drop n (reverse (c0 :: mid')))) as [|c1 r] eqn:Er; [done|].
    simpl in Hc. injection Hc as <-.
    simpl in Hmid. by injection Hmid as <- _.
  - intros c Hc. rewrite last_reverse in Hc. subst n. by apply run_drop_head in Hc.
Qed.

(** Leading white space does not change what [trim] returns. *)
Lemma trim_lead lead s :
  Forall (fun c => isSpace c = true) lead -> trim (lead ++ s) = trim s.
Proof.
  intros Hl. unfold trim, trimStart. f_equal.
  induction Hl as [|c lead Hc _ IH]; simpl; [done|]. by rewrite Hc.
Qed.

Lemma trim_trim s : trim (trim s) = trim s.
Proof.
  destruct (trim_split s) as (lead & trail & _ & _ & _ & _ & Hhead & Hlast).
  unfold trim at 1. unfold trimStart, trimEnd.
  assert (dropWhile isSpace (trim s) = trim s) as ->.
  { destruct (trim s) as [|c t] eqn:E; [done|]. simpl. by rewrite (Hhead c eq_refl). }
  destruct (reverse (trim s)) as [|c t] eqn:E.
  - simpl. by rewrite <- (reverse_involutive (trim s)), E.
  - simpl. assert (isSpace c = false) as ->.
    { apply Hlast. rewrite <- (reverse_involutive (trim s)), E.
      rewrite reverse_cons. apply last_snoc. }
    by rewrite <- E, reverse_involutive.
Qed.

End TextFacts.

(** ** Every word of the text is found *)
Section KeywordCompleteness.
Import Regex Assembler.

Lemma prevAt_0 p input : prevAt p input 0 = p.
Proof. unfold prevAt. by rewrite take_0. Qed.

Lemma prevAt_S p c input d : prevAt p (c :: input) (S d) = prevAt (Some c) input d.
Proof. unfold prevAt. cbn [take]. rewrite last_cons. by destruct (last (take d input)). Qed.

(** A search returns a match at the first offset where there is one. *)
Lemma search_le icase r p input i d res0 :
  (d <= length input)%nat ->
  matchAt icase r (prevAt p input d) (drop d input) (i + d) = Some res0 ->
  exists res d', (d' <= d)%nat
    /\ search icase r p input i = Some res
    /\ matchAt icase r (prevAt p input d') (drop d' input) (i + d') = Some res.
Proof.
  revert p i d. induction input as [|c input IH]; intros p i d Hd Hm.
  - assert (d = 0%nat) as -> by (simpl in Hd; lia).
    rewrite prevAt_0, Nat.add_0_r in Hm. simpl in Hm.
    exists res0, 0%nat. rewrite prevAt_0, Nat.add_0_r. simpl. by rewrite Hm.
  - cbn [search]. destruct (matchAt icase r p (c :: input) i) as [res|] eqn:Hhere.
    + exists res, 0%nat. rewrite prevAt_0, Nat.add_0_r. split; [lia|done].
    + destruct d as [|d].
      { rewrite prevAt_0, Nat.add_0_r in Hm. simpl in Hm. congruence. }
      rewrite prevAt_S, Nat.add_succ_r in Hm. cbn [drop] in Hm.
      destruct (IH (Some c) (S i) d ltac:(simpl in Hd; lia) Hm) as (res & d' & Hd' & Hs & Hm').
      exists res, (S d'). rewrite prevAt_S, Nat.add_succ_r. cbn [drop].
      split; [lia|done].
Qed.

(** What [/\b\w{3,}\b/] matches at a position: the whole run of word
    characters there, when it starts at a boundary and has three or more. *)
Lemma wordPattern_matchAt p input i :
  matchAt false wordPattern p input i
  = if (xorb (optWord p) (optWord (head input)) && Nat.leb 3 (run isWord input))%bool
    then
      let s0 := St p input i (replicate (ngroups wordPattern) None) in
      Some (Result i (take (run isWord input) input) (caps s0) (adv (run isWord input) s0))
    else None.
Proof.
  unfold matchAt.
  set (s0 := St p input i (replicate (ngroups wordPattern) None)).
  unfold wordPattern at 1. cbn [seqs foldr atLeast m].
  change (atBoundary s0) with (xorb (optWord p) (optWord (head input))).
  destruct (xorb _ _) eqn:Hb; [|done]. cbn [andb].
  change (repLoop _ true 3 None ?f 0 ?s ?k)
    with (repLoop (stepChar isWord) true 3 None f 0 s k).
  pose proof (run_le isWord input) as Hle.
  destruct (adv_fields (run isWord input) s0 ltac:(simpl; lia)) as (Hrest & Hpos & Hcaps & Hprev).
  cbn [rest pos prev caps s0] in Hrest, Hpos, Hcaps, Hprev.
  destruct (Nat.leb 3 (run isWord input)) eqn:Hrun.
  - apply Nat.leb_le in Hrun.
    apply loop_greedy_all; [simpl; lia|simpl; lia|]. cbn [rest s0].
    assert (atBoundary (adv (run isWord input) s0) = true) as ->.
    { unfold atBoundary. rewrite Hrest, Hprev.
      assert (exists c, last (take (run isWord input) input) = Some c /\ isWord c = true)
        as (c & -> & Hc).
      { destruct (last (take (run isWord input) input)) as [c|] eqn:Hl.
        - exists c. split; [done|]. apply last_Some_elem_of in Hl.
          pose proof (run_take_Forall isWord input) as Hall.
          rewrite Forall_forall in Hall. by apply Hall.
        - apply last_None in Hl. apply (f_equal length) in Hl.
          rewrite length_take in Hl. simpl in Hl. lia. }
      cbn [optWord]. rewrite Hc.
      destruct (head (drop (run isWord input) input)) as [c'|] eqn:Hh; [|done].
      cbn [optWord]. by rewrite (run_drop_head isWord input c' Hh). }
    rewrite Hpos, Hcaps. cbv zeta. do 2 f_equal. f_equal. lia.
  - apply Nat.leb_gt in Hrun. apply loop_none. intros j Hmin Hj. cbn [rest s0] in Hj. lia.
Qed.

Lemma run_stops (p : ascii -> bool) l1 c l2 :
  p c = false -> (run p (l1 ++ c :: l2) <= length l1)%nat.
Proof.
  intros Hc. induction l1 as [|x l1 IH]; simpl.
  - rewrite Hc. lia.
  - destruct (p x); simpl; lia.
Qed.

Section Word.
Context (L before w rest' : str).
Hypothesis HL : L = before ++ w ++ rest'.
Hypothesis Hw : Forall (fun c => isWord c = true) w.
Hypothesis Hlen : (3 <= length w)%nat.
Hypothesis Hbefore : optWord (last before) = false.
Hypothesis Hafter : optWord (head rest') = false.

Lemma word_run : run isWord (w ++ rest') = length w.
Proof.
  apply run_exact; [done|]. intros c Hc. rewrite Hc in Hafter. simpl in Hafter. done.
Qed.

(** The word is matched where it stands. *)
Lemma word_matchAt :
  exists res, matchAt false wordPattern (last before) (w ++ rest') (length before) = Some res
              /\ matched res = w.
Proof.
  rewrite wordPattern_matchAt, word_run.
  assert (head (w ++ rest') = head w) as -> by (destruct w; [simpl in Hlen; lia|done]).
  assert (optWord (head w) = true) as ->.
  { destruct w as [|c w']; [simpl in Hlen; lia|]. simpl. by apply Forall_inv in Hw. }
  rewrite Hbefore. replace (Nat.leb 3 (length w)) with true by (symmetry; by apply Nat.leb_le).
  cbn [xorb andb]. eexists. split; [reflexivity|]. cbn [matched]. apply take_app_length.
Qed.

(** A search that starts before the word, or at it, finds it sooner or
    later. *)
Lemma allFrom_finds fuel consumed input :
  L = consumed ++ input -> (length consumed <= length before)%nat ->
  (length input < fuel)%nat ->
  exists res, res ∈ allFrom false wordPattern fuel (last consumed) input (length consumed)
              /\ matched res = w.
Proof.
  revert consumed input.
  induction fuel as [|fuel IH]; intros consumed input Hsplit Hpos Hfuel; [lia|].
  destruct word_matchAt as (resw & Hmw & Hw').
  (* the word stands at offset [d] of the input *)
  set (d := (length before - length consumed)%nat).
  assert (before = consumed ++ take d input /\ drop d input = w ++ rest') as [Eb Ed].
  { assert (consumed = take (length consumed) before) as Ec.
    { apply (f_equal (take (length consumed))) in HL.
      rewrite Hsplit, take_app_length, take_app_le in HL by done. done. }
    assert (input = drop (length consumed) before ++ w ++ rest') as Ei.
    { apply (f_equal (drop (length consumed))) in HL.
      rewrite Hsplit, drop_app_length, drop_app_le in HL by done. done. }
    split.
    - rewrite Ei, take_app_le by (rewrite length_drop; lia).
      rewrite take_ge by (rewrite length_drop; lia). rewrite Ec at 1. by rewrite take_drop.
    - rewrite Ei. subst d. rewrite <- (length_drop before (length consumed)).
      apply drop_app_length. }
  assert (d <= length input)%nat as Hd.
  { apply (f_equal length) in Ed. rewrite length_drop, length_app in Ed. lia. }
  assert (prevAt (last consumed) input d = last before) as Hprev.
  { unfold prevAt. rewrite Eb, last_app. by destruct (last (take d input)). }
  assert (length consumed + d = length before)%nat as Hd' by lia.
  destruct (search_le false wordPattern (last consumed) input (length consumed) d resw)
    as (res & d' & Hle & Hs & Hm); [done|by rewrite Hprev, Ed, Hd'|].
  cbn [allFrom]. rewrite Hs.
  destruct (decide (d' = d)) as [->|Hne].
  { exists res. split; [apply list_elem_of_here|].
    rewrite Hprev, Ed, Hd' in Hm. congruence. }
  (* an earlier match: it ends before the word begins *)
  assert (d' < d)%nat as Hlt by lia.
  rewrite wordPattern_matchAt in Hm.
  destruct (xorb _ _ && Nat.leb 3 _)%bool eqn:Hok; [|done].
  apply andb_true_iff in Hok as [_ Hrun]. apply Nat.leb_le in Hrun.
  injection Hm as <-. cbn [after index].
  set (n := run isWord (drop d' input)) in *.
  set (s0 := St (prevAt (last consumed) input d') (drop d' input) (length consumed + d')
                (replicate (ngroups wordPattern) None)).
  pose proof (run_le isWord (drop d' input)) as Hnle. fold n in Hnle.
  destruct (adv_fields n s0 ltac:(simpl; lia)) as (Hrest & Hpos' & _ & Hprev').
  cbn [rest pos prev s0] in Hrest, Hpos', Hprev'.
  assert (d' + n <= d)%nat as Hend.
  { (* the character before the word is no word character *)
    destruct (last before) as [c|] eqn:Hl.
    2:{ apply last_None in Hl. rewrite Hl in Hd'. simpl in Hd'. lia. }
    apply last_Some in Hl as [b' Hb'].
    assert (take d input = take (d - 1) input ++ [c]) as Et.
    { assert (length (take d input) = d) as Hlt' by (rewrite length_take; lia).
      destruct (take d input) as [|x t] eqn:E using rev_ind; [simpl in Hlt'; lia|].
      clear IHt. rewrite Eb, app_assoc in Hb'. apply app_inj_tail in Hb' as [_ ->].
      f_equal. rewrite length_app in Hlt'. simpl in Hlt'.
      apply (f_equal (take (d - 1))) in E.
      rewrite take_take, take_app_length' in E by lia.
      by replace (Nat.min (d - 1) d) with (d - 1)%nat in E by lia. }
    assert (drop d' input = drop d' (take (d - 1) input) ++ c :: drop d input) as Edrop.
    { rewrite <- (take_drop d input) at 1. rewrite Et, <- app_assoc. cbn [app].
      rewrite drop_app_le; [done|]. rewrite length_take. lia. }
    assert (isWord c = false) as Hc by exact Hbefore.
    pose proof (run_stops isWord (drop d' (take (d - 1) input)) c (drop d input) Hc) as Hstop.
    rewrite <- Edrop, length_drop, length_take in Hstop. fold n in Hstop. lia. }
  change (adv n _) with (adv n s0).
  replace (Nat.eqb (pos (adv n s0)) (length consumed + d')) with false
    by (symmetry; apply Nat.eqb_neq; lia).
  destruct (IH (consumed ++ take (d' + n) input) (drop (d' + n) input))
    as (res' & Hin & Hres').
  - by rewrite <- app_assoc, take_drop.
  - rewrite length_app, length_take. lia.
  - rewrite length_drop. lia.
  - exists res'. split; [|done]. apply list_elem_of_further.
    rewrite Hprev', Hrest, Hpos', drop_drop.
    assert (last (consumed ++ take (d' + n) input)
            = match last (take n (drop d' input)) with
              | Some c => Some c
              | None => prevAt (last consumed) input d'
              end) as <-.
    { rewrite last_app. rewrite <- (take_drop d' (take (d' + n) input)).
      rewrite take_take, <- take_drop_commute.
      replace (Nat.min d' (d' + n)) with d' by lia.
      rewrite last_app. unfold prevAt.
      destruct (last (take n (drop d' input))); [done|].
      by destruct (last (take d' input)). }
    rewrite length_app, length_take in Hin.
    replace (Nat.min (d' + n) (length input)) with (d' + n)%nat in Hin by lia.
    by rewrite Nat.add_assoc in Hin.
Qed.

End Word.

(** Every run of three or more word characters between two boundaries of
    the text is among the matches. *)
Lemma word_found L before w rest' :
  L = before ++ w ++ rest' ->
  Forall (fun c => isWord c = true) w -> (3 <= length w)%nat ->
  optWord (last before) = false -> optWord (head rest') = false ->
  w ∈ map matched (matchAll false wordPattern L).
Proof.
  intros HL Hw Hlen Hb Ha.
  destruct (allFrom_finds L before w rest' HL Hw Hlen Hb Ha (S (length L)) [] L)
    as (res & Hin & Hres); [done|simpl; lia|lia|].
  apply list_elem_of_fmap. exists res. split; [done|]. exact Hin.
Qed.

End KeywordCompleteness.

(** C8. For every text, [_extractKeywords] returns a list without
    duplicates, and its tokens are exactly the words of the lower-cased
    text: a token has at least three characters, all of them lower-case word
    characters ([a-z], [0-9], [_]), stands between two word boundaries of
    the lower-cased text, and is none of the stop words; and every such
    word is a token.  The empty string gives no token, and
    ["The cat and the Dog ran"] gives exactly [cat], [dog], [ran]. *)
Theorem extractKeywords_tokens (text : str) :
  NoDup (Assembler._extractKeywords text)
  /\ (forall w,
        w ∈ Assembler._extractKeywords text
        <-> (3 <= length w)%nat
            /\ Forall (fun c => isLowerWord c = true) w
            /\ (w ∉ Assembler.stopWords)
            /\ delimited (toLowerCase text) w)
  /\ Assembler._extractKeywords [] = []
  /\ Assembler._extractKeywords (lit "The cat and the Dog ran")
     = [lit "cat"; lit "dog"; lit "ran"].
Proof.
  split; [|split; [|split]].
  - unfold Assembler._extractKeywords. apply NoDup_filter, uniq_NoDup.
  - intros w. split.
    + intros Hw. unfold Assembler._extractKeywords in Hw.
      apply list_elem_of_filter in Hw as [Hstop Hw].
      apply uniq_elem, list_elem_of_fmap in Hw as (res & -> & Hres).
      pose proof (matchAll_sound false Assembler.wordPattern (toLowerCase text)) as Hall.
      rewrite Forall_forall in Hall.
      destruct (wordPattern_match _ _ (Hall _ Hres)) as (Hlen & Hword & Hdel).
      split; [done|]. split; [|done].
      destruct Hdel as (before & after & Ht & _).
      apply Forall_forall. intros c Hc. unfold isLowerWord.
      rewrite Forall_forall in Hword. rewrite (Hword c Hc). simpl.
      assert (c ∈ toLowerCase text) as Hin.
      { rewrite Ht. apply elem_of_app. right. apply elem_of_app. by left. }
      apply list_elem_of_fmap in Hin as (c0 & -> & _).
      by rewrite lowerChar_not_upper.
    + intros (Hlen & Hword & Hstop & before & after & Ht & Hb & Ha).
      unfold Assembler._extractKeywords. apply list_elem_of_filter. split; [done|].
      apply uniq_elem. apply (word_found _ before w after); try done.
      eapply Forall_impl; [exact Hword|]. intros c Hc. unfold isLowerWord in Hc.
      by apply andb_true_iff in Hc as [? _].
  - vm_compute. reflexivity.
  - vm_compute. reflexivity.
Qed.

(** ** One occurrence of the suggestion format *)
Section OccurrenceFacts.
Import Regex Suggest.

Lemma suggestionPattern_tails : suggestionPattern = Seq (litOf marker) tailJ.
Proof. reflexivity. Qed.

Lemma adv_app s X Y :
  rest s = X ++ Y ->
  rest (adv (length X) s) = Y /\ caps (adv (length X) s) = caps s.
Proof.
  intros Hr. destruct (adv_fields (length X) s) as (H1 & _ & H3 & _).
  { rewrite Hr, length_app. lia. }
  rewrite H1, H3, Hr. by rewrite drop_app_length.
Qed.

Lemma adv_drop s j :
  (j <= length (rest s))%nat ->
  rest (adv j s) = drop j (rest s) /\ caps (adv j s) = caps s.
Proof. intros Hj. by destruct (adv_fields j s Hj) as (H1 & _ & H3 & _). Qed.

Lemma run_any l : run (inClass Any) l = length l.
Proof. induction l as [|c l IH]; simpl; [done|]. by rewrite IH. Qed.

Lemma fence_matches R : prefixMatches true fence (fence ++ R) = true.
Proof.
  rewrite prefixMatches_caseless by (repeat constructor; apply caseless_backtick).
  apply startsWith_refl_app.
Qed.

Lemma fence_prefix l : prefixMatches true fence l = startsWith fence l.
Proof. apply prefixMatches_caseless. repeat constructor; apply caseless_backtick. Qed.

Lemma colonStars_prefix l : prefixMatches true colonStars l = startsWith colonStars l.
Proof.
  apply prefixMatches_caseless.
  repeat constructor; (apply caseless_colon || apply caseless_star).
Qed.

Lemma head_app_fence (X R : str) c :
  (forall c', head X = Some c' -> isSpace c' = false) ->
  head (X ++ fence ++ R) = Some c -> isSpace c = false.
Proof. intros HX. destruct X as [|x X]; simpl; [by intros [= <-]|]. intros [= <-]. by apply HX. Qed.

Section Occurrence.
Context (name lead rat trail lang lws body : str).
Hypothesis Hname_ne : name <> [].
Hypothesis Hname_dot : Forall (fun c => inClass Dot c = true) name.
Hypothesis Hname_colon : includes (drop 1 (name ++ lit ":*")) colonStars = false.
Hypothesis Hlead : spaces lead.
Hypothesis Htrail : spaces trail.
Hypothesis Hrat_dot : Forall (fun c => inClass Dot c = true) rat.
Hypothesis Hrat_nil : rat = [] -> trail = [].
Hypothesis Hrat_head : forall c, head rat = Some c -> isSpace c = false.
Hypothesis Hrat_last : forall c, last rat = Some c -> isSpace c = false.
Hypothesis HT_fence : includes ((lead ++ rat ++ trail) ++ lit "``") fence = false.
Hypothesis Hlang : Forall (fun c => isWord c = true) lang.
Hypothesis Hlang_max : forall c, head (lws ++ body) = Some c -> isWord c = false.
Hypothesis Hlws : spaces lws.
Hypothesis Hbody_head : forall c, head body = Some c -> isSpace c = false.
Hypothesis HF_fence : includes ((lang ++ lws ++ body) ++ lit "``") fence = false.

Lemma tailA_passes s R :
  rest s = fence ++ R ->
  exists s', passes true tailA s s' /\ rest s' = R /\ caps s' = caps s.
Proof.
  intros Hr. exists (adv (length fence) s).
  destruct (adv_app s fence R Hr) as [H1 H2]. split; [|done].
  apply (passes_seq _ _ _ _ (adv (length fence) s)); [|apply passes_eps].
  apply passes_lit. rewrite Hr. apply fence_matches.
Qed.

Lemma tailA_fails s : startsWith fence (rest s) = false -> fails true tailA s.
Proof. intros Hr. apply fails_seq, fails_lit. by rewrite fence_prefix. Qed.

Lemma tailB_passes s R :
  rest s = body ++ fence ++ R ->
  exists s', passes true tailB s s' /\ rest s' = R
             /\ caps s' = <[4%nat := Some body]> (caps s).
Proof.
  intros Hr.
  destruct (adv_app s body (fence ++ R) Hr) as [H1 H2].
  set (s1 := setCap 4 (Some (take (length body) (rest s))) (adv (length body) s)).
  destruct (tailA_passes s1 R) as (s' & Hp & Hr' & Hc'); [done|].
  exists s'. split; [|split; [done|]].
  - apply (passes_lazy_then true 4 Any 0 tailA s s' (length body)); [| lia | |done].
    + rewrite run_any, Hr, length_app. lia.
    + intros j Hj _. apply tailA_fails. cbn [rest setCap].
      destruct (adv_drop s j) as [-> _]; [rewrite Hr, length_app; lia|].
      rewrite Hr.
      assert (drop j (body ++ fence ++ R)
              = drop (length (lang ++ lws) + j) ((lang ++ lws ++ body) ++ fence ++ R)) as ->.
      { rewrite (app_assoc lang), <- (app_assoc (lang ++ lws)).
        rewrite <- drop_drop. by rewrite drop_app_length. }
      apply (no_early3 "`" "`" "`"); [done|]. rewrite !length_app in *. lia.
  - rewrite Hc'. subst s1. cbn [caps setCap]. rewrite H2, Hr.
    by rewrite take_app_length.
Qed.

Lemma tailC_passes s R :
  rest s = lws ++ body ++ fence ++ R ->
  exists s', passes true tailC s s' /\ rest s' = R
             /\ caps s' = <[4%nat := Some body]> (caps s).
Proof.
  intros Hr.
  assert (run (inClass Space) (rest s) = length lws) as Hrun.
  { rewrite Hr. apply run_exact; [done|]. intros c. by apply head_app_fence. }
  destruct (adv_app s lws _ Hr) as [H1 H2].
  destruct (tailB_passes (adv (length lws) s) R H1) as (s' & Hp & Hr' & Hc').
  exists s'. split; [|split; [done|by rewrite Hc', H2]].
  apply (passes_seq _ _ _ _ (adv (length lws) s)); [|done].
  rewrite <- Hrun. apply passes_greedy. lia.
Qed.

Lemma tailD_passes s R :
  rest s = lang ++ lws ++ body ++ fence ++ R ->
  exists s', passes true tailD s s' /\ rest s' = R
             /\ caps s' = <[4%nat := Some body]> (cap3 lang (caps s)).
Proof.
  intros Hr.
  assert (run (inClass Word) (rest s) = length lang) as Hrun.
  { rewrite Hr. apply run_exact; [done|].
    intros c. rewrite app_assoc.
    destruct (lws ++ body) as [|x X] eqn:E; simpl.
    - by intros [= <-].
    - intros [= <-]. by apply Hlang_max. }
  destruct (decide (length lang = 0%nat)) as [Elen|Elen].
  - assert (lang = []) as Enil by (by apply nil_length_inv).
    assert (rest s = lws ++ body ++ fence ++ R) as Hr2 by (by rewrite Hr, Enil).
    destruct (tailC_passes s R Hr2) as (s' & Hp & Hr' & Hc').
    exists s'. split; [|split; [done|]].
    + apply (passes_seq _ _ _ _ s); [|done]. apply passes_opt_group_none. lia.
    + rewrite Hc'. unfold cap3. by rewrite Enil.
  - set (s1 := setCap 3 (Some (take (run (inClass Word) (rest s)) (rest s)))
                 (adv (run (inClass Word) (rest s)) (setCap 3 None s))).
    assert (rest (setCap 3 None s) = lang ++ lws ++ body ++ fence ++ R) as Hr0 by done.
    destruct (adv_app _ _ _ Hr0) as [H1 H2].
    assert (rest s1 = lws ++ body ++ fence ++ R) as Hr1
      by (subst s1; cbn [rest setCap]; by rewrite Hrun).
    destruct (tailC_passes s1 R Hr1) as (s' & Hp & Hr' & Hc').
    exists s'. split; [|split; [done|]].
    + apply (passes_seq _ _ _ _ s1); [|done].
      apply passes_opt_group_some. lia.
    + rewrite Hc'. subst s1. cbn [caps setCap]. rewrite Hrun, H2. cbn [caps setCap].
      rewrite Hr, take_app_length. unfold cap3.
      destruct (decide (lang = [])) as [Enil|Enil]; [by rewrite Enil in Elen|].
      clear -Enil. by destruct lang.
Qed.

Lemma tailE_passes s R :
  rest s = fence ++ lang ++ lws ++ body ++ fence ++ R ->
  exists s', passes true tailE s s' /\ rest s' = R
             /\ caps s' = <[4%nat := Some body]> (cap3 lang (caps s)).
Proof.
  intros Hr. destruct (adv_app s fence _ Hr) as [H1 H2].
  destruct (tailD_passes (adv (length fence) s) R H1) as (s' & Hp & Hr' & Hc').
  exists s'. split; [|split; [done|by rewrite Hc', H2]].
  apply (passes_seq _ _ _ _ (adv (length fence) s)); [|done].
  apply passes_lit. rewrite Hr. apply fence_matches.
Qed.

Lemma tailF_passes s R :
  rest s = trail ++ fence ++ lang ++ lws ++ body ++ fence ++ R ->
  exists s', passes true tailF s s' /\ rest s' = R
             /\ caps s' = <[4%nat := Some body]> (cap3 lang (caps s)).
Proof.
  intros Hr.
  assert (run (inClass Space) (rest s) = length trail) as Hrun.
  { rewrite Hr. apply run_exact; [done|]. by intros c [= <-]. }
  destruct (adv_app s trail _ Hr) as [H1 H2].
  destruct (tailE_passes (adv (length trail) s) R H1) as (s' & Hp & Hr' & Hc').
  exists s'. split; [|split; [done|by rewrite Hc', H2]].
  apply (passes_seq _ _ _ _ (adv (length trail) s)); [|done].
  rewrite <- Hrun. apply passes_greedy. lia.
Qed.

(** Inside the rationale the fence is not in sight: [tailF] fails. *)
Lemma tailF_fails s R X j :
  rest s = drop j (rat ++ X) -> (j < length rat)%nat ->
  X = trail ++ fence ++ R ->
  fails true tailF s.
Proof.
  intros Hr Hj HX.
  (* the last character of the rationale stops every run of white space *)
  assert (exists rat' r0, rat = rat' ++ [r0]) as (rat' & r0 & Erat).
  { destruct (last rat) as [r0|] eqn:El.
    - apply last_Some in El as [rat' El]. by exists rat', r0.
    - apply last_None in El. rewrite El in Hj. simpl in Hj. lia. }
  assert (isSpace r0 = false) as Hr0 by (apply Hrat_last; rewrite Erat; apply last_snoc).
  assert (j <= length rat')%nat as Hj' by (rewrite Erat, length_app in Hj; simpl in Hj; lia).
  assert (rest s = drop j rat' ++ r0 :: X) as Hr2.
  { rewrite Hr, Erat, <- app_assoc. simpl. by rewrite drop_app_le. }
  assert (run (inClass Space) (rest s) <= length rat' - j)%nat as Hrun.
  { rewrite Hr2, <- (length_drop rat' j). clear -Hr0. induction (drop j rat') as [|c l IH].
    - simpl. rewrite Hr0. lia.
    - simpl. destruct (isSpace c); simpl; lia. }
  apply fails_rep_then. intros q _ Hq.
  apply fails_seq, fails_lit. rewrite fence_prefix.
  destruct (adv_drop s q) as [-> _].
  { pose proof (run_le (inClass Space) (rest s)). lia. }
  rewrite Hr, drop_drop, HX.
  assert (drop (j + q) (rat ++ trail ++ fence ++ R)
          = drop (length lead + (j + q)) ((lead ++ rat ++ trail) ++ fence ++ R)) as ->.
  { rewrite <- !app_assoc.
    by rewrite <- (drop_drop _ (j + q) (length lead)), drop_app_length. }
  apply (no_early3 "`" "`" "`"); [done|].
  rewrite !length_app. rewrite Erat, length_app. simpl. lia.
Qed.

Lemma tailG_passes s R :
  rest s = rat ++ trail ++ fence ++ lang ++ lws ++ body ++ fence ++ R ->
  exists s', passes true tailG s s' /\ rest s' = R
             /\ caps s' = <[4%nat := Some body]> (cap3 lang (<[2%nat := Some rat]> (caps s))).
Proof.
  intros Hr.
  destruct (adv_app s rat _ Hr) as [H1 H2].
  set (s1 := setCap 2 (Some (take (length rat) (rest s))) (adv (length rat) s)).
  destruct (tailF_passes s1 R) as (s' & Hp & Hr' & Hc'); [done|].
  exists s'. split; [|split; [done|]].
  - apply (passes_lazy_then true 2 Dot 0 tailF s s' (length rat)); [|lia| |done].
    + rewrite Hr, run_app_all by done. lia.
    + intros j Hj _.
      apply (tailF_fails _ (lang ++ lws ++ body ++ fence ++ R)
               (trail ++ fence ++ lang ++ lws ++ body ++ fence ++ R) j); [|done|done].
      cbn [rest setCap]. destruct (adv_drop s j) as [-> _]; [|by rewrite Hr].
      rewrite Hr, length_app. lia.
  - rewrite Hc'. subst s1. cbn [caps setCap]. by rewrite H2, Hr, take_app_length.
Qed.

Lemma tailH_passes s R :
  rest s = lead ++ rat ++ trail ++ fence ++ lang ++ lws ++ body ++ fence ++ R ->
  exists s', passes true tailH s s' /\ rest s' = R
             /\ caps s' = <[4%nat := Some body]> (cap3 lang (<[2%nat := Some rat]> (caps s))).
Proof.
  intros Hr.
  assert (run (inClass Space) (rest s) = length lead) as Hrun.
  { rewrite Hr. apply run_exact; [done|]. intros c.
    destruct rat as [|r0 rat'] eqn:Erat.
    - rewrite (Hrat_nil eq_refl). by intros [= <-].
    - intros [= <-]. by apply Hrat_head. }
  destruct (adv_app s lead _ Hr) as [H1 H2].
  destruct (tailG_passes (adv (length lead) s) R H1) as (s' & Hp & Hr' & Hc').
  exists s'. split; [|split; [done|by rewrite Hc', H2]].
  apply (passes_seq _ _ _ _ (adv (length lead) s)); [|done].
  rewrite <- Hrun. apply passes_greedy. lia.
Qed.

Lemma tailI_passes s R :
  rest s = colonStars ++ lead ++ rat ++ trail ++ fence ++ lang ++ lws ++ body ++ fence ++ R ->
  exists s', passes true tailI s s' /\ rest s' = R
             /\ caps s' = <[4%nat := Some body]> (cap3 lang (<[2%nat := Some rat]> (caps s))).
Proof.
  intros Hr. destruct (adv_app s colonStars _ Hr) as [H1 H2].
  destruct (tailH_passes (adv (length colonStars) s) R H1) as (s' & Hp & Hr' & Hc').
  exists s'. split; [|split; [done|by rewrite Hc', H2]].
  apply (passes_seq _ _ _ _ (adv (length colonStars) s)); [|done].
  apply passes_lit. rewrite Hr, colonStars_prefix. apply startsWith_refl_app.
Qed.

Lemma tailJ_passes s R :
  rest s = name ++ colonStars ++ lead ++ rat ++ trail ++ fence
           ++ lang ++ lws ++ body ++ fence ++ R ->
  exists s', passes true tailJ s s' /\ rest s' = R
             /\ caps s' = <[4%nat := Some body]>
                            (cap3 lang (<[2%nat := Some rat]> (<[1%nat := Some name]> (caps s)))).
Proof.
  intros Hr.
  destruct (adv_app s name _ Hr) as [H1 H2].
  set (s1 := setCap 1 (Some (take (length name) (rest s))) (adv (length name) s)).
  destruct (tailI_passes s1 R) as (s' & Hp & Hr' & Hc'); [done|].
  exists s'. split; [|split; [done|]].
  - apply (passes_lazy_then true 1 Dot 1 tailI s s' (length name)); [| | |done].
    + rewrite Hr, run_app_all by done. lia.
    + destruct name; [done|simpl; lia].
    + intros j Hj Hj1. apply fails_seq, fails_lit. rewrite colonStars_prefix.
      cbn [rest setCap]. destruct (adv_drop s j) as [-> _]; [rewrite Hr, length_app; lia|].
      rewrite Hr. destruct name as [|n0 name'] eqn:Ename; [done|].
      destruct j as [|j]; [lia|]. cbn [app drop].
      cbn [app drop] in Hname_colon.
      apply (no_early3 ":" "*" "*"); [done|]. simpl in Hj. lia.
  - rewrite Hc'. subst s1. cbn [caps setCap]. by rewrite H2, Hr, take_app_length.
Qed.

End Occurrence.
End OccurrenceFacts.

(** ** Searching for occurrences *)
Section SearchFacts.
Import Regex Suggest.

Lemma search_none icase r p l i :
  (forall j p' i', (j <= length l)%nat -> matchAt icase r p' (drop j l) i' = None) ->
  search icase r p l i = None.
Proof.
  revert p i. induction l as [|c l IH]; intros p i Hall;
    pose proof (Hall 0%nat p i ltac:(simpl; lia)) as H0; simpl in H0; simpl; rewrite H0.
  - done.
  - apply IH. intros j p' i' Hj. apply (Hall (S j)). simpl. lia.
Qed.

Lemma search_skip icase r (P : result -> Prop) p gap input i :
  (forall j p' i', (j < length gap)%nat ->
                   matchAt icase r p' (drop j (gap ++ input)) i' = None) ->
  (forall p' i', exists res, matchAt icase r p' input i' = Some res /\ P res) ->
  exists res, search icase r p (gap ++ input) i = Some res /\ P res.
Proof.
  revert p i. induction gap as [|c gap IH]; intros p i Hgap Hat.
  - destruct (Hat p i) as (res & Hm & HP). exists res. split; [|done].
    simpl. destruct input; simpl; by rewrite Hm.
  - pose proof (Hgap 0%nat p i ltac:(simpl; lia)) as H0. simpl in H0. simpl. rewrite H0.
    apply IH; [|done]. intros j p' i' Hj. apply (Hgap (S j)). simpl. lia.
Qed.

(** No match of the suggestion pattern starts where the marker does not. *)
Lemma no_marker_no_match p l i :
  prefixMatches true marker l = false -> matchAt true suggestionPattern p l i = None.
Proof.
  intros Hl. unfold matchAt. rewrite suggestionPattern_tails.
  apply fails_seq, fails_lit. done.
Qed.

(** The prefix test only looks at the first characters. *)
Lemma prefixMatches_app w l X :
  (length w <= length l)%nat -> prefixMatches true w (l ++ X) = prefixMatches true w l.
Proof.
  revert l. induction w as [|c w IH]; intros l Hl; simpl; [done|].
  destruct l as [|x l]; simpl in *; [lia|]. rewrite IH by lia. done.
Qed.

Lemma prefixMatches_refl_upper w l X :
  map upperChar l = map upperChar w -> prefixMatches true w (l ++ X) = true.
Proof.
  intros Hl. rewrite prefixMatches_upper, map_app, Hl. apply startsWith_refl_app.
Qed.

End SearchFacts.

(** ** Well-formed occurrences *)
Section Occurrences.
Import Regex Suggest.

Lemma noMarkerStart_spec l n j :
  noMarkerStart l n = true -> (j < n)%nat -> prefixMatches true marker (drop j l) = false.
Proof.
  unfold noMarkerStart. rewrite forallb_forall. intros Hall Hj.
  apply negb_true_iff, Hall, in_seq. lia.
Qed.

Lemma forallb_Forall (p : ascii -> bool) l :
  forallb p l = true -> Forall (fun c => p c = true) l.
Proof. rewrite forallb_forall, Forall_forall. intros H c Hc. by apply H, list_elem_of_In. Qed.

Lemma cap3_lookup lang (c : list (option str)) k :
  k <> 3%nat -> cap3 lang c !! k = c !! k.
Proof. intros Hk. unfold cap3. destruct lang; [done|]. by rewrite !list_lookup_insert_ne. Qed.

Lemma cap3_length lang (c : list (option str)) : length (cap3 lang c) = length c.
Proof. unfold cap3. destruct lang; [done|]. by rewrite !length_insert. Qed.

Lemma cap3_lookup3 lang (c : list (option str)) :
  c !! 3%nat = Some None -> default [] (default None (cap3 lang c !! 3%nat)) = lang.
Proof.
  intros Hc. unfold cap3. destruct lang as [|l0 lang]; [by rewrite Hc|].
  rewrite list_lookup_insert_eq; [done|].
  rewrite length_insert. by apply lookup_lt_Some in Hc.
Qed.

(** A well-formed occurrence is matched where it stands, with its parts
    as captures. *)
Lemma occurrence_matchAt (o : occurrence) (R : str) (p : option ascii) (i : nat) :
  wellFormed o = true ->
  exists res,
    matchAt true suggestionPattern p
      (mark o ++ fileName o ++ colonStars ++ freeText o ++ fence ++ fenced o ++ fence ++ R) i
    = Some res
    /\ toSuggestion res = suggestionOf o
    /\ rest (after res) = R
    /\ pos (after res) <> index res.
Proof.
  unfold wellFormed. rewrite !andb_true_iff, !negb_true_iff.
  intros (((((((Hmark & _) & Hne) & Hdot) & Hcolon) & Hline) & HT) & HF).
  apply bool_decide_eq_true in Hmark. apply bool_decide_eq_false in Hne.
  apply forallb_Forall in Hdot, Hline.
  destruct (trim_split (freeText o)) as (lead & trail & ET & Hlead & Htrail & Hnil & Hhead & Hlast).
  set (F := fenced o) in *.
  set (lang := take (run isWord F) F).
  set (C := drop (run isWord F) F).
  set (lws := take (run isSpace C) C).
  set (body := drop (run isSpace C) C).
  assert (F = lang ++ lws ++ body) as EF.
  { subst lang lws body C. by rewrite !take_drop. }
  set (input := mark o ++ _).
  set (s0 := St p input i (replicate (ngroups suggestionPattern) None)).
  assert (length (mark o) = length marker) as Hlen.
  { by rewrite <- (length_map upperChar (mark o)), Hmark, length_map. }
  assert (rest (adv (length marker) s0)
          = fileName o ++ colonStars ++ lead ++ trim (freeText o) ++ trail ++ fence
            ++ lang ++ lws ++ body ++ fence ++ R) as Hr1.
  { rewrite <- Hlen. apply (adv_app s0 (mark o)). subst s0 input. cbn [rest].
    rewrite ET at 1. rewrite EF at 1. by rewrite <- !app_assoc. }
  destruct (tailJ_passes (fileName o) lead (trim (freeText o)) trail lang lws body)
    with (s := adv (length marker) s0) (R := R) as (s' & Hp & Hr' & Hc'); try done.
  { by rewrite <- ET. }
  { subst lang. apply run_take_Forall. }
  { intros c Hc. apply (run_drop_head isWord F). fold C. subst lws body.
    by rewrite take_drop in Hc. }
  { subst lws. apply run_take_Forall. }
  { intros c Hc. by apply (run_drop_head isSpace C). }
  { by rewrite <- EF. }
  assert (passes true suggestionPattern s0 s') as Hpass.
  { rewrite suggestionPattern_tails.
    apply (passes_seq _ _ _ _ (adv (length marker) s0)); [|done].
    apply passes_lit. subst s0 input. cbn [rest]. by apply prefixMatches_refl_upper. }
  assert (matchAt true suggestionPattern p input i
          = Some (Result i (take (pos s' - i) input) (caps s') s')) as Hm.
  { unfold matchAt. fold s0. apply Hpass. reflexivity. }
  eexists. split; [exact Hm|split; [|split]].
  - unfold toSuggestion, suggestionOf, group, capture. cbn [captures].
    rewrite Hc'. destruct (adv_fields (length marker) s0) as (_ & _ & -> & _).
    { subst s0 input. cbn [rest]. rewrite length_app. lia. }
    subst s0. cbn [caps].
    change (replicate (ngroups suggestionPattern) None)
      with [@None str; None; None; None; None].
    set (c2 := <[2%nat:=Some (trim (freeText o))]>
                 (<[1%nat:=Some (fileName o)]> [@None str; None; None; None; None])).
    f_equal.
    + rewrite list_lookup_insert_ne, cap3_lookup by done. done.
    + rewrite list_lookup_insert_ne, cap3_lookup by done. cbn. apply trim_trim.
    + rewrite list_lookup_insert_ne by done. by apply cap3_lookup3.
    + rewrite list_lookup_insert_eq
        by (rewrite cap3_length; subst c2; rewrite !length_insert; simpl; lia).
      fold F. fold C. change (trim body = trim C).
      transitivity (trim (lws ++ body)).
      * symmetry. apply trim_lead. subst lws. apply run_take_Forall.
      * subst lws body. by rewrite take_drop.
  - cbn [after]. done.
  - cbn [after index].
    apply matchAt_after in Hm as (w & Hw & Hpos & _).
    subst s0 input. cbn [rest pos after] in *. rewrite Hr' in Hw.
    assert (length w <> 0%nat); [|lia].
    intros Hw0. apply nil_length_inv in Hw0. subst w. simpl in Hw.
    apply (f_equal length) in Hw.
    repeat (rewrite length_app in Hw || rewrite length_cons in Hw).
    rewrite Hlen in Hw. change (length marker) with 24%nat in Hw. lia.
Qed.

End Occurrences.

(** ** A response made of well-formed occurrences *)
Section ParseFacts.
Import Regex Suggest.

Lemma allFrom_occurrences os tail :
  wellFormedAll os -> markerFree tail = true ->
  forall fuel p i, (length os < fuel)%nat ->
  map toSuggestion (allFrom true suggestionPattern fuel p (response os tail) i)
  = map suggestionOf os.
Proof.
  intros Hos Htail. induction Hos as [|o os Ho _ IH]; intros fuel p i Hfuel;
    (destruct fuel as [|fuel]; [simpl in Hfuel; lia|]).
  - cbn [response foldr allFrom]. rewrite search_none; [done|].
    intros j p' i' Hj. apply no_marker_no_match.
    apply (noMarkerStart_spec tail (S (length tail))); [done|lia].
  - cbn [response foldr]. fold (response os tail).
    set (R := response os tail).
    assert (render o ++ R
            = gap o ++ (mark o ++ fileName o ++ colonStars ++ freeText o ++ fence
                        ++ fenced o ++ fence ++ R)) as ->
      by (unfold render; by rewrite <- !app_assoc).
    destruct (search_skip true suggestionPattern
                (fun res => toSuggestion res = suggestionOf o
                            /\ rest (after res) = R /\ pos (after res) <> index res)
                p (gap o)
                (mark o ++ fileName o ++ colonStars ++ freeText o ++ fence
                 ++ fenced o ++ fence ++ R) i)
      as (res & Hs & Hsug & Hrest & Hpos).
    + intros j p' i' Hj. apply no_marker_no_match.
      unfold wellFormed in Ho. rewrite !andb_true_iff in Ho.
      destruct Ho as (((((((Hmark & Hgap) & _) & _) & _) & _) & _) & _).
      apply bool_decide_eq_true in Hmark.
      assert (length (mark o) = length marker) as Hlen
        by (by rewrite <- (length_map upperChar (mark o)), Hmark, length_map).
      rewrite (app_assoc (gap o)), drop_app_le by (rewrite length_app; lia).
      rewrite prefixMatches_app.
      * by apply (noMarkerStart_spec _ (length (gap o))).
      * rewrite length_drop, length_app. lia.
    + intros p' i'. by apply occurrence_matchAt.
    + cbn [allFrom]. rewrite Hs.
      replace (Nat.eqb (pos (after res)) (index res)) with false
        by (symmetry; by apply Nat.eqb_neq).
      cbn [map]. rewrite Hsug, Hrest. f_equal. apply IH. simpl in Hfuel. lia.
Qed.

Lemma response_length os tail :
  wellFormedAll os -> (length os <= length (response os tail))%nat.
Proof.
  induction 1 as [|o os Ho _ IH]; simpl; [lia|].
  unfold wellFormed in Ho. rewrite !andb_true_iff, !negb_true_iff in Ho.
  destruct Ho as (((((((_ & _) & Hne) & _) & _) & _) & _) & _).
  apply bool_decide_eq_false in Hne.
  unfold render. rewrite !length_app.
  destruct (fileName o); [done|]. simpl. lia.
Qed.

Lemma parse_occurrences os tail :
  wellFormedAll os -> markerFree tail = true ->
  parseSuggestions (response os tail) = map suggestionOf os.
Proof.
  intros Hos Htail. unfold parseSuggestions, matchAll.
  apply allFrom_occurrences; [done|done|].
  pose proof (response_length os tail Hos). lia.
Qed.

Lemma parse_trimmed text : Forall trimmed (parseSuggestions text).
Proof.
  unfold parseSuggestions. apply Forall_fmap, Forall_forall. intros res _.
  unfold trimmed, toSuggestion. simpl. by rewrite !trim_trim.
Qed.

End ParseFacts.

(** C5, as stated, fails: a marker line naming a file, a rationale of two
    lines and a fenced block yield no suggestion at all, because the
    rationale [(.*?)] cannot cross a line break. *)
Lemma two_line_rationale_is_dropped :
  render twoLineRationale = lit "**SUGGESTED CHANGES FOR foo.ts:**
Fix typo
in the constant
```ts
const x = 1;
```"
  /\ Suggest.parseSuggestions (render twoLineRationale) = [].
Proof. split; vm_compute; reflexivity. Qed.

(** C5, amended. A response made of well-formed occurrences (marker line
    with a file name, free text that is a single line once trimmed, fenced
    block with optional language tag), separated and followed by text in
    which no marker begins, yields exactly one suggestion per occurrence,
    in order, with the trimmed file name, the trimmed rationale, the
    language tag and the trimmed content; the fields of every suggestion of
    every response are trimmed; the scenario of the spec yields the single
    suggestion [foo.ts] / [Fix typo] / [const x = 1;]; and a response in
    which no marker begins yields no suggestion. *)
Theorem suggestions_parsed (os : list occurrence) (tail text : str) :
  wellFormedAll os -> markerFree tail = true ->
  Suggest.parseSuggestions (response os tail) = map suggestionOf os
  /\ length (Suggest.parseSuggestions (response os tail)) = length os
  /\ Forall trimmed (Suggest.parseSuggestions text)
  /\ Suggest.parseSuggestions fooResponse
     = [ {| Suggest.targetFile := lit "foo.ts";
            Suggest.rationale := lit "Fix typo";
            Suggest.language := lit "ts";
            Suggest.proposedContent := lit "const x = 1;" |} ]
  /\ Suggest.parseSuggestions tail = [].
Proof.
  intros Hos Htail.
  pose proof (parse_occurrences os tail Hos Htail) as Hparse.
  split; [done|]. split; [by rewrite Hparse, length_map|].
  split; [apply parse_trimmed|]. split; [vm_compute; reflexivity|].
  apply (parse_occurrences [] tail); [constructor|done].
Qed.

Lemma suggestions_parsed_witness :
  Suggest.parseSuggestions (response sampleOccurrences (lit "
Done."))
  = [ {| Suggest.targetFile := lit "foo.ts";
         Suggest.rationale := lit "Fix typo";
         Suggest.language := lit "ts";
         Suggest.proposedContent := lit "const x = 1;" |};
      {| Suggest.targetFile := lit "src/a b.py";
         Suggest.rationale := [];
         Suggest.language := [];
         Suggest.proposedContent := lit "print(`1`)" |} ].
Proof.
  refine (proj1 (suggestions_parsed sampleOccurrences (lit "
Done.") [] _ _)).
  - repeat (constructor; [vm_compute; reflexivity|]). constructor.
  - vm_compute. reflexivity.
Defined.

(** ** Escaping *)
Section HtmlFacts.
Import Html.

Lemma replaceChar_app c r a b :
  replaceChar c r (a ++ b) = replaceChar c r a ++ replaceChar c r b.
Proof. unfold replaceChar. by rewrite map_app, concat_app. Qed.

Lemma replaceChar_cons c r x s :
  replaceChar c r (x :: s) = (if ascii_eqb x c then r else [x]) ++ replaceChar c r s.
Proof. done. Qed.

Lemma ascii_eqb_eq a b : ascii_eqb a b = true <-> a = b.
Proof. unfold ascii_eqb. apply bool_decide_eq_true. Qed.

Lemma ascii_eqb_neq a b : ascii_eqb a b = false <-> a <> b.
Proof. unfold ascii_eqb. apply bool_decide_eq_false. Qed.

Lemma replaceChar_other c r x : x <> c -> replaceChar c r [x] = [x].
Proof. intros Hx. unfold replaceChar. simpl. by rewrite (proj2 (ascii_eqb_neq x c) Hx). Qed.

Lemma entity_cases c :
  (c = "&"%char /\ entity c = lit "&amp;")
  \/ (c = "<"%char /\ entity c = lit "&lt;")
  \/ (c = ">"%char /\ entity c = lit "&gt;")
  \/ (c = dquote /\ entity c = lit "&quot;")
  \/ (c = "'"%char /\ entity c = lit "&#39;")
  \/ (c <> "&"%char /\ isMarkup c = false /\ entity c = [c]).
Proof.
  unfold entity, isMarkup.
  destruct (ascii_eqb c "&") eqn:E1; [apply ascii_eqb_eq in E1; by left|].
  destruct (ascii_eqb c "<") eqn:E2; [apply ascii_eqb_eq in E2; by right; left|].
  destruct (ascii_eqb c ">") eqn:E3; [apply ascii_eqb_eq in E3; by right; right; left|].
  destruct (ascii_eqb c dquote) eqn:E4;
    [apply ascii_eqb_eq in E4; by right; right; right; left|].
  destruct (ascii_eqb c "'") eqn:E5;
    [apply ascii_eqb_eq in E5; by right; right; right; right; left|].
  apply ascii_eqb_neq in E1. by repeat right.
Qed.

(** The five replacements, one after the other, amount to one pass that
    writes an entity for each special character. *)
Lemma escapeHtml_cons c text : escapeHtml (c :: text) = entity c ++ escapeHtml text.
Proof.
  unfold escapeHtml at 1.
  rewrite (replaceChar_cons "&"), !replaceChar_app. fold (escapeHtml text). f_equal.
  destruct (entity_cases c) as [[-> E]|[[-> E]|[[-> E]|[[-> E]|[[-> E]|(N & Hm & E)]]]]];
    try (vm_compute; reflexivity).
  rewrite E, (proj2 (ascii_eqb_neq c "&") N).
  unfold isMarkup in Hm. rewrite !orb_false_iff in Hm.
  destruct Hm as (((H1 & H2) & H3) & H4).
  apply ascii_eqb_neq in H1, H2, H3, H4.
  by rewrite !replaceChar_other.
Qed.

Lemma escapeHtml_entities text : escapeHtml text = concat (map entity text).
Proof. induction text as [|c text IH]; [done|]. by rewrite escapeHtml_cons, IH. Qed.

Lemma entity_no_markup c : forallb (fun x => negb (isMarkup x)) (entity c) = true.
Proof.
  destruct (entity_cases c) as [[_ ->]|[[_ ->]|[[_ ->]|[[_ ->]|[[_ ->]|(_ & Hm & ->)]]]]];
    try (vm_compute; reflexivity).
  simpl. by rewrite Hm.
Qed.

(** The entities form a prefix code: what an entity stands for can be
    read off the text that begins with it. *)
Lemma entity_inj c1 c2 s1 s2 :
  entity c1 ++ s1 = entity c2 ++ s2 -> c1 = c2 /\ s1 = s2.
Proof.
  intros H.
  destruct (entity_cases c1) as [[-> E1]|[[-> E1]|[[-> E1]|[[-> E1]|[[-> E1]|(N1 & _ & E1)]]]]];
  destruct (entity_cases c2) as [[-> E2]|[[-> E2]|[[-> E2]|[[-> E2]|[[-> E2]|(N2 & _ & E2)]]]]];
    rewrite ?E1, ?E2 in H; simpl in H;
    try (injection H as H; by subst);
    try discriminate H;
    try (injection H as H _; by subst).
Qed.

End HtmlFacts.

(** X1. Whatever the text, [escapeHtml] writes none of the characters
    [<], [>], the double quote and the apostrophe: the escaped line of a
    preview cannot open or close markup or an attribute value. *)
Theorem escapeHtml_no_markup (text : str) :
  Forall (fun c => isMarkup c = false) (Html.escapeHtml text).
Proof.
  rewrite escapeHtml_entities. apply Forall_concat, Forall_fmap, Forall_forall.
  intros c _. simpl. pose proof (entity_no_markup c) as H.
  apply Forall_forall. intros x Hx.
  rewrite forallb_forall in H. apply list_elem_of_In in Hx. specialize (H x Hx).
  by apply negb_true_iff in H.
Qed.

(** X2. [escapeHtml] loses nothing: different texts have different
    escapes (the ampersand is replaced first, so no entity is escaped
    twice).  The two-step escaping of chat messages, diffs and reviews,
    which leaves the ampersand alone, does lose the difference between [<]
    and the text [&lt;]. *)
Theorem escapeHtml_injective :
  (forall a b : str, Html.escapeHtml a = Html.escapeHtml b -> a = b)
  /\ Html.escapeAngles (lit "<") = Html.escapeAngles (lit "&lt;").
Proof.
  split; [|vm_compute; reflexivity].
  induction a as [|c a IH]; intros b H.
  - destruct b as [|d b]; [done|]. rewrite escapeHtml_cons in H.
    destruct (entity_cases d) as [[_ E]|[[_ E]|[[_ E]|[[_ E]|[[_ E]|(_ & _ & E)]]]]];
      rewrite E in H; discriminate H.
  - destruct b as [|d b].
    + rewrite escapeHtml_cons in H.
      destruct (entity_cases c) as [[_ E]|[[_ E]|[[_ E]|[[_ E]|[[_ E]|(_ & _ & E)]]]]];
        rewrite E in H; discriminate H.
    + rewrite !escapeHtml_cons in H. apply entity_inj in H as [-> H].
      f_equal. by apply IH.
Qed.

(** ** The chat view of the history *)
Section ChatViewFacts.
Import Html History.

Lemma split_app_nl a b : split nl (a ++ nl :: b) = split nl a ++ split nl b.
Proof.
  induction a as [|c a IH]; simpl.
  - by rewrite ?ascii_eqb_refl.
  - rewrite IH. destruct (ascii_eqb c nl); [done|].
    pose proof (split_nonempty nl a) as Hne. by destruct (split nl a).
Qed.

Lemma split_join_concat (xs : list str) :
  xs <> [] -> split nl (join [nl] xs) = concat (map (split nl) xs).
Proof.
  induction xs as [|x xs IH]; [done|]. intros _.
  destruct xs as [|y xs]; [simpl; by rewrite app_nil_r|].
  change (join [nl] (x :: y :: xs)) with (x ++ nl :: join [nl] (y :: xs)).
  rewrite split_app_nl, IH by done. done.
Qed.

(** A prefix without line break stays on the first line. *)
Lemma split_prefix p t :
  Forall (fun c => c <> nl) p ->
  split nl (p ++ t)
  = match split nl t with first :: more => (p ++ first) :: more | [] => [] end.
Proof.
  induction 1 as [|c p Hc _ IH]; simpl.
  - by destruct (split nl t).
  - rewrite IH, (proj2 (ascii_eqb_neq c nl) Hc).
    pose proof (split_nonempty nl t) as Hne. by destruct (split nl t).
Qed.

Lemma truthy_nonempty (s : str) : s <> [] -> truthy s = true.
Proof. by destruct s. Qed.

(** Lines without a marker are added to the message that is open. *)
Lemma formatLine_continue F role content more :
  content <> [] -> Forall unmarked more ->
  foldl formatLine (FormatState F role content) more
  = FormatState F role (content ++ concat (map (fun l => nl :: l) more)).
Proof.
  intros Hc Hall. revert content Hc.
  induction Hall as [|l more [Hu Ha] _ IH]; intros content Hc; simpl.
  - by rewrite app_nil_r.
  - unfold formatLine at 2. cbn [currentContent currentRole formatted].
    rewrite Hu, Ha, truthy_nonempty by done.
    rewrite IH by (by destruct content). by rewrite <- app_assoc.
Qed.

Lemma join_cons_lines first more :
  join [nl] (first :: more) = first ++ concat (map (fun l => nl :: l) more).
Proof.
  revert first. induction more as [|l more IH]; intros first; simpl.
  - by rewrite app_nil_r.
  - specialize (IH l). simpl in IH. by rewrite IH.
Qed.

(** ... and without an open message they are passed over. *)
Lemma formatLine_skip F role lines :
  Forall unmarked lines ->
  foldl formatLine (FormatState F role []) lines = FormatState F role [].
Proof.
  induction 1 as [|l lines [Hu Ha] _ IH]; simpl; [done|].
  unfold formatLine at 2. cbn [currentContent]. by rewrite Hu, Ha.
Qed.

(** The lines of one message: the marker line opens it, the rest of the
    text follows. *)
Lemma format_user st text :
  displayable text ->
  foldl formatLine st (split nl (lit "User: " ++ text))
  = FormatState (flush st) (lit "user") text.
Proof.
  unfold displayable. intros Hd.
  rewrite split_prefix by (repeat constructor; by vm_compute).
  pose proof (join_split nl text) as Hjoin.
  destruct (split nl text) as [|first more]; [done|]. destruct Hd as [Hne Hmore].
  cbn [foldl]. unfold formatLine at 2.
  rewrite startsWith_refl_app.
  change (substringFrom 6 (lit "User: " ++ first)) with first.
  rewrite formatLine_continue by done.
  by rewrite <- join_cons_lines, Hjoin.
Qed.

Lemma format_assistant st text :
  displayable text ->
  foldl formatLine st (split nl (lit "AICA: " ++ text))
  = FormatState (flush st) (lit "assistant") text.
Proof.
  unfold displayable. intros Hd.
  rewrite split_prefix by (repeat constructor; by vm_compute).
  pose proof (join_split nl text) as Hjoin.
  destruct (split nl text) as [|first more]; [done|]. destruct Hd as [Hne Hmore].
  cbn [foldl]. unfold formatLine at 2.
  change (startsWith (lit "User: ") (lit "AICA: " ++ first)) with false. cbv iota.
  rewrite startsWith_refl_app.
  change (substringFrom 6 (lit "AICA: " ++ first)) with first.
  rewrite formatLine_continue by done.
  by rewrite <- join_cons_lines, Hjoin.
Qed.

Lemma displayable_nonempty text : displayable text -> text <> [].
Proof. unfold displayable. intros Hd ->. simpl in Hd. by destruct Hd. Qed.

Lemma split_turn u a :
  split nl (turn u a) = split nl (lit "User: " ++ u) ++ split nl (lit "AICA: " ++ a).
Proof.
  unfold turn.
  change (lit "
AICA: " ++ a) with (nl :: (lit "AICA: " ++ a)).
  by rewrite app_assoc, split_app_nl.
Qed.

Lemma format_turns st msgs :
  Forall (fun m => displayable (fst m) /\ displayable (snd m)) msgs ->
  flush (foldl formatLine st (concat (map (split nl) (turns msgs))))
  = flush st ++ concat (map renderTurn msgs).
Proof.
  intros Hall. revert st.
  induction Hall as [|[u a] msgs [Hu Ha] _ IH]; intros st.
  - simpl. by rewrite app_nil_r.
  - unfold turns in *. cbn [map concat fst snd] in *.
    rewrite split_turn, <- app_assoc, !foldl_app.
    rewrite format_user, format_assistant by done.
    rewrite IH. unfold flush at 1 2. cbn [currentContent currentRole formatted].
    rewrite !truthy_nonempty by (by apply displayable_nonempty).
    unfold renderTurn. cbn [fst snd]. by rewrite <- !app_assoc.
Qed.

(** A text with a character other than white space is not blank. *)
Lemma trim_nonblank s c : c ∈ s -> isSpace c = false -> trim s <> [].
Proof.
  intros Hin Hc Ht.
  destruct (trim_split s) as (lead & trail & Hs & Hlead & Htrail & _).
  rewrite Ht in Hs. simpl in Hs. rewrite Hs in Hin.
  apply elem_of_app in Hin as [Hin|Hin];
    [rewrite Forall_forall in Hlead; specialize (Hlead c Hin)
    |rewrite Forall_forall in Htrail; specialize (Htrail c Hin)]; congruence.
Qed.

End ChatViewFacts.

(** X3. The chat view shows what the handler recorded: for turns whose user
    message and response are displayable (first line not empty, no further
    line beginning with [User: ] or [AICA: ]), the history joined as the
    view receives it is rendered as one user message and one assistant
    message per turn, in order, each with its whole text.  A history in
    which no line begins with a role marker (only attached files, read
    files or an index) is rendered as nothing at all, and so is a blank one. *)
Theorem formatChatHistory_turns (msgs : list (str * str)) (other : str) :
  Forall (fun m => displayable (fst m) /\ displayable (snd m)) msgs ->
  Forall unmarked (split nl other) ->
  Html._formatChatHistory (join [nl] (turns msgs)) = concat (map renderTurn msgs)
  /\ Html._formatChatHistory other = [].
Proof.
  intros Hall Hother. split.
  - destruct msgs as [|m msgs]; [done|].
    unfold Html._formatChatHistory.
    rewrite truthy_nonempty.
    + cbn [negb]. rewrite split_join_concat by done. by rewrite format_turns.
    + apply (trim_nonblank _ "U"); [|done].
      destruct m as [u a]. unfold turns. cbn [map fst snd].
      destruct msgs; simpl; apply list_elem_of_here.
  - unfold Html._formatChatHistory. destruct (negb _); [done|].
    by rewrite formatLine_skip.
Qed.

Lemma formatChatHistory_turns_witness :
  Html._formatChatHistory (join [nl] (turns [(lit "fix <b>", lit "Sure.
Done."); (lit "thanks", lit "ok")]))
  = concat (map renderTurn [(lit "fix <b>", lit "Sure.
Done."); (lit "thanks", lit "ok")])
  /\ Html._formatChatHistory (lit "Attached: /w/notes.txt
remember the milk") = [].
Proof.
  refine (formatChatHistory_turns [(lit "fix <b>", lit "Sure.
Done."); (lit "thanks", lit "ok")] (lit "Attached: /w/notes.txt
remember the milk") _ _).
  - repeat (constructor; [split; vm_compute; repeat constructor; done|]). constructor.
  - vm_compute. repeat constructor.
Defined.

(** ** The diff preview and the side-by-side preview *)
Section PreviewFacts.
Import Html.

(** Escaping a character other than the line break leaves the lines where
    they are. *)
Lemma split_replaceChar c r s :
  c <> nl -> Forall (fun x => x <> nl) r ->
  split nl (replaceChar c r s) = map (replaceChar c r) (split nl s).
Proof.
  intros Hc Hr. induction s as [|x s IH]; [done|].
  rewrite replaceChar_cons. cbn [split].
  destruct (ascii_eqb x nl) eqn:Hx.
  - apply ascii_eqb_eq in Hx. subst x.
    rewrite (proj2 (ascii_eqb_neq nl c)) by done.
    cbn [app split]. rewrite ascii_eqb_refl, IH. done.
  - apply ascii_eqb_neq in Hx.
    pose proof (split_nonempty nl s) as Hne.
    destruct (ascii_eqb x c) eqn:Hxc.
    + rewrite split_prefix, IH by done.
      destruct (split nl s) as [|l ls]; [done|]. cbn [map].
      by rewrite replaceChar_cons, Hxc.
    + cbn [app split]. rewrite (proj2 (ascii_eqb_neq x nl)) by done. rewrite IH.
      destruct (split nl s) as [|l ls]; [done|]. cbn [map].
      by rewrite replaceChar_cons, Hxc.
Qed.

Lemma split_escapeAngles s :
  split nl (escapeAngles s) = map escapeAngles (split nl s).
Proof.
  unfold escapeAngles.
  rewrite !split_replaceChar by (try done; repeat constructor; by vm_compute).
  by rewrite map_map.
Qed.

(** A prefix made of characters that the escaping neither replaces nor
    writes first is found in the escaped text where it is in the text. *)
Lemma startsWith_replaceChar p c r0 r s :
  Forall (fun x => x <> c /\ x <> r0) p ->
  startsWith p (replaceChar c (r0 :: r) s) = startsWith p s.
Proof.
  intros Hp. destruct Hp as [|x p [Hx1 Hx2] Hp]; [done|].
  destruct s as [|y s]; [done|].
  rewrite replaceChar_cons. destruct (ascii_eqb y c) eqn:Hy.
  - apply ascii_eqb_eq in Hy. subst y. cbn [app startsWith].
    by rewrite (proj2 (ascii_eqb_neq x r0)), (proj2 (ascii_eqb_neq x c)).
  - cbn [app startsWith]. destruct (ascii_eqb x y); [|done]. cbn [andb].
    clear Hx1 Hx2 Hy. revert s. induction Hp as [|z p [Hz1 Hz2] _ IH]; intros s; [done|].
    destruct s as [|w s]; [done|].
    rewrite replaceChar_cons. destruct (ascii_eqb w c) eqn:Hw.
    + apply ascii_eqb_eq in Hw. subst w. cbn [app startsWith].
      by rewrite (proj2 (ascii_eqb_neq z r0)), (proj2 (ascii_eqb_neq z c)).
    + cbn [app startsWith]. by rewrite IH.
Qed.

Lemma startsWith_escapeAngles p s :
  Forall (fun x => x <> "<"%char /\ x <> ">"%char /\ x <> "&"%char) p ->
  startsWith p (escapeAngles s) = startsWith p s.
Proof.
  intros Hp. unfold escapeAngles.
  change (lit "&gt;") with ("&"%char :: lit "gt;").
  change (lit "&lt;") with ("&"%char :: lit "lt;").
  rewrite !startsWith_replaceChar; [done| |];
    (eapply Forall_impl; [exact Hp|]); naive_solver.
Qed.

Lemma diffLineClass_escapeAngles line :
  diffLineClass (escapeAngles line) = diffLineClass line.
Proof.
  unfold diffLineClass.
  by rewrite !startsWith_escapeAngles
    by (repeat constructor; by vm_compute).
Qed.

Lemma escapeAngles_no_angle s :
  Forall (fun c => c <> "<"%char /\ c <> ">"%char) (escapeAngles s).
Proof.
  unfold escapeAngles. induction s as [|x s IH]; [constructor|].
  rewrite (replaceChar_cons "<"), replaceChar_app. apply Forall_app. split; [|exact IH].
  destruct (ascii_eqb x "<") eqn:E1; [repeat constructor; by vm_compute|].
  rewrite replaceChar_cons. cbn [replaceChar map concat app].
  destruct (ascii_eqb x ">") eqn:E2; [repeat constructor; by vm_compute|].
  apply ascii_eqb_neq in E1, E2. by repeat constructor.
Qed.

(** Rows beyond both texts are empty on both sides. *)
Lemma lineAt_stripEmptyTail lines i : lineAt (stripEmptyTail lines) i = lineAt lines i.
Proof.
  unfold lineAt. revert i. induction lines as [|l lines IH]; intros i; [done|].
  cbn [stripEmptyTail].
  destruct l as [|c l].
  - destruct (stripEmptyTail lines) as [|l' more] eqn:E.
    + destruct i as [|i]; [done|]. cbn [lookup list_lookup]. rewrite <- IH. by destruct i.
    + destruct i as [|i]; [done|]. apply (IH i).
  - destruct i as [|i]; [done|]. apply (IH i).
Qed.

Lemma stripEmptyTail_last lines l : last (stripEmptyTail lines) = Some l -> l <> [].
Proof.
  induction lines as [|x lines IH]; [done|]. cbn [stripEmptyTail].
  destruct (stripEmptyTail lines) as [|l' more] eqn:E.
  - destruct x as [|c x]; [done|]. simpl. by intros [= <-].
  - assert (last (x :: l' :: more) = last (l' :: more)) as Hl by done.
    destruct x; rewrite Hl; exact IH.
Qed.

Lemma stripEmptyTail_ext a b :
  (forall i, lineAt a i = lineAt b i) ->
  (forall l, last a = Some l -> l <> []) -> (forall l, last b = Some l -> l <> []) ->
  a = b.
Proof.
  revert b. induction a as [|x a IH]; intros b Hall Ha Hb.
  - destruct b as [|y b]; [done|]. exfalso.
    destruct (last (y :: b)) as [l|] eqn:El; [|by apply last_None in El].
    apply (Hb l eq_refl).
    apply last_Some in El as [b' Eb].
    specialize (Hall (length b')). rewrite Eb in Hall. unfold lineAt in Hall.
    rewrite list_lookup_middle in Hall by done. done.
  - destruct b as [|y b].
    + exfalso.
      destruct (last (x :: a)) as [l|] eqn:El; [|by apply last_None in El].
      apply (Ha l eq_refl).
      apply last_Some in El as [a' Ea].
      specialize (Hall (length a')). rewrite Ea in Hall. unfold lineAt in Hall.
      rewrite list_lookup_middle in Hall by done. done.
    + pose proof (Hall 0%nat) as H0. unfold lineAt in H0. simpl in H0. subst y.
      f_equal. apply IH.
      * intros i. apply (Hall (S i)).
      * intros l Hl. apply Ha. rewrite last_cons, Hl. done.
      * intros l Hl. apply Hb. rewrite last_cons, Hl. done.
Qed.

Lemma lineAt_beyond lines i : (length lines <= i)%nat -> lineAt lines i = [].
Proof. intros Hi. unfold lineAt. by rewrite lookup_ge_None_2. Qed.

End PreviewFacts.

(** X4. The diff preview escapes the diff text first and classifies its
    lines afterwards; all the same every line of the diff gets one block,
    in order, with the class that its unescaped beginning calls for ([+++],
    [---] and [@@] lines are headers, other [+] and [-] lines additions and
    removals) and with its escaped text, in which no [<] and no [>] is
    left. *)
Theorem formatDiff_of_escaped (diffText : str) :
  Html.formatDiffForDisplay (Html.escapeAngles diffText)
    = concat (map diffBlock (split nl diffText))
  /\ Forall (fun line => Forall (fun c => c <> "<"%char /\ c <> ">"%char)
                                (Html.escapeAngles line))
            (split nl diffText).
Proof.
  split.
  - unfold Html.formatDiffForDisplay. rewrite split_escapeAngles, map_map.
    f_equal. apply map_ext. intros line. unfold diffBlock.
    by rewrite diffLineClass_escapeAngles.
  - apply Forall_forall. intros line _. apply escapeAngles_no_angle.
Qed.

(** X5. The side-by-side preview marks no row as changed exactly when the
    two texts have the same lines up to empty lines at the end: a change
    that only adds or removes line breaks at the end of the file is shown
    as no change at all. *)
Theorem sideBySide_changed_rows (original modified : str) :
  changedRows original modified = []
  <-> stripEmptyTail (split nl original) = stripEmptyTail (split nl modified).
Proof.
  unfold changedRows, Html.maxLines.
  set (a := split nl original). set (b := split nl modified).
  split.
  - intros Hnone.
    apply stripEmptyTail_ext; [|apply stripEmptyTail_last..].
    intros i. rewrite !lineAt_stripEmptyTail.
    destruct (decide (i < Nat.max (length a) (length b))%nat) as [Hi|Hi].
    + assert (i ∈ seq 0 (Nat.max (length a) (length b))) as Hin
        by (apply elem_of_seq; lia).
      destruct (Html.isDifferent a b i) eqn:Hd.
      * assert (i ∈ List.filter (Html.isDifferent a b)
                               (seq 0 (Nat.max (length a) (length b)))) as Hf.
        { apply list_elem_of_In, filter_In. split; [by apply list_elem_of_In|done]. }
        rewrite Hnone in Hf. by apply elem_of_nil in Hf.
      * unfold Html.isDifferent in Hd. apply negb_false_iff in Hd.
        by apply bool_decide_eq_true in Hd.
    + rewrite !lineAt_beyond by lia. done.
  - intros Heq.
    assert (forall i, Html.isDifferent a b i = false) as Hsame.
    { intros i. unfold Html.isDifferent. apply negb_false_iff, bool_decide_eq_true.
      by rewrite <- (lineAt_stripEmptyTail a), <- (lineAt_stripEmptyTail b), Heq. }
    induction (seq 0 (Nat.max (length a) (length b))) as [|i l IH]; [done|].
    simpl. by rewrite Hsame.
Qed.

(** ** Steps of a match that needs no backtracking *)
Section StepFacts.
Import Regex.

Lemma prefixMatches_exact w R : prefixMatches false w (w ++ R) = true.
Proof.
  induction w as [|c w IH]; [done|]. cbn [app prefixMatches chrMatches].
  by rewrite ascii_eqb_refl, IH.
Qed.

Lemma adv_pos_diff n s : (n <= length (rest s))%nat -> (pos (adv n s) - pos s)%nat = n.
Proof. intros Hn. destruct (adv_fields n s Hn) as (_ & -> & _). lia. Qed.

(** An optional character that is there is taken. *)
Lemma passes_opt_chr c s R :
  rest s = c :: R ->
  passes false (Rep true 0 (Some 1%nat) (Chr c)) s (adv 1 s).
Proof.
  intros Hr k x Hk. cbn [m groups clearCaps foldr].
  rewrite Hr. cbn [length Nat.add]. rewrite Nat.add_1_r.
  cbn [repLoop atMax Nat.leb Nat.ltb m].
  unfold stepChar at 1. rewrite Hr. cbn [chrMatches]. rewrite ascii_eqb_refl.
  cbn [pos Nat.leb andb].
  replace (Nat.eqb (S (pos s)) (pos s)) with false by (symmetry; apply Nat.eqb_neq; lia).
  cbn [repLoop atMax Nat.leb].
  rewrite (adv_S 0 s c R Hr) in Hk. cbn [adv] in Hk. by rewrite Hk.
Qed.

Section Steps.
Context (Q : st -> Prop) (tail : regex) (s : st).

Lemma step_lit w R :
  rest s = w ++ R ->
  (forall s1, rest s1 = R -> caps s1 = caps s ->
              exists s', passes false tail s1 s' /\ Q s') ->
  exists s', passes false (Seq (litOf w) tail) s s' /\ Q s'.
Proof.
  intros Hr Hnext. destruct (adv_app s w R Hr) as [H1 H2].
  destruct (Hnext _ H1 H2) as (s' & Hp & HQ). exists s'. split; [|done].
  apply (passes_seq _ _ _ _ (adv (length w) s)); [|done].
  apply passes_lit. rewrite Hr. apply prefixMatches_exact.
Qed.

Lemma step_class cl min X R :
  rest s = X ++ R -> Forall (fun c => inClass cl c = true) X ->
  (forall c, head R = Some c -> inClass cl c = false) -> (min <= length X)%nat ->
  (forall s1, rest s1 = R -> caps s1 = caps s ->
              exists s', passes false tail s1 s' /\ Q s') ->
  exists s', passes false (Seq (Rep true min None (Cls cl)) tail) s s' /\ Q s'.
Proof.
  intros Hr HX HR Hmin Hnext. destruct (adv_app s X R Hr) as [H1 H2].
  assert (run (inClass cl) (rest s) = length X) as Hrun by (rewrite Hr; by apply run_exact).
  destruct (Hnext _ H1 H2) as (s' & Hp & HQ). exists s'. split; [|done].
  apply (passes_seq _ _ _ _ (adv (length X) s)); [|done].
  rewrite <- Hrun. apply passes_greedy. lia.
Qed.

Lemma step_group i cl min X R :
  rest s = X ++ R -> Forall (fun c => inClass cl c = true) X ->
  (forall c, head R = Some c -> inClass cl c = false) -> (min <= length X)%nat ->
  (forall s1, rest s1 = R -> caps s1 = <[i := Some X]> (caps s) ->
              exists s', passes false tail s1 s' /\ Q s') ->
  exists s', passes false (Seq (Group i (Rep true min None (Cls cl))) tail) s s' /\ Q s'.
Proof.
  intros Hr HX HR Hmin Hnext. destruct (adv_app s X R Hr) as [H1 H2].
  assert (run (inClass cl) (rest s) = length X) as Hrun by (rewrite Hr; by apply run_exact).
  assert (length X <= length (rest s))%nat as Hlen by (rewrite Hr, length_app; lia).
  set (s1 := setCap i (Some (take (pos (adv (length X) s) - pos s) (rest s)))
                    (adv (length X) s)).
  destruct (Hnext s1) as (s' & Hp & HQ).
  - subst s1. by cbn [rest setCap].
  - subst s1. cbn [caps setCap]. rewrite H2, adv_pos_diff by done.
    by rewrite Hr, take_app_length.
  - exists s'. split; [|done].
    apply (passes_seq _ _ _ _ s1); [|done].
    apply passes_group. rewrite <- Hrun. apply passes_greedy. lia.
Qed.

Lemma step_opt_chr c R :
  rest s = c :: R ->
  (forall s1, rest s1 = R -> caps s1 = caps s ->
              exists s', passes false tail s1 s' /\ Q s') ->
  exists s', passes false (Seq (Rep true 0 (Some 1%nat) (Chr c)) tail) s s' /\ Q s'.
Proof.
  intros Hr Hnext. destruct (adv_app s [c] R Hr) as [H1 H2].
  destruct (Hnext _ H1 H2) as (s' & Hp & HQ). exists s'. split; [|done].
  apply (passes_seq _ _ _ _ (adv 1 s)); [|done]. by apply (passes_opt_chr c s R).
Qed.

End Steps.

End StepFacts.

(** ** Hunk headers *)
Section HeaderFacts.
Import Regex Diff.

Lemma search_here icase r p input i res :
  matchAt icase r p input i = Some res -> search icase r p input i = Some res.
Proof. intros H. destruct input; simpl; by rewrite H. Qed.

(** The pattern reads the old start line off a header. *)
Lemma hunkHeader_exec oldStart oldCount newStart newCount :
  digits oldStart -> oldStart <> [] -> digits oldCount ->
  digits newStart -> newStart <> [] -> digits newCount ->
  exists res,
    exec false hunkHeader (hunkHeaderLine oldStart oldCount newStart newCount) = Some res
    /\ capture 1 res = Some oldStart.
Proof.
  intros H1 N1 H2 H3 N3 H4.
  set (line := hunkHeaderLine oldStart oldCount newStart newCount).
  set (s0 := St None line 0 (replicate (ngroups hunkHeader) None)).
  assert (exists s', passes false hunkHeader s0 s'
                     /\ caps s' !! 1%nat = Some (Some oldStart)) as (s' & Hp & Hc).
  { unfold hunkHeader. cbn [seqs foldr opt star plus].
    change (Lit "@@ -") with (litOf (lit "@@ -")).
    change (Lit " +") with (litOf (lit " +")).
    change (Lit " @@") with (litOf (lit " @@")).
    apply (step_lit _ _ _ (lit "@@ -")
            (oldStart ++ lit "," ++ oldCount ++ lit " +" ++ newStart ++ lit ","
             ++ newCount ++ lit " @@")); [done|].
    intros s1 Hr1 Hc1.
    apply (step_group _ _ _ 1 Digit 1 oldStart
            (lit "," ++ oldCount ++ lit " +" ++ newStart ++ lit "," ++ newCount ++ lit " @@"));
      [done|done|by intros c [= <-]|by destruct oldStart; [|simpl; lia]|].
    intros s2 Hr2 Hc2.
    apply (step_opt_chr _ _ _ ","%char
            (oldCount ++ lit " +" ++ newStart ++ lit "," ++ newCount ++ lit " @@")); [done|].
    intros s3 Hr3 Hc3.
    apply (step_class _ _ _ Digit 0 oldCount
            (lit " +" ++ newStart ++ lit "," ++ newCount ++ lit " @@"));
      [done|done|by intros c [= <-]|lia|].
    intros s4 Hr4 Hc4.
    apply (step_lit _ _ _ (lit " +") (newStart ++ lit "," ++ newCount ++ lit " @@")); [done|].
    intros s5 Hr5 Hc5.
    apply (step_group _ _ _ 2 Digit 1 newStart (lit "," ++ newCount ++ lit " @@"));
      [done|done|by intros c [= <-]|by destruct newStart; [|simpl; lia]|].
    intros s6 Hr6 Hc6.
    apply (step_opt_chr _ _ _ ","%char (newCount ++ lit " @@")); [done|].
    intros s7 Hr7 Hc7.
    apply (step_class _ _ _ Digit 0 newCount (lit " @@"));
      [done|done|by intros c [= <-]|lia|].
    intros s8 Hr8 Hc8.
    apply (step_lit _ _ _ (lit " @@") []); [by rewrite app_nil_r|].
    intros s9 Hr9 Hc9. exists s9. split; [apply passes_eps|].
    rewrite Hc9, Hc8, Hc7, Hc6, Hc5, Hc4, Hc3, Hc2, Hc1.
    subst s0. cbn [caps]. change (replicate (ngroups hunkHeader) None) with [@None str; None; None].
    done. }
  assert (matchAt false hunkHeader None line 0
          = Some (Result 0 (take (pos s' - 0) line) (caps s') s')) as Hm.
  { unfold matchAt. fold s0. apply Hp. reflexivity. }
  eexists. split.
  - unfold exec. apply search_here. exact Hm.
  - unfold capture. cbn [captures]. by rewrite Hc.
Qed.

End HeaderFacts.

(** ** What applying a diff does, line by line *)
Section ApplyFacts.
Import Regex Diff.

Lemma split_oneLine s : Forall oneLine (split nl s).
Proof.
  induction s as [|c s IH]; simpl; [by repeat constructor|].
  destruct (ascii_eqb c nl) eqn:Hc; [constructor; [constructor|done]|].
  apply ascii_eqb_neq in Hc.
  destruct (split nl s) as [|l ls]; [by repeat constructor|].
  apply Forall_cons in IH as [Hl Hls]. constructor; [by constructor|done].
Qed.

Lemma split_of_oneLine l : oneLine l -> split nl l = [l].
Proof.
  intros Hl. rewrite <- (app_nil_r l) at 1. rewrite split_prefix by done.
  simpl. by rewrite app_nil_r.
Qed.

(** Lines without line break are the lines of their join. *)
Lemma split_join (ls : list str) :
  Forall oneLine ls -> ls <> [] -> split nl (join [nl] ls) = ls.
Proof.
  intros Hall Hne. rewrite split_join_concat by done.
  clear Hne. induction Hall as [|l ls Hl _ IH]; [done|].
  cbn [map concat]. by rewrite split_of_oneLine, IH.
Qed.

Lemma applyDiffLine_add r off x :
  applyDiffLine (r, off) (lit "+" ++ x) = (spliceInsert off x r, off + 1).
Proof. done. Qed.

Lemma applyDiffLine_remove r off x :
  applyDiffLine (r, off) (lit "-" ++ x)
  = match findIndex (fun l idx => (off <=? idx) && str_eqb l x) r with
    | Some index => (spliceRemove index r, off)
    | None => (r, off)
    end.
Proof. done. Qed.

Lemma spliceInsert_at {A} (off : Z) (x : A) (l : list A) :
  0 <= off ->
  spliceInsert off x l = take (Z.to_nat off) l ++ x :: drop (Z.to_nat off) l.
Proof.
  intros Hoff. unfold spliceInsert, spliceStart.
  replace (off <? 0) with false by (symmetry; apply Z.ltb_ge; lia).
  destruct (decide (off <= Z.of_nat (length l))) as [Hle|Hgt].
  - by rewrite Z.min_l by lia.
  - rewrite Z.min_r by lia. rewrite Nat2Z.id.
    by rewrite !take_ge, !drop_ge by lia.
Qed.

Lemma spliceRemove_at {A} (k : nat) (l : list A) :
  spliceRemove (Z.of_nat k) l = take (Nat.min k (length l)) l ++ drop (S (Nat.min k (length l))) l.
Proof.
  unfold spliceRemove, spliceStart.
  replace (Z.of_nat k <? 0) with false by (symmetry; apply Z.ltb_ge; lia).
  by replace (Z.to_nat (Z.min (Z.of_nat k) (Z.of_nat (length l))))
    with (Nat.min k (length l)) by lia.
Qed.

Lemma findIndexFrom_range {A} (p : A -> Z -> bool) i l idx :
  findIndexFrom p i l = Some idx -> i <= idx < i + Z.of_nat (length l).
Proof.
  revert i. induction l as [|x l IH]; intros i; simpl; [done|].
  destruct (p x i); [intros [= <-]; lia|]. intros H. apply IH in H. lia.
Qed.

(** The first line at or after the cursor that has the text sought. *)
Lemma findIndexFrom_at (x : str) (off i : Z) (r : list str) (k : nat) :
  i <= off -> off = i + Z.of_nat k -> r !! k = Some x ->
  findIndexFrom (fun l idx => (off <=? idx) && str_eqb l x) i r = Some off.
Proof.
  revert i r. induction k as [|k IH]; intros i r Hi Hoff Hk.
  - destruct r as [|y r]; [done|]. simpl in Hk. injection Hk as ->. simpl.
    replace (off <=? i) with true by (symmetry; apply Z.leb_le; lia).
    unfold str_eqb. rewrite bool_decide_eq_true_2 by done. simpl. f_equal. lia.
  - destruct r as [|y r]; [done|]. simpl in Hk. simpl.
    replace (off <=? i) with false by (symmetry; apply Z.leb_gt; lia).
    simpl. apply IH; [lia|lia|done].
Qed.

Lemma findIndexFrom_none (x : str) (off i : Z) (r : list str) :
  x ∉ r -> findIndexFrom (fun l idx => (off <=? idx) && str_eqb l x) i r = None.
Proof.
  revert i. induction r as [|y r IH]; intros i Hx; [done|]. simpl.
  apply not_elem_of_cons in Hx as [Hne Hx].
  unfold str_eqb at 1. rewrite bool_decide_eq_false_2 by done.
  rewrite andb_false_r. by apply IH.
Qed.

(** Removals that name the lines found at the cursor take them out. *)
Lemma remove_block r (k : nat) removed :
  take (length removed) (drop k r) = removed ->
  foldl applyDiffLine (r, Z.of_nat k) (map (fun l => lit "-" ++ l) removed)
  = (take k r ++ drop (k + length removed) r, Z.of_nat k).
Proof.
  revert r. induction removed as [|x removed IH]; intros r Hblock.
  - simpl. by rewrite Nat.add_0_r, take_drop.
  - cbn [map foldl]. rewrite applyDiffLine_remove.
    assert (r !! k = Some x) as Hk.
    { cbn [length] in Hblock. destruct (drop k r) as [|y t] eqn:E; [done|].
      simpl in Hblock. injection Hblock as -> _.
      rewrite <- (Nat.add_0_r k), <- lookup_drop, E. done. }
    assert (k < length r)%nat as Hlt by (by apply lookup_lt_Some in Hk).
    unfold findIndex. rewrite (findIndexFrom_at x (Z.of_nat k) 0 r k) by (done || lia).
    rewrite spliceRemove_at.
    replace (Nat.min k (length r)) with k by lia.
    assert (length (take k r) = k) as Hlen by (rewrite length_take; lia).
    rewrite IH.
    + rewrite take_app_le, take_take by lia.
      replace (Nat.min k k) with k by lia.
      rewrite drop_app_ge by lia.
      rewrite Hlen, drop_drop. do 3 f_equal. cbn [length]. lia.
    + rewrite drop_app_ge by lia.
      rewrite Hlen, Nat.sub_diag, drop_0. cbn [length] in Hblock.
      rewrite (drop_S r x k Hk) in Hblock. simpl in Hblock. by injection Hblock.
Qed.

(** Additions go in at the cursor, one after the other. *)
Lemma add_block r (k : nat) added :
  foldl applyDiffLine (r, Z.of_nat k) (map (fun l => lit "+" ++ l) added)
  = (take k r ++ added ++ drop k r, Z.of_nat (k + length added)).
Proof.
  revert r k. induction added as [|x added IH]; intros r k.
  - simpl. by rewrite take_drop, Nat.add_0_r.
  - cbn [map foldl]. rewrite applyDiffLine_add, spliceInsert_at by lia.
    rewrite Nat2Z.id. replace (Z.of_nat k + 1) with (Z.of_nat (S k)) by lia.
    rewrite IH. f_equal; [|cbn [length]; f_equal; lia].
    destruct (decide (k <= length r)%nat) as [Hle|Hgt].
    + assert (length (take k r) = k) as Hlen by (rewrite length_take; lia).
      rewrite take_app_ge by lia. rewrite drop_app_ge by lia.
      rewrite Hlen. replace (S k - k)%nat with 1%nat by lia.
      cbn [take drop]. rewrite take_0, drop_0. by rewrite <- app_assoc.
    + rewrite (take_ge r), (drop_ge r) by lia.
      rewrite take_ge by (rewrite length_app; simpl; lia).
      rewrite drop_ge by (rewrite length_app; simpl; lia).
      by rewrite <- !app_assoc.
Qed.

Lemma digits_oneLine ds : digits ds -> oneLine ds.
Proof.
  intros Hd. eapply Forall_impl; [exact Hd|]. intros c Hc ->. by vm_compute in Hc.
Qed.

Lemma oneLine_app a b : oneLine a -> oneLine b -> oneLine (a ++ b).
Proof. intros Ha Hb. by apply Forall_app. Qed.

Lemma oneLine_lit_cons c (l : str) : c <> nl -> oneLine l -> oneLine (c :: l).
Proof. by constructor. Qed.

End ApplyFacts.

(** X6. A hunk without context lines is applied as written: when the
    header gives the (1-based) line at which the change begins and the
    removed lines are the lines of the original found there, applying the
    hunk gives the original with that block replaced by the added lines. *)
Theorem hunk_without_context_applies (original : str)
    (oldStart oldCount newStart newCount : str) (removed added : list str) :
  digits oldStart -> digits oldCount -> digits newStart -> newStart <> [] ->
  digits newCount ->
  1 <= Diff.parseInt oldStart ->
  Forall oneLine removed -> Forall oneLine added ->
  take (length removed)
       (drop (Z.to_nat (Diff.parseInt oldStart - 1)) (split nl original)) = removed ->
  Diff.applyDiffToContent original
    (plainHunk (hunkHeaderLine oldStart oldCount newStart newCount) removed added)
  = join [nl] (take (Z.to_nat (Diff.parseInt oldStart - 1)) (split nl original)
               ++ added
               ++ drop (Z.to_nat (Diff.parseInt oldStart - 1) + length removed)
                       (split nl original)).
Proof.
  intros H1 H2 H3 N3 H4 Hstart Hrem Hadd Hblock.
  assert (oldStart <> []) as N1 by (intros ->; unfold Diff.parseInt in Hstart; simpl in Hstart; lia).
  destruct (hunkHeader_exec oldStart oldCount newStart newCount) as (res & Hexec & Hcap);
    try done.
  unfold Diff.applyDiffToContent, plainHunk.
  rewrite split_join; [| |done].
  2:{ constructor.
      - unfold hunkHeaderLine.
        repeat first [ by apply digits_oneLine
                     | solve [repeat constructor; by vm_compute]
                     | apply oneLine_app ].
      - apply Forall_app. split; apply Forall_fmap; (eapply Forall_impl; [eassumption|]);
          intros l Hl; by constructor. }
  cbn [foldl]. rewrite foldl_app.
  assert (Diff.applyDiffLine (split nl original, 0)
            (hunkHeaderLine oldStart oldCount newStart newCount)
          = (split nl original, Diff.parseInt oldStart - 1)) as ->.
  { unfold Diff.applyDiffLine.
    change (startsWith (lit "@@") (hunkHeaderLine oldStart oldCount newStart newCount))
      with true. cbv iota.
    by rewrite Hexec, Hcap. }
  set (k := Z.to_nat (Diff.parseInt oldStart - 1)) in *.
  assert (Diff.parseInt oldStart - 1 = Z.of_nat k) as -> by (subst k; lia).
  rewrite remove_block by done.
  rewrite add_block. cbn [fst].
  assert (length removed <= length (drop k (split nl original)))%nat as Hlen.
  { rewrite <- Hblock at 1. rewrite length_take. lia. }
  rewrite length_drop in Hlen.
  destruct (decide (k <= length (split nl original))%nat) as [Hk|Hk].
  - assert (length (take k (split nl original)) = k) as Hlk by (rewrite length_take; lia).
    rewrite take_app_le, take_take by lia.
    rewrite drop_app_ge by lia.
    rewrite Hlk, Nat.sub_diag, drop_0.
    by replace (Nat.min k k) with k by lia.
  - assert (removed = []) as -> by (destruct removed; [done|simpl in Hlen; lia]).
    rewrite !(drop_ge (split nl original)) by (simpl; lia).
    rewrite (take_ge (split nl original)) by lia.
    rewrite app_nil_r. rewrite (take_ge (split nl original)) by lia.
    by rewrite drop_ge by lia.
Qed.

Lemma hunk_without_context_applies_witness :
  Diff.applyDiffToContent (lit "a
b
c")
    (plainHunk (hunkHeaderLine (lit "2") (lit "1") (lit "2") (lit "2"))
               [lit "b"] [lit "x"; lit "y"])
  = lit "a
x
y
c".
Proof.
  refine (hunk_without_context_applies (lit "a
b
c") (lit "2") (lit "1") (lit "2") (lit "2") [lit "b"] [lit "x"; lit "y"] _ _ _ _ _ _ _ _ _);
    try (repeat constructor; by vm_compute); try done.
Defined.

(** ** Where the lines of the result come from *)
Section ProvenanceFacts.
Import Diff.

Lemma startsWith_cons_inv c (line : str) :
  startsWith [c] line = true -> line = c :: substringFrom 1 line.
Proof.
  destruct line as [|x line]; [done|]. simpl. rewrite andb_true_r.
  intros H. apply ascii_eqb_eq in H. by subst.
Qed.

(** One step of the loop keeps the lines it has, takes one out, or puts
    the text of its [+] line in. *)
Lemma applyDiffLine_lines (P : str -> Prop) r off line :
  Forall P r ->
  (startsWith (lit "+") line = true -> P (substringFrom 1 line)) ->
  Forall P (fst (applyDiffLine (r, off) line)).
Proof.
  intros Hr Hadd. unfold applyDiffLine.
  destruct (startsWith (lit "@@") line).
  { by destruct (Regex.exec _ _ _). }
  destruct (startsWith (lit "-") line).
  { destruct (findIndex _ r) as [index|]; [|done]. cbn [fst].
    unfold spliceRemove. apply Forall_app. split; [by apply Forall_take|by apply Forall_drop]. }
  destruct (startsWith (lit "+") line); [|done]. cbn [fst].
  unfold spliceInsert. apply Forall_app. split; [by apply Forall_take|].
  constructor; [by apply Hadd|by apply Forall_drop].
Qed.

Lemma foldl_lines (P : str -> Prop) st diffLines :
  Forall P (fst st) ->
  Forall (fun line => startsWith (lit "+") line = true -> P (substringFrom 1 line)) diffLines ->
  Forall P (fst (foldl applyDiffLine st diffLines)).
Proof.
  intros Hst Hall. revert st Hst.
  induction Hall as [|line ls Hl _ IH]; intros [r off] Hst; [done|].
  cbn [foldl]. apply IH.
  destruct (applyDiffLine (r, off) line) as [r' off'] eqn:E.
  pose proof (applyDiffLine_lines P r off line Hst Hl) as H. by rewrite E in H.
Qed.

(** Without additions the lines only get fewer. *)
Lemma applyDiffLine_sublist r off line :
  startsWith (lit "+") line = false ->
  fst (applyDiffLine (r, off) line) `sublist_of` r.
Proof.
  intros Hadd. unfold applyDiffLine.
  destruct (startsWith (lit "@@") line).
  { by destruct (Regex.exec _ _ _). }
  destruct (startsWith (lit "-") line).
  { destruct (findIndex _ r) as [index|]; [|done]. cbn [fst].
    unfold spliceRemove. set (k := spliceStart index r).
    trans (take k r ++ drop k r); [|by rewrite take_drop].
    apply sublist_app; [done|].
    replace (S k) with (k + 1)%nat by lia. rewrite <- drop_drop. apply sublist_drop. }
  by rewrite Hadd.
Qed.

Lemma foldl_sublist r off diffLines :
  Forall (fun line => startsWith (lit "+") line = false) diffLines ->
  fst (foldl applyDiffLine (r, off) diffLines) `sublist_of` r.
Proof.
  intros Hall. revert r off.
  induction Hall as [|line ls Hl _ IH]; intros r off; [done|].
  cbn [foldl]. destruct (applyDiffLine (r, off) line) as [r' off'] eqn:E.
  etransitivity; [apply IH|].
  pose proof (applyDiffLine_sublist r off line Hl) as H. by rewrite E in H.
Qed.

(** A removal that names no line of the text does nothing. *)
Lemma applyDiffLine_miss r off line :
  startsWith (lit "+") line = false ->
  (startsWith (lit "-") line = true -> substringFrom 1 line ∉ r) ->
  fst (applyDiffLine (r, off) line) = r.
Proof.
  intros Hadd Hmiss. unfold applyDiffLine.
  destruct (startsWith (lit "@@") line).
  { by destruct (Regex.exec _ _ _). }
  destruct (startsWith (lit "-") line).
  { unfold findIndex. by rewrite findIndexFrom_none by (by apply Hmiss). }
  by rewrite Hadd.
Qed.

Lemma foldl_miss r off diffLines :
  Forall (fun line => startsWith (lit "+") line = false
                      /\ (startsWith (lit "-") line = true -> substringFrom 1 line ∉ r))
         diffLines ->
  fst (foldl applyDiffLine (r, off) diffLines) = r.
Proof.
  intros Hall. revert off.
  induction Hall as [|line ls [Hl1 Hl2] _ IH]; intros off; [done|].
  cbn [foldl]. destruct (applyDiffLine (r, off) line) as [r' off'] eqn:E.
  pose proof (applyDiffLine_miss r off line Hl1 Hl2) as H. rewrite E in H. simpl in H.
  subst r'. apply IH.
Qed.

End ProvenanceFacts.

(** X7. Applying a diff invents nothing: unless the result is the empty
    text, each of its lines is a line of the original or the text of a [+]
    line of the diff, whatever the diff looks like. *)
Theorem applied_lines_have_a_source (originalContent diffText : str) :
  Diff.applyDiffToContent originalContent diffText = []
  \/ Forall (fun l => l ∈ split nl originalContent
                      \/ (lit "+" ++ l) ∈ split nl diffText)
            (split nl (Diff.applyDiffToContent originalContent diffText)).
Proof.
  unfold Diff.applyDiffToContent.
  set (r := fst (foldl Diff.applyDiffLine (split nl originalContent, 0) (split nl diffText))).
  assert (Forall (fun l => oneLine l
                           /\ (l ∈ split nl originalContent
                               \/ (lit "+" ++ l) ∈ split nl diffText)) r) as Hr.
  { subst r. apply foldl_lines.
    - cbn [fst]. pose proof (split_oneLine originalContent) as H1.
      rewrite Forall_forall in H1. apply Forall_forall. intros l Hl.
      split; [by apply H1|by left].
    - pose proof (split_oneLine diffText) as H2. rewrite Forall_forall in H2.
      apply Forall_forall. intros line Hline Hplus.
      apply (startsWith_cons_inv "+") in Hplus.
      specialize (H2 line Hline). rewrite Hplus in H2.
      apply Forall_cons in H2 as [_ H2]. split; [done|].
      right. change (lit "+" ++ substringFrom 1 line) with ("+"%char :: substringFrom 1 line).
      by rewrite <- Hplus. }
  destruct r as [|l r]; [by left|]. right.
  rewrite split_join; [|eapply Forall_impl; [exact Hr|]; by intros ? [? _]|done].
  eapply Forall_impl; [exact Hr|]. by intros ? [_ ?].
Qed.

(** X8. A diff without [+] lines can only take lines away: the result is
    made of lines of the original, in their order.  If moreover none of its
    [-] lines names a line of the original, the result is the original,
    whatever hunk headers and other lines the diff has. *)
Theorem removals_only_take_away (originalContent diffText : str) :
  Forall (fun line => startsWith (lit "+") line = false) (split nl diffText) ->
  (exists kept, kept `sublist_of` split nl originalContent
                /\ Diff.applyDiffToContent originalContent diffText = join [nl] kept)
  /\ (Forall (fun line => startsWith (lit "-") line = true ->
                          substringFrom 1 line ∉ split nl originalContent)
             (split nl diffText) ->
      Diff.applyDiffToContent originalContent diffText = originalContent).
Proof.
  intros Hno. unfold Diff.applyDiffToContent. split.
  - eexists. split; [|reflexivity]. by apply foldl_sublist.
  - intros Hmiss. rewrite foldl_miss; [apply join_split|].
    rewrite Forall_forall in Hno, Hmiss. apply Forall_forall. intros line Hl.
    split; [by apply Hno|by apply Hmiss].
Qed.

Lemma removals_only_take_away_witness :
  (exists kept, kept `sublist_of` split nl (lit "a
b
c")
                /\ Diff.applyDiffToContent (lit "a
b
c") (lit "--- f
@@ -1,3 +1,2 @@
 a
-b
-z") = join [nl] kept)
  /\ (Forall (fun line => startsWith (lit "-") line = true ->
                          substringFrom 1 line ∉ split nl (lit "a
b
c"))
             (split nl (lit "--- f
@@ -1,3 +1,2 @@
 a
-b
-z")) ->
      Diff.applyDiffToContent (lit "a
b
c") (lit "--- f
@@ -1,3 +1,2 @@
 a
-b
-z") = lit "a
b
c").
Proof.
  refine (removals_only_take_away (lit "a
b
c") (lit "--- f
@@ -1,3 +1,2 @@
 a
-b
-z") _).
  vm_compute. repeat constructor.
Defined.

(** ** How a stream ends *)
Section EndFacts.
Import Json Client.
Context (rt : Runtime).

Lemma lines_state webview lines :
  Forall (fun line => carriesDone rt line = false) lines ->
  settled (foldl (onLine rt webview) (Chat [] None []) lines) = None
  /\ fullResponse (foldl (onLine rt webview) (Chat [] None []) lines)
     = concat (map (fragmentText rt) lines).
Proof.
  intros Hall. split; [by apply lines_pending|]. by rewrite lines_fullResponse.
Qed.

Lemma fullResponse_settle o c : fullResponse (settle o c) = fullResponse c.
Proof. unfold settle. by destruct (settled c). Qed.

Lemma posted_onLine_false c line : posted c = [] -> posted (onLine rt false c line) = [].
Proof.
  intros Hc. unfold onLine.
  destruct (JSON_parse rt line) as [data|]; [|done].
  set (c1 := match prop "message" data with Some _ => _ | None => c end).
  assert (posted c1 = []) as Hc1.
  { subst c1. destruct (prop "message" data) as [message|]; [|done].
    destruct (truthy message); [|done].
    destruct (prop "content" message) as [content|]; [|done].
    by destruct (truthy content). }
  destruct data; try done;
    (destruct (truthyOpt _); [|done]); unfold settle; by destruct (settled c1).
Qed.

(** The listener does not change what is accumulated or how the promise
    settles. *)
Lemma onLine_webview c c' line :
  fullResponse c = fullResponse c' -> settled c = settled c' ->
  fullResponse (onLine rt false c line) = fullResponse (onLine rt true c' line)
  /\ settled (onLine rt false c line) = settled (onLine rt true c' line).
Proof.
  intros Hf Hs. rewrite !onLine_fullResponse, Hf. split; [done|].
  destruct (settled c') as [o|] eqn:E.
  - by rewrite (onLine_settled rt false c line o), (onLine_settled rt true c' line o).
  - by rewrite !onLine_pending, Hf.
Qed.

Lemma onEvent_webview c c' e :
  fullResponse c = fullResponse c' -> settled c = settled c' ->
  fullResponse (onEvent rt false c e) = fullResponse (onEvent rt true c' e)
  /\ settled (onEvent rt false c e) = settled (onEvent rt true c' e).
Proof.
  intros Hf Hs. destruct e as [chunk| |error]; cbn [onEvent].
  - revert c c' Hf Hs. induction (chunkLines chunk) as [|line ls IH]; intros c c' Hf Hs; [done|].
    cbn [foldl]. destruct (onLine_webview c c' line Hf Hs) as [H1 H2]. by apply IH.
  - unfold postMessage. cbv iota. unfold settle. cbn [settled fullResponse posted].
    rewrite Hs. destruct (settled c') eqn:E; cbn [settled fullResponse];
      by rewrite ?Hf, ?Hs, ?E.
  - unfold settle. rewrite Hs.
    destruct (settled c') eqn:E; cbn [settled fullResponse]; by rewrite ?Hf, ?Hs, ?E.
Qed.

Lemma posted_onEvent_false c e : posted c = [] -> posted (onEvent rt false c e) = [].
Proof.
  intros Hc. destruct e as [chunk| |error]; cbn [onEvent].
  - revert c Hc. induction (chunkLines chunk) as [|line ls IH]; intros c Hc; [done|].
    cbn [foldl]. apply IH. by apply posted_onLine_false.
  - unfold postMessage. cbv iota. unfold settle. by destruct (settled c).
  - unfold settle. by destruct (settled c).
Qed.

Lemma runStream_webview events :
  settled (runStream rt false events) = settled (runStream rt true events)
  /\ posted (runStream rt false events) = [].
Proof.
  unfold runStream.
  assert (forall c c', fullResponse c = fullResponse c' -> settled c = settled c' ->
                       posted c = [] ->
            settled (foldl (onEvent rt false) c events)
            = settled (foldl (onEvent rt true) c' events)
            /\ posted (foldl (onEvent rt false) c events) = []) as H.
  { induction events as [|e events IH]; intros c c' Hf Hs Hp; [done|].
    cbn [foldl]. destruct (onEvent_webview c c' e Hf Hs) as [H1 H2].
    apply IH; [done|done|by apply posted_onEvent_false]. }
  by apply H.
Qed.

(** Every update carries the whole text so far. *)
Lemma accumulate_snoc acc msgs m :
  accumulate rt acc (msgs ++ [m])
  = match accumulate rt acc msgs with
    | Some acc' => accumulate rt acc' [m]
    | None => None
    end.
Proof.
  revert acc. induction msgs as [|x msgs IH]; intros acc; simpl.
  - by destruct m.
  - destruct x as [content full|]; [|apply IH].
    destruct (str_eqb full _); [apply IH|done].
Qed.

Lemma str_eqb_refl (s : str) : str_eqb s s = true.
Proof. unfold str_eqb. by apply bool_decide_eq_true. Qed.

Lemma onLine_accumulate c line :
  accumulate rt [] (posted c) = Some (fullResponse c) ->
  accumulate rt [] (posted (onLine rt true c line))
  = Some (fullResponse (onLine rt true c line)).
Proof.
  intros Hc. unfold onLine.
  destruct (JSON_parse rt line) as [data|]; [|done].
  set (c1 := match prop "message" data with Some _ => _ | None => c end).
  assert (accumulate rt [] (posted c1) = Some (fullResponse c1)) as Hc1.
  { subst c1. destruct (prop "message" data) as [message|]; [|done].
    destruct (truthy message); [|done].
    destruct (prop "content" message) as [content|]; [|done].
    destruct (truthy content); [|done].
    cbn [postMessage posted fullResponse settled].
    rewrite accumulate_snoc, Hc. cbn [accumulate]. by rewrite str_eqb_refl. }
  destruct data; try done;
    (destruct (truthyOpt _); [|done]); unfold settle; by destruct (settled c1).
Qed.

Lemma onEvent_accumulate c e :
  accumulate rt [] (posted c) = Some (fullResponse c) ->
  accumulate rt [] (posted (onEvent rt true c e))
  = Some (fullResponse (onEvent rt true c e)).
Proof.
  intros Hc. destruct e as [chunk| |error]; cbn [onEvent].
  - revert c Hc. induction (chunkLines chunk) as [|line ls IH]; intros c Hc; [done|].
    cbn [foldl]. apply IH. by apply onLine_accumulate.
  - unfold postMessage. cbv iota. unfold settle. cbn [settled fullResponse posted].
    destruct (settled c); cbn [posted fullResponse];
      rewrite accumulate_snoc, Hc; done.
  - unfold settle. by destruct (settled c).
Qed.

Lemma runStream_accumulate events :
  accumulate rt [] (posted (runStream rt true events))
  = Some (fullResponse (runStream rt true events)).
Proof.
  unfold runStream.
  assert (forall c, accumulate rt [] (posted c) = Some (fullResponse c) ->
            accumulate rt [] (posted (foldl (onEvent rt true) c events))
            = Some (fullResponse (foldl (onEvent rt true) c events))) as H.
  { induction events as [|e events IH]; intros c Hc; [done|].
    cbn [foldl]. apply IH. by apply onEvent_accumulate. }
  by apply H.
Qed.

End EndFacts.

(** X9. A stream that ends without any fragment carrying [done] still
    resolves: with the concatenation of the content of all lines received,
    whatever the transport does after the end; and the webview is told once
    that the stream is complete, after all updates. *)
Theorem end_of_stream_resolves (rt : Runtime) (cfg : Config) (prompt : str)
    (webview : bool) (chunks : list str) (later : list Client.streamEvent) :
  startsWith (lit "http") (apiUrl cfg) = true ->
  Forall (fun line => carriesDone rt line = false) (streamLines chunks) ->
  Client.result (Client.getOllamaChat rt cfg
                   (Client.Stream (map Client.Data chunks ++ Client.End :: later))
                   prompt webview)
    = Some (Client.Resolved (concat (map (fragmentText rt) (streamLines chunks))))
  /\ exists updates,
       Client.messages (Client.getOllamaChat rt cfg
                          (Client.Stream (map Client.Data chunks ++ [Client.End]))
                          prompt true)
       = updates ++ [Client.StreamingComplete]
       /\ Forall (fun msg => isUpdate msg = true) updates.
Proof.
  intros Hurl Hnone. unfold Client.getOllamaChat. rewrite Hurl. cbn [negb].
  cbn [Client.result Client.messages]. unfold Client.runStream.
  destruct (lines_state rt webview _ Hnone) as [Hs Hf].
  split.
  - rewrite foldl_app. cbn [foldl]. apply events_settled.
    rewrite data_events. cbn [Client.onEvent].
    rewrite settled_settle, settled_postMessage, Hs. cbn [default].
    by rewrite fullResponse_postMessage, Hf.
  - rewrite foldl_app, data_events. cbn [foldl Client.onEvent].
    destruct (lines_state rt true _ Hnone) as [Hs' _].
    unfold Client.settle, Client.postMessage. cbn [Client.settled Client.posted].
    rewrite Hs'. cbn [Client.posted]. eexists. split; [reflexivity|].
    clear -Hnone.
    assert (forall c, Forall (fun msg => isUpdate msg = true) (Client.posted c) ->
              Forall (fun msg => isUpdate msg = true)
                     (Client.posted (foldl (Client.onLine rt true) c (streamLines chunks))))
      as H; [|by apply H].
    induction (streamLines chunks) as [|line ls IH]; intros c Hc; [done|].
    cbn [foldl]. apply Forall_inv_tail in Hnone as Hnone'. apply IH; [done|].
    unfold Client.onLine.
    destruct (JSON_parse rt line) as [data|]; [|done].
    set (c1 := match Json.prop "message" data with Some _ => _ | None => c end).
    assert (Forall (fun msg => isUpdate msg = true) (Client.posted c1)) as Hc1.
    { subst c1. destruct (Json.prop "message" data) as [message|]; [|done].
      destruct (Json.truthy message); [|done].
      destruct (Json.prop "content" message) as [content|]; [|done].
      destruct (Json.truthy content); [|done].
      cbn [Client.postMessage Client.posted]. apply Forall_app. by split; [|repeat constructor]. }
    destruct data; try done;
      (destruct (Json.truthyOpt _); [|done]); unfold Client.settle;
      by destruct (Client.settled c1).
Qed.

Lemma end_of_stream_resolves_witness :
  Client.result (Client.getOllamaChat (stdRuntime (fun _ => []))
                   (sampleConfig "http://localhost:11434")
                   (Client.Stream (map Client.Data [chunkHel; chunkExtra]
                                   ++ Client.End :: [Client.Error (lit "reset")]))
                   (lit "Say hello") true)
    = Some (Client.Resolved (lit "Hel!")).
Proof.
  refine (proj1 (end_of_stream_resolves (stdRuntime (fun _ => []))
            (sampleConfig "http://localhost:11434") (lit "Say hello") true
            [chunkHel; chunkExtra] [Client.Error (lit "reset")] _ _)).
  - reflexivity.
  - set (ls := streamLines _). vm_compute in ls. subst ls.
    repeat (constructor; [vm_compute; reflexivity|]). constructor.
Defined.

(** X10. A transport error before any [done] fragment and before the end
    of the stream rejects the call with that error, and nothing later
    changes that; as long as neither a [done] fragment nor the end nor an
    error has arrived, the call is not settled. *)
Theorem stream_error_rejects (rt : Runtime) (cfg : Config) (prompt : str)
    (webview : bool) (chunks : list str) (error : str) (later : list Client.streamEvent) :
  startsWith (lit "http") (apiUrl cfg) = true ->
  Forall (fun line => carriesDone rt line = false) (streamLines chunks) ->
  Client.result (Client.getOllamaChat rt cfg
                   (Client.Stream (map Client.Data chunks ++ Client.Error error :: later))
                   prompt webview)
    = Some (Client.Rejected error)
  /\ Client.result (Client.getOllamaChat rt cfg (Client.Stream (map Client.Data chunks))
                      prompt webview)
     = None.
Proof.
  intros Hurl Hnone. unfold Client.getOllamaChat. rewrite Hurl. cbn [negb].
  cbn [Client.result]. unfold Client.runStream.
  destruct (lines_state rt webview _ Hnone) as [Hs Hf].
  split.
  - rewrite foldl_app. cbn [foldl]. apply events_settled.
    rewrite data_events. cbn [Client.onEvent]. by rewrite settled_settle, Hs.
  - by rewrite data_events.
Qed.

Lemma stream_error_rejects_witness :
  Client.result (Client.getOllamaChat (stdRuntime (fun _ => []))
                   (sampleConfig "http://localhost:11434")
                   (Client.Stream (map Client.Data [chunkHel]
                                   ++ Client.Error (lit "reset") :: [Client.End]))
                   (lit "Say hello") true)
    = Some (Client.Rejected (lit "reset")).
Proof.
  refine (proj1 (stream_error_rejects (stdRuntime (fun _ => []))
            (sampleConfig "http://localhost:11434") (lit "Say hello") true
            [chunkHel] (lit "reset") [Client.End] _ _)).
  - reflexivity.
  - set (ls := streamLines _). vm_compute in ls. subst ls.
    repeat (constructor; [vm_compute; reflexivity|]). constructor.
Defined.

(** X11. The webview is only a listener: without it the call settles in the
    same way, with the same requests and messages to the user, and posts
    nothing. *)
Theorem chat_without_webview (rt : Runtime) (cfg : Config) (net : Client.transport)
    (prompt : str) :
  Client.result (Client.getOllamaChat rt cfg net prompt false)
    = Client.result (Client.getOllamaChat rt cfg net prompt true)
  /\ Client.effects (Client.getOllamaChat rt cfg net prompt false)
     = Client.effects (Client.getOllamaChat rt cfg net prompt true)
  /\ Client.messages (Client.getOllamaChat rt cfg net prompt false) = [].
Proof.
  unfold Client.getOllamaChat.
  destruct (negb _); [done|]. destruct net as [message|events]; [done|].
  cbn [Client.result Client.effects Client.messages].
  destruct (runStream_webview rt events) as [H1 H2]. by rewrite H1, H2.
Qed.

(** X12. Every streaming update carries the whole text so far: its
    [fullContent] is the [fullContent] of the update before it (the empty
    text for the first) followed by its own content, whatever the stream;
    and when a stream ends without a [done] fragment, the call resolves
    with the [fullContent] of the last update. *)
Theorem updates_are_cumulative (rt : Runtime) (cfg : Config) (prompt : str)
    (events : list Client.streamEvent) (chunks : list str) :
  startsWith (lit "http") (apiUrl cfg) = true ->
  is_Some (accumulate rt []
             (Client.messages (Client.getOllamaChat rt cfg (Client.Stream events) prompt true)))
  /\ (Forall (fun line => carriesDone rt line = false) (streamLines chunks) ->
      Client.Resolved
        <$> accumulate rt []
              (Client.messages (Client.getOllamaChat rt cfg
                  (Client.Stream (map Client.Data chunks ++ [Client.End])) prompt true))
      = Client.result (Client.getOllamaChat rt cfg
                         (Client.Stream (map Client.Data chunks ++ [Client.End])) prompt true)).
Proof.
  intros Hurl. unfold Client.getOllamaChat. rewrite Hurl. cbn [negb].
  cbn [Client.result Client.messages]. split.
  - rewrite runStream_accumulate. by eexists.
  - intros Hnone. rewrite runStream_accumulate. cbn [fmap option_fmap option_map].
    unfold Client.runStream. rewrite foldl_app, data_events. cbn [foldl Client.onEvent].
    destruct (lines_state rt true _ Hnone) as [Hs Hf].
    rewrite settled_settle, settled_postMessage, Hs. cbn [default].
    by rewrite fullResponse_settle.
Qed.

Lemma updates_are_cumulative_witness :
  is_Some (accumulate (stdRuntime (fun _ => [])) []
             (Client.messages (Client.getOllamaChat (stdRuntime (fun _ => []))
                (sampleConfig "http://localhost:11434")
                (Client.Stream [Client.Data chunkHel; Client.Data (chunkLo ++ chunkExtra);
                                Client.End])
                (lit "Say hello") true))).
Proof.
  refine (proj1 (updates_are_cumulative (stdRuntime (fun _ => []))
            (sampleConfig "http://localhost:11434") (lit "Say hello")
            [Client.Data chunkHel; Client.Data (chunkLo ++ chunkExtra); Client.End] [] _)).
  reflexivity.
Defined.

(** ** Writes of the edit orchestrator *)
Section WriteFacts.
Import Orchestrator.

Lemma openTextDocument_applyEdit h path text other :
  acceptsEdit h path = true ->
  openTextDocument (applyEdit h path text) other
  = if decide (other = path) then Some text else openTextDocument h other.
Proof.
  intros Hok. unfold applyEdit, openTextDocument. rewrite Hok. cbn [documents].
  destruct (decide (other = path)) as [->|Hne].
  - by rewrite lookup_insert_eq.
  - by rewrite lookup_insert_ne.
Qed.

Lemma applyEdit_refused h path text : acceptsEdit h path = false -> applyEdit h path text = h.
Proof. intros Hno. unfold applyEdit. by rewrite Hno. Qed.

(** When the host runs the dispose listeners inside [panel.dispose()], the
    listener resolves the promise first: no sequence of panel events
    resolves it to [true]. *)
Lemma resolution_notified events : resolution true events <> Some true.
Proof.
  induction events as [|[command|] more IH]; cbn [resolution]; [done| |done].
  destruct (str_eqb command (lit "apply")); [done|].
  by destruct (str_eqb command (lit "cancel")).
Qed.

Lemma applyCodeEdit_keeps_host h ui diffText filePath :
  (forall originalContent,
     openTextDocument h filePath = Some originalContent ->
     showDiffPreview ui originalContent
       (Diff.applyDiffToContent originalContent diffText) filePath <> Some true) ->
  fst (applyCodeEdit h ui diffText filePath) = h.
Proof.
  intros Hno. unfold applyCodeEdit.
  destruct (openTextDocument h filePath) as [originalContent|]; [|done].
  specialize (Hno originalContent eq_refl).
  by destruct (showDiffPreview _ _ _ _) as [[|]|].
Qed.

Lemma handleSuggestion_keeps_host ui st s :
  (forall original modified filePath description,
     showSideBySideDiffPreview ui original modified filePath description <> Some true) ->
  host (handleSuggestion ui st s) = host st.
Proof.
  intros Hno. unfold handleSuggestion.
  destruct (stuck st); [done|]. destruct (negb _); [done|].
  destruct (findFiles _ _ _ _) as [[|file files]|]; [done| |done].
  destruct (openTextDocument _ file) as [originalCode|]; [|done].
  pose proof (preview_keeps_host (host st) ui originalCode (Suggest.proposedContent s) file
                (Suggest.rationale s) (Hno _ _ _ _)) as Hkeep.
  destruct (previewCodeChange _ _ _ _ _ _) as [h' msgs]. by simpl in *.
Qed.

Lemma handleSuggestion_no_workspace ui st s :
  workspaceFolders (host st) = false -> handleSuggestion ui st s = st.
Proof. intros Hw. unfold handleSuggestion. rewrite Hw. by destruct (stuck st). Qed.

End WriteFacts.

(** X13. An approved preview writes the proposed text to the target file
    and to no other: afterwards the target reads as the new code and every
    other document as before.  The message [Applied changes to ...] is
    shown whether or not the host let the edit through (the result of
    [applyEdit] is not looked at); a target that cannot be opened gives
    [Preview failed] and no write. *)
Theorem approved_preview_writes_target (h : Host) (ui : Orchestrator.Surface)
    (originalCode newCode filePath description : str) :
  Orchestrator.showSideBySideDiffPreview ui originalCode newCode filePath description
    = Some true ->
  let after := Orchestrator.previewCodeChange h ui originalCode newCode filePath description in
  (is_Some (openTextDocument h filePath) ->
   snd after = [ShowInfo (lit "Applied changes to " ++ basename h filePath)]
   /\ (acceptsEdit h filePath = true ->
       openTextDocument (fst after) filePath = Some newCode
       /\ forall other, other <> filePath ->
            openTextDocument (fst after) other = openTextDocument h other)
   /\ (acceptsEdit h filePath = false -> fst after = h))
  /\ (openTextDocument h filePath = None ->
      after = (h, [ShowErrorWith (lit "Preview failed: ")])).
Proof.
  intros Hyes after. subst after. unfold Orchestrator.previewCodeChange. rewrite Hyes.
  split.
  - intros [old Hold]. rewrite Hold. cbn [fst snd]. split; [done|]. split.
    + intros Hok. rewrite !openTextDocument_applyEdit by done.
      rewrite decide_True by done. split; [done|].
      intros other Hne. rewrite openTextDocument_applyEdit by done.
      by rewrite decide_False.
    + intros Hno. by apply applyEdit_refused.
  - by intros ->.
Qed.

Lemma approved_preview_writes_target_witness :
  openTextDocument
    (fst (Orchestrator.previewCodeChange fooHost approvingSurface
            (lit "const x = 0;") (lit "const x = 1;") (lit "/w/foo.ts") (lit "Fix typo")))
    (lit "/w/foo.ts")
  = Some (lit "const x = 1;").
Proof.
  refine (proj1 (proj1 (proj2 (proj1 (approved_preview_writes_target fooHost approvingSurface
            (lit "const x = 0;") (lit "const x = 1;") (lit "/w/foo.ts") (lit "Fix typo") _)
            _)) _)).
  - reflexivity.
  - by eexists.
  - reflexivity.
Defined.

(** X14. [applyCodeEdit] writes only what the user approved: if the diff
    preview does not resolve to an approval (or the file cannot be opened),
    the host is left as it is; after an approval the target reads as the
    result of applying the diff to its text, and every other document as
    before. *)
Theorem applyCodeEdit_writes_patched (h : Host) (ui : Orchestrator.Surface)
    (diffText filePath originalContent : str) :
  openTextDocument h filePath = Some originalContent ->
  let newContent := Diff.applyDiffToContent originalContent diffText in
  let after := Orchestrator.applyCodeEdit h ui diffText filePath in
  (Orchestrator.showDiffPreview ui originalContent newContent filePath <> Some true ->
   fst after = h)
  /\ (Orchestrator.showDiffPreview ui originalContent newContent filePath = Some true ->
      acceptsEdit h filePath = true ->
      openTextDocument (fst after) filePath = Some newContent
      /\ forall other, other <> filePath ->
           openTextDocument (fst after) other = openTextDocument h other).
Proof.
  intros Hdoc newContent after. subst newContent after. split.
  - intros Hno. apply applyCodeEdit_keeps_host. intros o Ho.
    rewrite Hdoc in Ho. by injection Ho as <-.
  - intros Hyes Hok. unfold Orchestrator.applyCodeEdit. rewrite Hdoc, Hyes. cbn [fst].
    rewrite openTextDocument_applyEdit by done. rewrite decide_True by done.
    split; [done|]. intros other Hne. rewrite openTextDocument_applyEdit by done.
    by rewrite decide_False.
Qed.

Lemma applyCodeEdit_writes_patched_witness :
  openTextDocument
    (fst (Orchestrator.applyCodeEdit fooHost approvingSurface (lit "@@ -1,1 +1,1 @@
-const x = 0;
+const x = 1;") (lit "/w/foo.ts")))
    (lit "/w/foo.ts")
  = Some (lit "const x = 1;").
Proof.
  refine (proj1 (proj2 (applyCodeEdit_writes_patched fooHost approvingSurface
            (lit "@@ -1,1 +1,1 @@
-const x = 0;
+const x = 1;") (lit "/w/foo.ts") (lit "const x = 0;") _) _ _)).
  - reflexivity.
  - reflexivity.
  - reflexivity.
Defined.

(** X15. Handling the suggestions of a response writes nothing the user
    did not approve: with a surface on which no preview resolves to an
    approval, the host is the same after any response, however many
    suggestions it holds; and without an open workspace nothing happens at
    all: no preview, no message, no write. *)
Theorem suggestions_write_nothing_unapproved (h : Host) (ui : Orchestrator.Surface)
    (response : str) :
  ((forall original modified filePath description,
      Orchestrator.showSideBySideDiffPreview ui original modified filePath description
        <> Some true) ->
   Orchestrator.host (Orchestrator._parseAndHandleCodeSuggestions h ui response) = h)
  /\ (workspaceFolders h = false ->
      Orchestrator._parseAndHandleCodeSuggestions h ui response
      = Orchestrator.Handling h [] false).
Proof.
  unfold Orchestrator._parseAndHandleCodeSuggestions. split.
  - intros Hno.
    assert (forall st, Orchestrator.host
                         (foldl (Orchestrator.handleSuggestion ui) st
                                (Suggest.parseSuggestions response))
                       = Orchestrator.host st) as H; [|by rewrite H].
    induction (Suggest.parseSuggestions response) as [|s ss IH]; intros st; [done|].
    cbn [foldl]. rewrite IH. by apply handleSuggestion_keeps_host.
  - intros Hw.
    induction (Suggest.parseSuggestions response) as [|s ss IH]; [done|].
    cbn [foldl]. by rewrite handleSuggestion_no_workspace.
Qed.

(** X16. On a host that runs the [onDidDispose] listeners inside
    [panel.dispose()], a click on [Apply Changes] applies nothing: the
    handler disposes the panel before it resolves, so the listener's
    [resolve(false)] comes first.  Neither [previewCodeChange] nor
    [applyCodeEdit] changes the host then, whatever the user does. *)
Theorem apply_after_dispose_is_lost (h : Host) (ui : Orchestrator.Surface)
    (originalCode newCode filePath description diffText : str) :
  Orchestrator.disposeNotifies ui = true ->
  fst (Orchestrator.previewCodeChange h ui originalCode newCode filePath description) = h
  /\ fst (Orchestrator.applyCodeEdit h ui diffText filePath) = h.
Proof.
  intros Hn. split.
  - apply preview_keeps_host. unfold Orchestrator.showSideBySideDiffPreview.
    rewrite Hn. apply resolution_notified.
  - apply applyCodeEdit_keeps_host. intros o _. unfold Orchestrator.showDiffPreview.
    rewrite Hn. apply resolution_notified.
Qed.

Lemma apply_after_dispose_is_lost_witness :
  fst (Orchestrator.previewCodeChange fooHost notifyingSurface
         (lit "const x = 0;") (lit "const x = 1;") (lit "/w/foo.ts") (lit "Fix typo"))
  = fooHost.
Proof.
  refine (proj1 (apply_after_dispose_is_lost fooHost notifyingSurface
            (lit "const x = 0;") (lit "const x = 1;") (lit "/w/foo.ts") (lit "Fix typo")
            [] _)).
  reflexivity.
Defined.

(** ** The history between chat turns *)
Section RetentionFacts.
Import History.

Lemma sendAll_retained h cfg history msgs :
  retained cfg = true -> Forall isChat msgs ->
  sendAll h cfg history msgs = history ++ turns msgs.
Proof.
  intros Hflag. induction msgs as [|m msgs IH] using rev_ind; intros Hall.
  - simpl. by rewrite app_nil_r.
  - apply Forall_app in Hall as [Hall Hm]. apply Forall_inv in Hm. unfold isChat in Hm.
    rewrite sendAll_snoc, IH by done. unfold sendMessage, recordTurn.
    rewrite Hm, Hflag. cbn [negb]. unfold turns. rewrite map_app. cbn [map].
    by rewrite <- app_assoc.
Qed.

Lemma _handleCommand_grows h command history :
  _handleCommand h command history = history
  \/ exists entry, _handleCommand h command history = history ++ [entry].
Proof.
  unfold _handleCommand. destruct (str_eqb _ _); [|by left].
  destruct (Nat.ltb _ _); [by left|].
  destruct (openTextDocument _ _); [right; by eexists|by left].
Qed.

End RetentionFacts.

(** X17. What the history keeps: with retention switched on, chat turns
    are only ever added; with retention off, the history has at most ten
    entries right after every chat turn, namely the last ten of what it
    held plus the new turn; and a command never removes an entry (it adds at
    most one), so that between two chat turns the history can grow past
    ten. *)
Theorem history_retention (h : Host) (cfg : Config) (history : list str) :
  (History.retained cfg = true ->
   forall msgs, Forall isChat msgs -> sendAll h cfg history msgs = history ++ turns msgs)
  /\ (History.retained cfg = false ->
      forall userMsg response, isChat (userMsg, response) ->
        History.sendMessage h cfg history userMsg response
          = slice (-10) (history ++ [History.turn userMsg response])
        /\ (length (History.sendMessage h cfg history userMsg response) <= 10)%nat)
  /\ (forall command response, startsWith (lit "/") command = true ->
        History.sendMessage h cfg history command response = history
        \/ exists entry,
             History.sendMessage h cfg history command response = history ++ [entry]).
Proof.
  split; [|split].
  - intros Hflag msgs Hall. by apply sendAll_retained.
  - intros Hflag userMsg response Hchat. unfold isChat in Hchat. cbn [fst] in Hchat.
    unfold History.sendMessage, History.recordTurn. rewrite Hchat, Hflag. cbn [negb].
    split; [done|]. rewrite (slice_neg_drop 10) by lia. rewrite length_drop. lia.
  - intros command response Hcmd. unfold History.sendMessage. rewrite Hcmd.
    apply _handleCommand_grows.
Qed.

(** ** Commands and their arguments *)
Section CommandFacts.
Import Commands.

(** The history-only reading of [_handleCommand] is the history of the
    full one. *)
Lemma _handleCommand_history h command chatHistory :
  history (_handleCommand h command chatHistory)
  = History._handleCommand h command chatHistory.
Proof.
  unfold _handleCommand, History._handleCommand.
  repeat match goal with
         | |- context [if ?b then _ else _] => destruct b; cbn [history]
         | |- context [match ?o with Some _ => _ | None => _ end] => destruct o; cbn [history]
         end; reflexivity.
Qed.

Lemma split_app_sep sep a b : split sep (a ++ sep :: b) = split sep a ++ split sep b.
Proof.
  induction a as [|c a IH]; simpl.
  - by rewrite ascii_eqb_refl.
  - rewrite IH. destruct (ascii_eqb c sep); [done|].
    pose proof (split_nonempty sep a) as Hne. by destruct (split sep a).
Qed.

Lemma split_without_sep sep w : Forall (fun c => c <> sep) w -> split sep w = [w].
Proof.
  induction 1 as [|c w Hc _ IH]; [done|]. simpl.
  by rewrite (proj2 (ascii_eqb_neq c sep) Hc), IH.
Qed.

(** The parts of a command: its word, then the parts of the rest. *)
Lemma split_command word text :
  oneWord word -> split " " (word ++ lit " " ++ text) = word :: split " " text.
Proof.
  intros Hw. change (word ++ lit " " ++ text) with (word ++ " "%char :: text).
  by rewrite split_app_sep, split_without_sep.
Qed.

(** A word that lower-cases to a command without a space has none. *)
Lemma command_word word (name : string) :
  toLowerCase word = lit name -> " "%char ∉ lit name -> oneWord word.
Proof.
  intros Hlow Hname. apply Forall_forall. intros c Hc ->. apply Hname.
  rewrite <- Hlow. unfold toLowerCase.
  change " "%char with (lowerChar " "). by apply list_elem_of_fmap_2.
Qed.

Lemma length_split_pos sep s : (1 <= length (split sep s))%nat.
Proof. pose proof (split_nonempty sep s). destruct (split sep s); [done|simpl; lia]. Qed.

End CommandFacts.

(** X18. The arguments of a command arrive as they were typed: whatever
    the case of the command word, [/exec] sends the whole rest of the line
    to the terminal, [/read] opens the path that is the whole rest of the
    line (spaces included), and [/write] writes the whole text after the
    path, with every space of it. *)
Theorem command_arguments_verbatim (h : Host) (history : list str)
    (word path text : str) :
  oneWord path ->
  (toLowerCase word = lit "/exec" ->
   Commands._handleCommand h (word ++ lit " " ++ text) history
   = Commands.Run history [Commands.Reply (lit "Executed: " ++ text)]
       [Commands.TerminalSend text] true)
  /\ (toLowerCase word = lit "/write" ->
      Commands._handleCommand h (word ++ lit " " ++ path ++ lit " " ++ text) history
      = Commands.Run history [Commands.Reply (lit "Successfully wrote to " ++ path)]
          [Commands.WriteEdit path text] true)
  /\ (toLowerCase word = lit "/read" ->
      Commands.history (Commands._handleCommand h (word ++ lit " " ++ text) history)
      = match openTextDocument h text with
        | Some content => history ++ [lit "Read file: " ++ text ++ [nl] ++ content]
        | None => history
        end).
Proof.
  intros Hpath. split; [|split]; intros Hword.
  - pose proof (command_word word "/exec" Hword ltac:(by vm_compute; set_solver)) as Hw.
    unfold Commands._handleCommand. rewrite split_command by done. cbn [head default from_option id].
    rewrite Hword. change (str_eqb (lit "/exec") (lit "/read")) with false.
    change (str_eqb (lit "/exec") (lit "/write")) with false.
    change (str_eqb (lit "/exec") (lit "/exec")) with true. cbv iota.
    pose proof (length_split_pos " " text) as Hlen.
    replace (Nat.ltb (length (word :: split " " text)) 2) with false
      by (symmetry; apply Nat.ltb_ge; simpl; lia).
    cbn [drop]. rewrite drop_0. change (lit " ") with [" "%char]. by rewrite join_split.
  - pose proof (command_word word "/write" Hword ltac:(by vm_compute; set_solver)) as Hw.
    unfold Commands._handleCommand. rewrite split_command by done.
    rewrite split_command by done. cbn [head default from_option id].
    rewrite Hword. change (str_eqb (lit "/write") (lit "/read")) with false.
    change (str_eqb (lit "/write") (lit "/write")) with true. cbv iota.
    pose proof (length_split_pos " " text) as Hlen.
    replace (Nat.ltb (length (word :: path :: split " " text)) 3) with false
      by (symmetry; apply Nat.ltb_ge; simpl; lia).
    cbn [drop lookup list_lookup default from_option id]. rewrite drop_0.
    change (lit " ") with [" "%char]. by rewrite join_split.
  - pose proof (command_word word "/read" Hword ltac:(by vm_compute; set_solver)) as Hw.
    unfold Commands._handleCommand. rewrite split_command by done. cbn [head default from_option id].
    rewrite Hword. change (str_eqb (lit "/read") (lit "/read")) with true. cbv iota.
    pose proof (length_split_pos " " text) as Hlen.
    replace (Nat.ltb (length (word :: split " " text)) 2) with false
      by (symmetry; apply Nat.ltb_ge; simpl; lia).
    cbn [drop]. rewrite drop_0. change (lit " ") with [" "%char]. rewrite join_split.
    by destruct (openTextDocument h text).
Qed.

Lemma command_arguments_verbatim_witness :
  Commands._handleCommand fooHost (lit "/Write /w/a.txt x  =  1
y") []
  = Commands.Run [] [Commands.Reply (lit "Successfully wrote to /w/a.txt")]
      [Commands.WriteEdit (lit "/w/a.txt") (lit "x  =  1
y")] true.
Proof.
  refine (proj1 (proj2 (command_arguments_verbatim fooHost [] (lit "/Write") (lit "/w/a.txt")
            (lit "x  =  1
y") _)) _).
  - repeat (constructor; [by vm_compute|]). constructor.
  - reflexivity.
Defined.

(** X19. A command without the arguments it needs does nothing but reply
    with its usage: [/read] and [/exec] with nothing after the word,
    [/write] with nothing or only a path after it.  The history stays as
    it is, nothing is written and no terminal is opened. *)
Theorem command_usage (h : Host) (history : list str) (word path : str) :
  oneWord path ->
  (toLowerCase word = lit "/read" ->
   Commands._handleCommand h word history
   = Commands.Run history [Commands.Reply (lit "Usage: /read <filepath>")] [] true)
  /\ (toLowerCase word = lit "/exec" ->
      Commands._handleCommand h word history
      = Commands.Run history [Commands.Reply (lit "Usage: /exec <command>")] [] true)
  /\ (toLowerCase word = lit "/write" ->
      Commands._handleCommand h word history
      = Commands.Run history [Commands.Reply (lit "Usage: /write <filepath> <content>")]
          [] true
      /\ Commands._handleCommand h (word ++ lit " " ++ path) history
         = Commands.Run history [Commands.Reply (lit "Usage: /write <filepath> <content>")]
             [] true).
Proof.
  intros Hpath. split; [|split]; intros Hword.
  - pose proof (command_word word "/read" Hword ltac:(by vm_compute; set_solver)) as Hw.
    unfold Commands._handleCommand. rewrite split_without_sep by done.
    cbn [head default from_option id]. by rewrite Hword.
  - pose proof (command_word word "/exec" Hword ltac:(by vm_compute; set_solver)) as Hw.
    unfold Commands._handleCommand. rewrite split_without_sep by done.
    cbn [head default from_option id]. by rewrite Hword.
  - pose proof (command_word word "/write" Hword ltac:(by vm_compute; set_solver)) as Hw.
    unfold Commands._handleCommand. split.
    + rewrite split_without_sep by done. cbn [head default from_option id]. by rewrite Hword.
    + rewrite split_command, (split_without_sep " " path) by done.
      cbn [head default from_option id]. by rewrite Hword.
Qed.

Lemma command_usage_witness :
  Commands._handleCommand fooHost (lit "/WRITE /w/a.txt") [lit "Attached: n"]
  = Commands.Run [lit "Attached: n"]
      [Commands.Reply (lit "Usage: /write <filepath> <content>")] [] true.
Proof.
  refine (proj2 (proj2 (proj2 (command_usage fooHost [lit "Attached: n"] (lit "/WRITE")
            (lit "/w/a.txt") _)) _)).
  - repeat (constructor; [by vm_compute|]). constructor.
  - reflexivity.
Defined.

(** ** A chat turn from end to end *)
Section TurnFacts.
Import Handler.

Lemma turn_with_plain_response h ui rt cfg net chatHistory userMsg response :
  startsWith (lit "/") userMsg = false ->
  Client.result (Client.getOllamaChat rt cfg net
                   (Assembler._buildChatPrompt h chatHistory userMsg) true)
    = Some (Client.Resolved response) ->
  Suggest.parseSuggestions response = [] ->
  history (onSendMessage h ui rt cfg net chatHistory userMsg)
    = History.recordTurn cfg chatHistory userMsg response
  /\ host (onSendMessage h ui rt cfg net chatHistory userMsg) = h
  /\ completed (onSendMessage h ui rt cfg net chatHistory userMsg) = true.
Proof.
  intros Hchat Hres Hnone. unfold onSendMessage. rewrite Hchat, Hres.
  unfold Orchestrator._parseAndHandleCodeSuggestions. rewrite Hnone. done.
Qed.

End TurnFacts.

(** X20. What a chat turn records.  The error texts that the model client
    returns instead of throwing are recorded like answers: with an address
    that does not start with [http] the turn is recorded with the response
    [Invalid Ollama URL.] (and nothing is requested), with a failed
    connection it is recorded with [Error connecting to Ollama.].  When the
    stream is rejected, or never settles, nothing is recorded and the
    handler does not finish. *)
Theorem what_a_turn_records (h : Host) (ui : Orchestrator.Surface) (rt : Runtime)
    (cfg : Config) (chatHistory : list str) (userMsg : str) :
  startsWith (lit "/") userMsg = false ->
  (startsWith (lit "http") (apiUrl cfg) = false ->
   forall net,
     Handler.history (Handler.onSendMessage h ui rt cfg net chatHistory userMsg)
       = History.recordTurn cfg chatHistory userMsg (lit "Invalid Ollama URL.")
     /\ List.filter isPost
          (Handler.effects (Handler.onSendMessage h ui rt cfg net chatHistory userMsg)) = [])
  /\ (startsWith (lit "http") (apiUrl cfg) = true ->
      (forall message,
         Handler.history (Handler.onSendMessage h ui rt cfg (Client.ConnectFails message)
                            chatHistory userMsg)
         = History.recordTurn cfg chatHistory userMsg (lit "Error connecting to Ollama."))
      /\ (forall events,
            (forall response, Client.settled (Client.runStream rt true events)
                              <> Some (Client.Resolved response)) ->
            Handler.history (Handler.onSendMessage h ui rt cfg (Client.Stream events)
                               chatHistory userMsg) = chatHistory
            /\ Handler.host (Handler.onSendMessage h ui rt cfg (Client.Stream events)
                               chatHistory userMsg) = h
            /\ Handler.completed (Handler.onSendMessage h ui rt cfg (Client.Stream events)
                                    chatHistory userMsg) = false)).
Proof.
  intros Hchat. split; [|intros H; split].
  - intros Hurl net.
    assert (Client.getOllamaChat rt cfg net
              (Assembler._buildChatPrompt h chatHistory userMsg) true
            = Client.ChatRun (Some (Client.Resolved (lit "Invalid Ollama URL."))) []
                [Client.invalidUrlWarning cfg]) as Hrun.
    { unfold Client.getOllamaChat. by rewrite Hurl. }
    split.
    + apply turn_with_plain_response; [done|by rewrite Hrun|by vm_compute].
    + unfold Handler.onSendMessage. rewrite Hchat, Hrun. cbn [Client.result Client.effects].
      change (Suggest.parseSuggestions (lit "Invalid Ollama URL.")) with (@nil Suggest.Suggestion)
        || (unfold Orchestrator._parseAndHandleCodeSuggestions;
            replace (Suggest.parseSuggestions (lit "Invalid Ollama URL."))
              with (@nil Suggest.Suggestion) by (by vm_compute)).
      done.
  - intros message. apply turn_with_plain_response; [done| |by vm_compute].
    unfold Client.getOllamaChat. by rewrite H.
  - intros events Hnot. unfold Handler.onSendMessage. rewrite Hchat.
    unfold Client.getOllamaChat. rewrite H. cbn [negb Client.result Client.effects Client.messages].
    destruct (Client.settled (Client.runStream rt true events)) as [[response|error]|] eqn:E;
      [by destruct (Hnot response)|done|done].
Qed.

Lemma what_a_turn_records_witness :
  Handler.history (Handler.onSendMessage bareHost dismissingSurface (stdRuntime (fun _ => []))
                     (sampleConfig "localhost:11434") (Client.Stream [])
                     [] (lit "hello"))
  = [lit "User: hello
AICA: Invalid Ollama URL."].
Proof.
  refine (proj1 (proj1 (what_a_turn_records bareHost dismissingSurface
            (stdRuntime (fun _ => [])) (sampleConfig "localhost:11434") [] (lit "hello") _)
            _ (Client.Stream []))).
  - reflexivity.
  - reflexivity.
Defined.



(** ** What the history selection keeps *)
Section SelectionFacts.
Import Assembler.

Lemma insertSorted_perm {A} (after : A -> A -> bool) x l : insertSorted after x l ≡ₚ x :: l.
Proof.
  induction l as [|y l IH]; simpl; [done|].
  destruct (after x y); [|done]. rewrite IH. apply Permutation_swap.
Qed.

Lemma sortWith_perm {A} (after : A -> A -> bool) l : sortWith after l ≡ₚ l.
Proof.
  unfold sortWith. induction l as [|x l IH]; simpl; [done|].
  by rewrite insertSorted_perm, IH.
Qed.

Lemma fmap_fst_imap {A B} (f : nat -> A -> B) (l : list A) :
  fst <$> imap (fun i x => (x, f i x)) l = l.
Proof.
  revert f. induction l as [|x l IH]; intros f; [done|].
  rewrite imap_cons. cbn [fmap list_fmap fst]. f_equal. apply (IH (f ∘ S)).
Qed.

Lemma nonEmpty_filter_app (a b : list str) :
  List.filter (fun l => negb (str_eqb l [])) (a ++ b)
  = List.filter (fun l => negb (str_eqb l [])) a
    ++ List.filter (fun l => negb (str_eqb l [])) b.
Proof. apply List.filter_app. Qed.

(** Adding a line keeps the lines selected so far and adds at most that
    line. *)
Lemma addLine_lines maxLength result line :
  oneLine line ->
  nonEmptyLines (addLine maxLength result line) = nonEmptyLines result
  \/ nonEmptyLines (addLine maxLength result line) = nonEmptyLines result ++ [line].
Proof.
  intros Hline. unfold addLine. destruct (_ <=? _); [|by left].
  unfold nonEmptyLines. destruct result as [|c result].
  - cbn [truthy app]. rewrite split_of_oneLine by done. cbn [split List.filter].
    destruct line; [by left|by right].
  - cbn [truthy]. change ((c :: result) ++ [nl] ++ line) with ((c :: result) ++ nl :: line).
    rewrite split_app_nl, nonEmpty_filter_app, (split_of_oneLine line) by done.
    cbn [List.filter]. destruct line; [left; by rewrite app_nil_r|by right].
Qed.

Lemma filter_sublist_of (l : list str) :
  List.filter (fun l => negb (str_eqb l [])) l `sublist_of` l.
Proof.
  induction l as [|x l IH]; [done|]. simpl.
  destruct (negb _); [by apply sublist_skip|by apply sublist_cons].
Qed.

Lemma foldl_addLine_lines maxLength result (items : list (str * Q)) :
  Forall oneLine (fst <$> items) ->
  exists chosen, chosen `sublist_of` (fst <$> items)
    /\ nonEmptyLines (foldl (fun r item => addLine maxLength r (fst item)) result items)
       = nonEmptyLines result ++ chosen.
Proof.
  revert result. induction items as [|item items IH]; intros result Hall.
  - exists []. by rewrite app_nil_r.
  - cbn [fmap list_fmap] in Hall. apply Forall_cons in Hall as [Hitem Hall].
    cbn [foldl].
    destruct (IH (addLine maxLength result (fst item)) Hall) as (chosen & Hsub & Heq).
    destruct (addLine_lines maxLength result (fst item) Hitem) as [Hsame|Hadd].
    + exists chosen. split; [by apply sublist_cons|]. by rewrite Heq, Hsame.
    + exists (fst item :: chosen). split; [by apply sublist_skip|].
      by rewrite Heq, Hadd, <- app_assoc.
Qed.

End SelectionFacts.

(** X22. The history that goes into the prompt is made of lines of the
    history: a history that fits is passed on whole, and otherwise the
    selection has at most [maxLength] characters and its non-empty lines
    are lines of the history, none taken more often than the history has
    it (they are reordered by score). *)
Theorem selection_is_made_of_history_lines (history : list str) (currentMsg : str)
    (maxLength : Z) :
  (Assembler.strlen (join [nl] history) <= maxLength ->
   Assembler._getRelevantContext history currentMsg maxLength = join [nl] history)
  /\ Assembler.strlen (Assembler._getRelevantContext history currentMsg maxLength)
     <= Z.max 0 maxLength
  /\ nonEmptyLines (Assembler._getRelevantContext history currentMsg maxLength)
     ⊆+ split nl (join [nl] history).
Proof.
  split; [|split; [apply relevantContext_bound|]].
  - intros Hfit. unfold Assembler._getRelevantContext.
    destruct history as [|t history]; [done|].
    by rewrite (proj2 (Z.leb_le _ _) Hfit).
  - unfold Assembler._getRelevantContext.
    destruct history as [|t history]; [by apply submseteq_nil_l|].
    set (full := join [nl] (t :: history)).
    destruct (_ <=? maxLength).
    { apply sublist_submseteq, filter_sublist_of. }
    match goal with
    | |- context [foldl _ [] (Assembler.sortWith ?f ?l)] => set (sorted := Assembler.sortWith f l)
    end.
    assert (fst <$> sorted ≡ₚ split nl full) as Hperm.
    { subst sorted. rewrite sortWith_perm. by rewrite fmap_fst_imap. }
    destruct (foldl_addLine_lines maxLength [] sorted) as (chosen & Hsub & Heq).
    { rewrite Hperm. apply split_oneLine. }
    rewrite Heq. change (nonEmptyLines []) with (@nil str). cbn [app].
    rewrite <- Hperm. by apply sublist_submseteq.
Qed.

(** ** The codebase context, the line score and the code keywords *)
Section ContextFacts.
Import Assembler.

(** The file loop only ever appends to the context. *)
Lemma addFiles_extends h topFiles context remainingLength :
  exists more, addFiles h topFiles context remainingLength = context ++ more.
Proof.
  revert context remainingLength.
  induction topFiles as [|fileInfo rest IH]; intros context remaining; simpl.
  - exists []. by rewrite app_nil_r.
  - destruct (remaining <? 200); [exists []; by rewrite app_nil_r|].
    destruct (openTextDocument h (fst fileInfo)) as [content|]; [|apply IH].
    match goal with |- context [strlen ?fs <=? remaining] => set (fileSection := fs) end.
    destruct (strlen fileSection <=? remaining); [|apply IH].
    destruct (IH (context ++ fileSection) (remaining - strlen fileSection)) as [more ->].
    exists (fileSection ++ more). by rewrite <- app_assoc.
Qed.

(** Without a readable file the context stays as it is. *)
Lemma addFiles_unreadable h topFiles context remainingLength :
  Forall (fun fileInfo => openTextDocument h (fst fileInfo) = None) topFiles ->
  addFiles h topFiles context remainingLength = context.
Proof.
  induction 1 as [|fileInfo rest Hf _ IH]; simpl; [done|].
  destruct (remainingLength <? 200); [done|]. by rewrite Hf.
Qed.

Lemma List_filter_sublist {A} (p : A -> bool) (l : list A) : List.filter p l `sublist_of` l.
Proof.
  induction l as [|x l IH]; [done|]. simpl.
  destruct (p x); [by apply sublist_skip|by apply sublist_cons].
Qed.

Lemma cleanKeyword_chars mt : Forall (fun c => isLowerWord c = true) (cleanKeyword mt).
Proof.
  unfold cleanKeyword, toLowerCase. apply Forall_forall. intros c Hc.
  apply list_elem_of_In, filter_In in Hc as [Hin Hw].
  apply list_elem_of_In, list_elem_of_fmap in Hin as (c0 & -> & _).
  unfold isLowerWord. by rewrite Hw, lowerChar_not_upper.
Qed.

End ContextFacts.

(** X23. The codebase context is all or nothing: it is empty, or it begins
    with the line [CODEBASE CONTEXT:] and has more than 50 and at most
    [maxLength] characters.  It is empty without a workspace, for a budget
    below 100, when the file search fails, and when none of the files found
    can be read. *)
Theorem codebase_context_shape (h : Host) (userMsg : str) (maxLength : Z) :
  (Assembler._getRelevantCodebaseContext h userMsg maxLength = []
   \/ (startsWith (lit "CODEBASE CONTEXT:
") (Assembler._getRelevantCodebaseContext h userMsg maxLength) = true
       /\ 50 < Assembler.strlen (Assembler._getRelevantCodebaseContext h userMsg maxLength)
          <= maxLength))
  /\ (workspaceFolders h = false \/ maxLength < 100
      \/ findFiles h (lit "**/*.{ts,js,py,rs,go,jsx,tsx,cpp,c,java,json,md,txt,yml,yaml}")
           (lit "**/node_modules/**") 30 = None
      \/ (forall file, openTextDocument h file = None) ->
      Assembler._getRelevantCodebaseContext h userMsg maxLength = []).
Proof.
  split.
  - pose proof (codebase_bound h userMsg maxLength) as Hbound.
    unfold Assembler._getRelevantCodebaseContext in *. revert Hbound.
    destruct (negb (workspaceFolders h) || (maxLength <? 100))%bool eqn:Hguard; [by left|].
    destruct (findFiles h _ _ _) as [files|]; [|by left].
    match goal with
    | |- context [Assembler.addFiles h ?tf ?ctx ?rem] =>
        destruct (addFiles_extends h tf ctx rem) as [more Hmore];
        set (context := Assembler.addFiles h tf ctx rem) in *
    end.
    destruct (50 <? Assembler.strlen context) eqn:Hlen; [|by left].
    intros Hbound. right. apply Z.ltb_lt in Hlen. split; [|lia].
    rewrite Hmore. apply startsWith_refl_app.
  - intros Hcase. unfold Assembler._getRelevantCodebaseContext.
    destruct (negb (workspaceFolders h) || (maxLength <? 100))%bool eqn:Hguard; [done|].
    apply orb_false_iff in Hguard as [Hw Hmax].
    apply negb_false_iff in Hw. apply Z.ltb_ge in Hmax.
    destruct Hcase as [Hno|[Hlt|[Hnone|Hunread]]]; [congruence|lia|by rewrite Hnone|].
    destruct (findFiles h _ _ _) as [files|]; [|done].
    rewrite addFiles_unreadable; [done|].
    apply Forall_forall. intros fileInfo _. apply Hunread.
Qed.



(** X25. The code keywords found in a message have no duplicates, and each
    is made of at least three lower-case word characters: whatever the
    patterns match is lower-cased and stripped of everything else, and
    what is left with one or two characters (the extensions [.ts], [.js],
    [.py], [.rs], [.go], [.c]) is dropped. *)
Theorem code_keywords_are_clean (text : str) :
  NoDup (Assembler._extractCodeKeywords text)
  /\ Forall (fun k => (3 <= length k)%nat /\ Forall (fun c => isLowerWord c = true) k)
            (Assembler._extractCodeKeywords text)
  /\ Assembler._extractCodeKeywords (lit "see a.ts, b.PY and util.tsx")
     = [lit "util"; lit "tsx"].
Proof.
  split; [|split].
  - unfold Assembler._extractCodeKeywords.
    eapply sublist_NoDup; [apply uniq_NoDup|apply List_filter_sublist].
  - unfold Assembler._extractCodeKeywords. apply Forall_forall. intros k Hk.
    apply list_elem_of_In, filter_In in Hk as [Hk Hlen].
    apply Nat.ltb_lt in Hlen. split; [lia|].
    apply list_elem_of_In, uniq_elem, list_elem_of_In, in_concat in Hk as (ks & Hks & Hk).
    apply in_map_iff in Hks as (pattern & <- & _).
    apply in_map_iff in Hk as (r & <- & _).
    apply cleanKeyword_chars.
  - vm_compute. reflexivity.
Qed.

(** ** Scanning the codebase *)
Section ScanFacts.
Import Workspace Assembler.

Lemma indexFiles_readable h files index :
  Forall (fun file => is_Some (openTextDocument h file)) files ->
  exists more,
    indexFiles h files index = Some (index ++ more)
    /\ strlen more <= foldr (fun file n => strlen file + 514 + n) 0 files.
Proof.
  intros Hall. revert index.
  induction Hall as [|file files [text Hf] _ IH]; intros index.
  - exists []. by rewrite app_nil_r.
  - cbn [indexFiles foldr]. rewrite Hf.
    match goal with |- context [indexFiles h files ?i] => destruct (IH i) as (more & -> & Hlen) end.
    eexists. split; [by rewrite <- !app_assoc|].
    rewrite !strlen_app.
    change (strlen (lit "
--- ")) with 5. change (strlen (lit " ---
")) with 5. change (strlen (lit "...
")) with 4.
    assert (strlen (substringTo 500 text) <= 500)
      by (unfold strlen, substringTo; rewrite length_take; lia).
    lia.
Qed.

Lemma indexFiles_unreadable h files index :
  Exists (fun file => openTextDocument h file = None) files ->
  indexFiles h files index = None.
Proof.
  intros Hex. revert index.
  induction files as [|file files IH]; intros index; [by apply Exists_nil in Hex|].
  cbn [indexFiles]. destruct (openTextDocument h file) eqn:E; [|done].
  apply IH. apply Exists_cons in Hex as [Hf|Hex]; [congruence|done].
Qed.

End ScanFacts.

(** X26. Scanning the codebase is all or nothing: when each of the first
    ten files found can be opened, exactly one entry is added to the
    history, which begins with [Codebase Index:] and has at most 514
    characters per file besides the paths; when one of them cannot be
    opened, the command fails and the history stays as it is, with no
    message. *)
Theorem scan_is_all_or_nothing (h : Host) (chatHistory : list str) (files : list str) :
  workspaceFolders h = true ->
  findFiles h (lit "**/*.{ts,js,py,rs,go,jsx,tsx,cpp,c,java}") (lit "**/node_modules/**") 20
    = Some files ->
  (Forall (fun file => is_Some (openTextDocument h file)) (take 10 files) ->
   exists index,
     Workspace.scanCodebase h chatHistory
     = Workspace.Run (chatHistory ++ [index])
         [ShowInfo (lit "Codebase indexed and added to AICA context.")] true
     /\ startsWith (lit "Codebase Index:
") index = true
     /\ Assembler.strlen index
        <= 16 + foldr (fun file n => Assembler.strlen file + 514 + n) 0 (take 10 files))
  /\ (Exists (fun file => openTextDocument h file = None) (take 10 files) ->
      Workspace.scanCodebase h chatHistory = Workspace.Run chatHistory [] false).
Proof.
  intros Hw Hfind. unfold Workspace.scanCodebase. rewrite Hw, Hfind. cbn [negb]. split.
  - intros Hall.
    destruct (indexFiles_readable h (take 10 files) (lit "Codebase Index:
") Hall) as (more & -> & Hlen).
    eexists. split; [reflexivity|]. split; [apply startsWith_refl_app|].
    rewrite strlen_app. change (Assembler.strlen (lit "Codebase Index:
")) with 16. lia.
  - intros Hex. by rewrite indexFiles_unreadable.
Qed.

Lemma scan_is_all_or_nothing_witness :
  Workspace.scanCodebase fooHost [] = Workspace.Run [lit "Codebase Index:

--- /w/foo.ts ---
const x = 0;...
"] [ShowInfo (lit "Codebase indexed and added to AICA context.")] true.
Proof.
  destruct (proj1 (scan_is_all_or_nothing fooHost [] [lit "/w/foo.ts"] eq_refl eq_refl))
    as (index & Hrun & _).
  - repeat constructor. by eexists.
  - vm_compute. reflexivity.
Defined.
